(** * pssm_updater: a shallow embedding of [pssm_updater.py]

    The script rewrites OGRE [.material] files.  It is text processing
    with Python's [re] and [str] operations, plus a little file handling.
    The embedding follows the script function by function:

    - characters are the code points U+0000..U+00FF of a Python [str]
      (Rocq's [ascii]), with Python's own classes [\s] and [\w] on that
      range; a text is a [list ascii];
    - the regular expressions of the script are written with matcher
      combinators, one per regex construct, evaluated by a backtracking
      matcher in the order Python's engine tries the alternatives;
    - [re.findall], [re.split] and [re.sub] share one left-to-right scan
      for non-overlapping matches;
    - exceptions are an explicit result type, and the file system and the
      console are explicit state. *)

From Stdlib Require Import String Ascii.
From Stdlib Require Import List ZArith Lia Bool Arith.
Import ListNotations.

(** ** Texts *)

Definition text := list ascii.

Notation "$ s" := (list_ascii_of_string s%string)
  (at level 1, format "$ s").

Module Char.

Definition code (c : ascii) : N := N_of_ascii c.

Definition between (lo hi : N) (c : ascii) : bool :=
  (N.leb lo (code c) && N.leb (code c) hi)%bool.

Definition eqb (a b : ascii) : bool := Ascii.eqb a b.

(** [str.isspace] and the regex class [\s] on U+0000..U+00FF:
    TAB..CR, FS..US, SPACE, NEL and NBSP. *)
Definition is_space (c : ascii) : bool :=
  (between 9 13 c || between 28 32 c
   || N.eqb (code c) 133 || N.eqb (code c) 160)%bool.

(** The regex class [\w] on U+0000..U+00FF: [str.isalnum] or [_]. *)
Definition is_word (c : ascii) : bool :=
  (between 48 57 c || between 65 90 c || between 97 122 c
   || N.eqb (code c) 95
   || N.eqb (code c) 170 || between 178 179 c || N.eqb (code c) 181
   || between 185 186 c || between 188 190 c
   || between 192 214 c || between 216 246 c || between 248 255 c)%bool.

Definition newline : ascii := ascii_of_N 10.

(** The class [[^\n{]]. *)
Definition not_nl_brace (c : ascii) : bool :=
  negb (eqb c newline || eqb c "{"%char).

(** The class [[^}]]. *)
Definition not_close (c : ascii) : bool := negb (eqb c "}"%char).

End Char.

(** ** Python's [str] operations used by the script *)

Module Str.

Fixpoint eqb (a b : text) : bool :=
  match a, b with
  | [], [] => true
  | x :: a', y :: b' => Char.eqb x y && eqb a' b'
  | _, _ => false
  end.

(** [strip_prefix k s] is [Some r] when [s = k ++ r]. *)
Fixpoint strip_prefix (k s : text) : option text :=
  match k with
  | [] => Some s
  | x :: k' =>
      match s with
      | y :: s' => if Char.eqb x y then strip_prefix k' s' else None
      | [] => None
      end
  end.

Definition startswith (k s : text) : bool :=
  match strip_prefix k s with Some _ => true | None => false end.

(** [x in s]. *)
Fixpoint contains (x s : text) : bool :=
  startswith x s
  || match s with
     | [] => false
     | _ :: s' => contains x s'
     end.

(** [s.find(x)], counting from index [i] of the whole string. *)
Fixpoint find_from (x s : text) (i : Z) : Z :=
  if startswith x s then i
  else match s with
       | [] => (-1)%Z
       | _ :: s' => find_from x s' (i + 1)
       end.

Definition find (x s : text) : Z := find_from x s 0.

(** [s.rfind(x)], counting from index [i] of the whole string. *)
Fixpoint rfind_from (x s : text) (i : Z) : Z :=
  let here := if startswith x s then i else (-1)%Z in
  match s with
  | [] => here
  | _ :: s' =>
      let later := rfind_from x s' (i + 1) in
      if (0 <=? later)%Z then later else here
  end.

Definition rfind (x s : text) : Z := rfind_from x s 0.

(** One bound of a slice [s[a:b]]: negative indices count from the
    end, and the result is clamped to [0 .. len]. *)
Definition clamp (len i : Z) : Z :=
  let i := if (i <? 0)%Z then (i + len)%Z else i in
  Z.max 0 (Z.min len i).

(** [s[a:b]]. *)
Definition slice (s : text) (a b : Z) : text :=
  let len := Z.of_nat (length s) in
  let a := clamp len a in
  let b := clamp len b in
  firstn (Z.to_nat (b - a)) (skipn (Z.to_nat a) s).

Fixpoint lstrip (s : text) : text :=
  match s with
  | c :: s' => if Char.is_space c then lstrip s' else s
  | [] => []
  end.

Definition rstrip (s : text) : text := rev (lstrip (rev s)).

(** [s.strip()]. *)
Definition strip (s : text) : text := rstrip (lstrip s).

(** [s.replace(old, new, 1)]: the first occurrence only. *)
Fixpoint replace_first (old new s : text) : text :=
  match strip_prefix old s with
  | Some r => new ++ r
  | None =>
      match s with
      | [] => []
      | c :: s' => c :: replace_first old new s'
      end
  end.

(** [sep.join(parts)]. *)
Fixpoint join (sep : text) (parts : list text) : text :=
  match parts with
  | [] => []
  | [p] => p
  | p :: ps => p ++ sep ++ join sep ps
  end.

Definition endswith (k s : text) : bool := startswith (rev k) (rev s).

End Str.

(** ** Python's [re]: matching *)

Module Re.

(** A match is reported as the pieces of text consumed by the atoms of
    the pattern, in pattern order.  [group(0)] is their concatenation;
    the group of a parenthesised atom is that atom's piece. *)
Definition chunks := list text.

Definition matched (m : chunks) : text := concat m.

Definition group (n : nat) (m : chunks) : text := nth n m [].

(** A matcher stands for a pattern, or for the rest of one.  It gets the
    character before the current position ([None] at the start of the
    string) and the text from the current position on, and returns the
    pieces consumed when the pattern matches here. *)
Definition matcher := option ascii -> text -> option chunks.

Definition prev_after (m : text) (prev : option ascii) : option ascii :=
  fold_left (fun _ c => Some c) m prev.

(** Whether the text starts with a character of the class. *)
Definition head_in (p : ascii -> bool) (s : text) : bool :=
  match s with
  | c :: _ => p c
  | [] => false
  end.

Definition word_opt (c : option ascii) : bool :=
  match c with
  | Some c => Char.is_word c
  | None => false
  end.

(** The end of a pattern. *)
Definition fin : matcher := fun _ _ => Some [].

(** A literal string. *)
Definition lit (k : text) (rest : matcher) : matcher :=
  fun prev s =>
    match Str.strip_prefix k s with
    | Some s' => option_map (cons k) (rest (prev_after k prev) s')
    | None => None
    end.

(** [\b]: exactly one of the two neighbours is a word character. *)
Definition wordb (rest : matcher) : matcher :=
  fun prev s =>
    if xorb (word_opt prev) (word_opt (hd_error s))
    then option_map (cons []) (rest prev s)
    else None.

(** The loop of a greedy repetition of a character class: take one more
    character when possible, and fall back to the rest of the pattern
    at this position when the longer attempt fails. *)
Fixpoint greedy (p : ascii -> bool) (rest : matcher)
    (prev : option ascii) (s : text) : option (text * chunks) :=
  let stop := option_map (pair []) (rest prev s) in
  match s with
  | c :: s' =>
      if p c then
        match greedy p rest (Some c) s' with
        | Some (m, cs) => Some (c :: m, cs)
        | None => stop
        end
      else stop
  | [] => stop
  end.

(** [p*] *)
Definition star (p : ascii -> bool) (rest : matcher) : matcher :=
  fun prev s =>
    option_map (fun r => fst r :: snd r) (greedy p rest prev s).

(** [p+] *)
Definition plus (p : ascii -> bool) (rest : matcher) : matcher :=
  fun prev s =>
    match s with
    | c :: s' =>
        if p c then
          option_map (fun r => (c :: fst r) :: snd r)
                     (greedy p rest (Some c) s')
        else None
    | [] => None
    end.

(** [(?=...)] *)
Definition look (ahead rest : matcher) : matcher :=
  fun prev s =>
    match ahead prev s with
    | Some _ => option_map (cons []) (rest prev s)
    | None => None
    end.

(** [re.match]: the pattern anchored at the start of the string. *)
Definition re_match (pat : matcher) (s : text) : option chunks :=
  pat None s.

(** *** Scanning for non-overlapping matches

    [re.finditer]: try the pattern at each position from the left; after
    a match, go on behind it.  [skip] counts the characters of the
    current match still to be passed over.  The patterns of the script
    all begin with a literal and never match the empty string, so an
    empty match is not reported. *)
Inductive event :=
| Chr (c : ascii)
| Hit (m : chunks).

Fixpoint scan (pat : matcher) (skip : nat) (prev : option ascii)
    (s : text) : list event :=
  match s with
  | [] => []
  | c :: s' =>
      match skip with
      | S k => scan pat k (Some c) s'
      | O =>
          match pat prev s with
          | Some m =>
              match length (matched m) with
              | S k => Hit m :: scan pat k (Some c) s'
              | O => Chr c :: scan pat 0 (Some c) s'
              end
          | None => Chr c :: scan pat 0 (Some c) s'
          end
      end
  end.

Definition finditer (pat : matcher) (s : text) : list event :=
  scan pat 0 None s.

Fixpoint hits (evs : list event) : list chunks :=
  match evs with
  | [] => []
  | Chr _ :: evs' => hits evs'
  | Hit m :: evs' => m :: hits evs'
  end.

(** [re.findall] for a pattern without groups. *)
Definition findall (pat : matcher) (s : text) : list text :=
  map matched (hits (finditer pat s)).

(** The texts between the matches; there is always a last one. *)
Fixpoint pieces (evs : list event) : list text :=
  match evs with
  | [] => [[]]
  | Chr c :: evs' =>
      match pieces evs' with
      | p :: ps => (c :: p) :: ps
      | [] => [[c]]
      end
  | Hit _ :: evs' => [] :: pieces evs'
  end.

(** [re.split] for a pattern without groups. *)
Definition split (pat : matcher) (s : text) : list text :=
  pieces (finditer pat s).

Definition emit (repl : chunks -> text) (e : event) : text :=
  match e with
  | Chr c => [c]
  | Hit m => repl m
  end.

(** [re.sub] with a replacement function; a replacement string without
    escapes is the constant function. *)
Definition sub (pat : matcher) (repl : chunks -> text) (s : text) : text :=
  flat_map (emit repl) (finditer pat s).

End Re.

(** ** The script *)

Inductive exn :=
| AttributeError
| FileNotFoundError
| FileExistsError.

Inductive result (A : Type) :=
| Ok (a : A)
| Raise (e : exn).

Arguments Ok {A} a.
Arguments Raise {A} e.

(** The regular expressions of the script. *)
Module Pat.
Import Re.

(** [material\s+] *)
Definition material : matcher :=
  lit $"material" (plus Char.is_space fin).

(** [\bKEYWORD\s*{], the shape of the two counting patterns. *)
Definition opener (keyword : text) : matcher :=
  wordb (lit keyword (star Char.is_space (lit $"{" fin))).

(** [\bpass\s*{] *)
Definition pass_open : matcher := opener $"pass".

(** [\btexture_unit\s*{] *)
Definition texture_unit_open : matcher := opener $"texture_unit".

(** The name pattern: [material\s+] followed by group 1, [[^\n{]+], and
    group 2, [[\s]*].  Counting the pieces from 0, group 1 is piece 2
    and group 2 is piece 3. *)
Definition name : matcher :=
  lit $"material"
    (plus Char.is_space
       (plus Char.not_nl_brace (star Char.is_space fin))).

(** [\bKEYWORD\b(?=\s*{)], the shape of the two renaming patterns. *)
Definition keyword_before_brace (keyword : text) : matcher :=
  wordb (lit keyword
           (wordb (look (star Char.is_space (lit $"{" fin)) fin))).

(** [\btechnique\b(?=\s*{)] *)
Definition technique : matcher := keyword_before_brace $"technique".

(** [pass\s*{[^}]*}] (the flag [re.DOTALL] changes nothing: the pattern
    has no dot) *)
Definition pass_block : matcher :=
  lit $"pass"
    (star Char.is_space
       (lit $"{" (star Char.not_close (lit $"}" fin)))).

(** [\btexture_unit\b(?=\s*{)] *)
Definition texture_unit : matcher :=
  keyword_before_brace $"texture_unit".

End Pat.

(** [parse_material_file] *)
Definition parse_material_file (content : text) : list text :=
  let materials := tl (Re.split Pat.material content) in
  map (fun mat => $"material " ++ mat) materials.

(** [is_eligible_material] *)
Definition is_eligible_material (material_text : text) : bool :=
  if existsb (fun x => Str.contains x material_text)
       [$"vertex_program_ref"; $"fragment_program_ref"; $"tex_coord_set"]
  then false
  else
    let pass_count := length (Re.findall Pat.pass_open material_text) in
    let texture_unit_count :=
      length (Re.findall Pat.texture_unit_open material_text) in
    (existsb (Nat.eqb pass_count) [1; 2]) && (texture_unit_count =? 1).

(** [replace_pass], the replacement function of the pass substitution. *)
Definition replace_pass (m : Re.chunks) : text :=
  let pass_block := Re.matched m in
  if Str.contains $"texture_unit" pass_block
  then Str.replace_first $"pass" $"pass BaseRender" pass_block
  else pass_block.

(** The three substitutions of [transform_material] on the inner
    content, in the order of the script. *)
Definition rename_technique (inner_content : text) : text :=
  Re.sub Pat.technique (fun _ => $"technique BaseTechnique") inner_content.

Definition rename_pass (inner_content : text) : text :=
  Re.sub Pat.pass_block replace_pass inner_content.

Definition rename_texture_unit (inner_content : text) : text :=
  Re.sub Pat.texture_unit (fun _ => $"texture_unit Diffuse_Map")
         inner_content.

Definition namespace_suffix : text := $": RoR/Managed_Mats/Base".

(** [transform_material]; [name_match] is [None] when the pattern does
    not match, and [name_match.group] then raises [AttributeError]. *)
Definition transform_material (material_text : text) : result text :=
  match Re.re_match Pat.name material_text with
  | None => Raise AttributeError
  | Some name_match =>
      let material_name := Str.strip (Re.group 2 name_match) in
      let start_brace := Str.find $"{" material_text in
      let end_brace := Str.rfind $"}" material_text in
      let pre_brace_ws :=
        Str.slice material_text
          (Z.of_nat (length ($"material " ++ material_name))) start_brace in
      let inner_content :=
        Str.slice material_text (start_brace + 1) end_brace in
      let inner_content := rename_technique inner_content in
      let inner_content := rename_pass inner_content in
      let inner_content := rename_texture_unit inner_content in
      Ok ($"material " ++ material_name ++ namespace_suffix
            ++ pre_brace_ws ++ $"{" ++ inner_content ++ $"}")
  end.

(** *** Files and console

    The script works in one folder.  A file is the text that reading it
    in text mode returns.  [entries] are the regular files of the input
    folder in the order the folder lists them (the order of [glob]);
    [backup] is its subfolder [old_materials], [None] when absent; a
    regular file of that name is one of the [entries].
    File names are compared as they are written, as on a case-sensitive
    file system. *)
Record filesystem := {
  input_exists : bool;
  entries : list (text * text);
  backup : option (list (text * text))
}.

(** The file-system operations the script performs, in order. *)
Inductive op :=
| Mkdir
| Copy (file_name : text)
| Write (file_name : text) (content : text).

(** The lines the script prints. *)
Inductive msg :=
| MsgProcessing (file_name : text)
| MsgUpdated (updated_count : nat) (file_name : text)
| MsgNoEligible
| MsgScanning
| MsgBackupFolder
| MsgNoFiles
| MsgSummary (processed_files processed_materials updated_materials : nat).

(** The counters of the [PSSMMaterialUpdater] object and everything
    outside it that the script reads or changes. *)
Record world := {
  fs : filesystem;
  ops : list op;
  stdout : list msg;
  processed_files : nat;
  processed_materials : nat;
  updated_materials : nat
}.

Fixpoint lookup (k : text) (l : list (text * text)) : option text :=
  match l with
  | [] => None
  | (k', v) :: l' => if Str.eqb k k' then Some v else lookup k l'
  end.

(** Create or overwrite: an existing file keeps its place. *)
Fixpoint store (k v : text) (l : list (text * text)) : list (text * text) :=
  match l with
  | [] => [(k, v)]
  | (k', v') :: l' =>
      if Str.eqb k k' then (k, v) :: l' else (k', v') :: store k v l'
  end.

(** A computation of the script: it changes the world and returns a
    value or raises; the world at the point of the exception is kept. *)
Definition M (A : Type) : Type := world -> result A * world.

Definition ret {A} (a : A) : M A := fun w => (Ok a, w).

Definition raise {A} (e : exn) : M A := fun w => (Raise e, w).

Definition bind {A B} (c : M A) (k : A -> M B) : M B :=
  fun w =>
    match c w with
    | (Ok a, w') => k a w'
    | (Raise e, w') => (Raise e, w')
    end.

Notation "x <- c ;; k" := (bind c (fun x => k))
  (at level 61, c at next level, right associativity).
Notation "c ;; k" := (bind c (fun _ => k))
  (at level 61, right associativity).

Definition lift {A} (r : result A) : M A := fun w => (r, w).

Definition print (m : msg) : M unit :=
  fun w =>
    (Ok tt, {| fs := fs w; ops := ops w; stdout := stdout w ++ [m];
               processed_files := processed_files w;
               processed_materials := processed_materials w;
               updated_materials := updated_materials w |}).

Definition set_fs (o : op) (f : filesystem) : M unit :=
  fun w =>
    (Ok tt, {| fs := f; ops := ops w ++ [o]; stdout := stdout w;
               processed_files := processed_files w;
               processed_materials := processed_materials w;
               updated_materials := updated_materials w |}).

Definition get_fs : M filesystem := fun w => (Ok (fs w), w).

Definition incr_processed_files : M unit :=
  fun w =>
    (Ok tt, {| fs := fs w; ops := ops w; stdout := stdout w;
               processed_files := processed_files w + 1;
               processed_materials := processed_materials w;
               updated_materials := updated_materials w |}).

Definition incr_processed_materials : M unit :=
  fun w =>
    (Ok tt, {| fs := fs w; ops := ops w; stdout := stdout w;
               processed_files := processed_files w;
               processed_materials := processed_materials w + 1;
               updated_materials := updated_materials w |}).

Definition incr_updated_materials : M unit :=
  fun w =>
    (Ok tt, {| fs := fs w; ops := ops w; stdout := stdout w;
               processed_files := processed_files w;
               processed_materials := processed_materials w;
               updated_materials := updated_materials w + 1 |}).

(** [open(file_path, 'r').read()] *)
Definition read_file (file_name : text) : M text :=
  f <- get_fs ;;
  match lookup file_name (entries f) with
  | Some content => ret content
  | None => raise FileNotFoundError
  end.

(** [open(file_path, 'w').write(content)] *)
Definition write_file (file_name content : text) : M unit :=
  f <- get_fs ;;
  set_fs (Write file_name content)
    {| input_exists := input_exists f;
       entries := store file_name content (entries f);
       backup := backup f |}.

(** [shutil.copy2(file_path, backup_folder / file_path.name)] *)
Definition copy2 (file_name : text) : M unit :=
  f <- get_fs ;;
  match lookup file_name (entries f), backup f with
  | Some content, Some b =>
      set_fs (Copy file_name)
        {| input_exists := input_exists f;
           entries := entries f;
           backup := Some (store file_name content b) |}
  | _, _ => raise FileNotFoundError
  end.

(** The name of the backup folder, [input_folder / "old_materials"]. *)
Definition backup_name : text := $"old_materials".

(** [backup_folder.mkdir(exist_ok=True)]: the parent must exist; an
    existing folder is left as it is; a regular file of that name makes
    [mkdir] raise [FileExistsError], as [exist_ok] only excuses a
    directory. *)
Definition mkdir_backup : M unit :=
  f <- get_fs ;;
  if input_exists f then
    match backup f with
    | Some _ => ret tt
    | None =>
        match lookup backup_name (entries f) with
        | Some _ => raise FileExistsError
        | None =>
            set_fs Mkdir
              {| input_exists := true; entries := entries f;
                 backup := Some [] |}
        end
    end
  else raise FileNotFoundError.

(** [input_folder.glob('*.material')] *)
Definition glob_material : M (list text) :=
  f <- get_fs ;;
  ret (filter (Str.endswith $".material") (map fst (entries f))).

Definition import_line : text :=
  $"import * from " ++ [ascii_of_N 34] ++ $"managed_mats.material"
    ++ [ascii_of_N 34].

Definition blank_line : text := [Char.newline; Char.newline].

(** The text [process_file] writes: the import line, a blank line, and
    the blocks joined by blank lines. *)
Definition output_content (updated_materials : list text) : text :=
  import_line ++ blank_line ++ Str.join blank_line updated_materials.

(** The loop of [process_file] over the parsed blocks. *)
Fixpoint process_materials (materials : list text)
    (updated_materials : list text) (updated_count : nat)
    : M (list text * nat) :=
  match materials with
  | [] => ret (updated_materials, updated_count)
  | material :: rest =>
      incr_processed_materials ;;
      if is_eligible_material material then
        t <- lift (transform_material material) ;;
        incr_updated_materials ;;
        process_materials rest (updated_materials ++ [t]) (updated_count + 1)
      else
        process_materials rest (updated_materials ++ [material])
                          updated_count
  end.

(** [process_file] *)
Definition process_file (file_name : text) : M unit :=
  print (MsgProcessing file_name) ;;
  content <- read_file file_name ;;
  let materials := parse_material_file content in
  r <- process_materials materials [] 0 ;;
  let updated_materials := fst r in
  let updated_count := snd r in
  if 0 <? updated_count then
    copy2 file_name ;;
    write_file file_name (output_content updated_materials) ;;
    print (MsgUpdated updated_count file_name) ;;
    incr_processed_files
  else
    print MsgNoEligible.

Fixpoint for_each (files : list text) (body : text -> M unit) : M unit :=
  match files with
  | [] => ret tt
  | f :: rest => body f ;; for_each rest body
  end.

Definition print_summary : M unit :=
  fun w =>
    print (MsgSummary (processed_files w) (processed_materials w)
                      (updated_materials w)) w.

(** [run] *)
Definition run : M unit :=
  print MsgScanning ;;
  print MsgBackupFolder ;;
  material_files <- glob_material ;;
  match material_files with
  | [] => print MsgNoFiles
  | _ => for_each material_files process_file ;; print_summary
  end.

(** [PSSMMaterialUpdater.__init__]: the counters start at zero. *)
Definition init : M unit :=
  mkdir_backup ;;
  fun w =>
    (Ok tt, {| fs := fs w; ops := ops w; stdout := stdout w;
               processed_files := 0; processed_materials := 0;
               updated_materials := 0 |}).

(** The script run on a folder: construct the updater, then [run]. *)
Definition main : M unit := init ;; run.

Definition start (f : filesystem) : world :=
  {| fs := f; ops := []; stdout := [];
     processed_files := 0; processed_materials := 0;
     updated_materials := 0 |}.

(** * Specification vocabulary

    The predicates in which the properties below are stated. *)

(** A pattern is proper when every match is a non-empty prefix of the
    text it was tried on. *)
Definition proper (pat : Re.matcher) : Prop :=
  forall prev s m,
    pat prev s = Some m ->
    Re.matched m <> [] /\ exists r, s = Re.matched m ++ r.

(** The leftmost non-overlapping matches of a pattern in a text, as a
    relation: a character at which the pattern does not match is passed
    over, a match is taken whole. *)
Inductive scanned (pat : Re.matcher)
  : option ascii -> text -> list Re.event -> Prop :=
| scanned_nil prev : scanned pat prev [] []
| scanned_chr prev c s evs :
    pat prev (c :: s) = None ->
    scanned pat (Some c) s evs ->
    scanned pat prev (c :: s) (Re.Chr c :: evs)
| scanned_hit prev m s evs :
    pat prev (Re.matched m ++ s) = Some m ->
    Re.matched m <> [] ->
    scanned pat (Re.prev_after (Re.matched m) prev) s evs ->
    scanned pat prev (Re.matched m ++ s) (Re.Hit m :: evs).

(** The text ends outside a word: it is empty or its last character is
    not a word character. *)
Definition ends_outside_word (a : text) : Prop :=
  a = [] \/ exists a' c, a = a' ++ [c] /\ Char.is_word c = false.

(** An opener of [keyword] starts at index [i] of [t]: the keyword at a
    word boundary, then whitespace, then an opening brace. *)
Definition opener_at (keyword t : text) (i : nat) : Prop :=
  exists a ws b,
    t = a ++ keyword ++ ws ++ $"{" ++ b /\ length a = i
    /\ forallb Char.is_space ws = true /\ ends_outside_word a.

(** [P] holds at exactly [n] indices. *)
Definition occurs (n : nat) (P : nat -> Prop) : Prop :=
  exists l : list nat,
    NoDup l /\ length l = n /\ forall i, In i l <-> P i.

(** [x] is a substring of [s]. *)
Definition substring (x s : text) : Prop := exists a b, s = a ++ x ++ b.

(** The indices, counted from [i], at which a pattern matches in a text;
    matches may overlap here. *)
Fixpoint match_positions (pat : Re.matcher) (prev : option ascii)
    (s : text) (i : nat) : list nat :=
  match s with
  | [] => []
  | c :: s' =>
      match pat prev s with
      | Some _ => [i]
      | None => []
      end ++ match_positions pat (Some c) s' (S i)
  end.

(** No match of the pattern starts strictly inside another match. *)
Definition no_inner_match (pat : Re.matcher) : Prop :=
  forall prev a c b s m,
    pat prev (a ++ c :: b ++ s) = Some m ->
    Re.matched m = a ++ c :: b -> a <> [] ->
    pat (Re.prev_after a prev) (c :: b ++ s) = None.

(** The name pattern can match: the block starts with the keyword, at
    least one whitespace character, and then a character that is neither
    a newline nor an opening brace. *)
Definition name_present (t : text) : Prop :=
  exists ws c r,
    t = $"material" ++ ws ++ c :: r /\ ws <> []
    /\ forallb Char.is_space ws = true
    /\ c <> Char.newline /\ c <> "{"%char.

(** What the loop of [process_file] makes of one block when it does not
    raise: an eligible block is transformed, any other is kept. *)
Definition rewritten (material updated : text) : Prop :=
  if is_eligible_material material
  then transform_material material = Ok updated
  else updated = material.

(** The blocks the loop of [process_file] collects, or the exception
    of the first transformation that raises. *)
Fixpoint rewrite_all (materials : list text) : result (list text) :=
  match materials with
  | [] => Ok []
  | material :: rest =>
      let kept (u : text) :=
        match rewrite_all rest with
        | Ok l => Ok (u :: l)
        | Raise e => Raise e
        end in
      if is_eligible_material material then
        match transform_material material with
        | Ok t => kept t
        | Raise e => Raise e
        end
      else kept material
  end.

Definition count_eligible (materials : list text) : nat :=
  length (filter is_eligible_material materials).

(** The world after the loop has counted [a] blocks, [b] of them
    updated. *)
Definition counted (w : world) (a b : nat) : world :=
  {| fs := fs w; ops := ops w; stdout := stdout w;
     processed_files := processed_files w;
     processed_materials := processed_materials w + a;
     updated_materials := updated_materials w + b |}.

(** A span of the pass pattern starts the text: the letters [pass],
    whitespace, an opening brace, and everything up to the first closing
    brace. *)
Definition pass_span_at (s : text) : Prop :=
  exists ws body r,
    s = $"pass" ++ ws ++ $"{" ++ body ++ $"}" ++ r
    /\ forallb Char.is_space ws = true
    /\ forallb Char.not_close body = true.

(** The pass renaming, as the specification words it: going through the
    text from the left, a character at which no span starts is kept; a
    span that contains [texture_unit] has [BaseRender] put behind its
    leading [pass]; a span that does not is kept. *)
Inductive pass_rewrite : text -> text -> Prop :=
| pass_rewrite_nil : pass_rewrite [] []
| pass_rewrite_char c s t :
    ~ pass_span_at (c :: s) ->
    pass_rewrite s t ->
    pass_rewrite (c :: s) (c :: t)
| pass_rewrite_renamed ws body s t :
    forallb Char.is_space ws = true ->
    forallb Char.not_close body = true ->
    substring $"texture_unit" ($"pass" ++ ws ++ $"{" ++ body ++ $"}") ->
    pass_rewrite s t ->
    pass_rewrite ($"pass" ++ ws ++ $"{" ++ body ++ $"}" ++ s)
                 ($"pass BaseRender" ++ ws ++ $"{" ++ body ++ $"}" ++ t)
| pass_rewrite_kept ws body s t :
    forallb Char.is_space ws = true ->
    forallb Char.not_close body = true ->
    ~ substring $"texture_unit" ($"pass" ++ ws ++ $"{" ++ body ++ $"}") ->
    pass_rewrite s t ->
    pass_rewrite ($"pass" ++ ws ++ $"{" ++ body ++ $"}" ++ s)
                 ($"pass" ++ ws ++ $"{" ++ body ++ $"}" ++ t).

(** An opener of [keyword] starts the text, [prev] being the character
    before it. *)
Definition opener_here (keyword : text) (prev : option ascii) (s : text)
    : Prop :=
  Re.word_opt prev = false
  /\ exists ws r,
       s = keyword ++ ws ++ $"{" ++ r /\ forallb Char.is_space ws = true.

(** The renaming of a keyword in front of a brace: going through the
    text from the left, every opener of the keyword gets [suffix] put
    behind the keyword, and every other character is kept. *)
Inductive keyword_rewrite (keyword suffix : text)
  : option ascii -> text -> text -> Prop :=
| keyword_rewrite_nil prev : keyword_rewrite keyword suffix prev [] []
| keyword_rewrite_char prev c s t :
    ~ opener_here keyword prev (c :: s) ->
    keyword_rewrite keyword suffix (Some c) s t ->
    keyword_rewrite keyword suffix prev (c :: s) (c :: t)
| keyword_rewrite_here prev s t :
    opener_here keyword prev (keyword ++ s) ->
    keyword_rewrite keyword suffix (Re.prev_after keyword prev) s t ->
    keyword_rewrite keyword suffix prev (keyword ++ s)
                    (keyword ++ suffix ++ t).

(** [t] is [s] with copies of [suffix] put in behind some occurrences of
    [keyword]; taking them out of [t] again gives [s]. *)
Inductive inserted (keyword suffix : text) : text -> text -> Prop :=
| inserted_nil : inserted keyword suffix [] []
| inserted_char c s t :
    inserted keyword suffix s t ->
    inserted keyword suffix (c :: s) (c :: t)
| inserted_here s t :
    inserted keyword suffix s t ->
    inserted keyword suffix (keyword ++ s) (keyword ++ suffix ++ t).

(** *** The run over a folder *)

(** The file name matches [*.material]. *)
Definition is_material_file (file_name : text) : bool :=
  Str.endswith $".material" file_name.

(** No transformation raises on the blocks of the content. *)
Definition transforms_ok (content : text) : bool :=
  match rewrite_all (parse_material_file content) with
  | Ok _ => true
  | Raise _ => false
  end.

(** What [process_file] leaves in a file when no transformation raises:
    the rewritten text when a block is eligible, the content as it was
    otherwise. *)
Definition rewritten_content (content : text) : text :=
  match rewrite_all (parse_material_file content) with
  | Ok updated =>
      if existsb is_eligible_material (parse_material_file content)
      then output_content updated
      else content
  | Raise _ => content
  end.

(** The file has an eligible block. *)
Definition has_eligible (content : text) : bool :=
  existsb is_eligible_material (parse_material_file content).

(** The names are pairwise different. *)
Fixpoint distinct (names : list text) : bool :=
  match names with
  | [] => true
  | n :: rest => negb (existsb (Str.eqb n) rest) && distinct rest
  end.

(** The content of a file of the folder, empty when there is no such
    file. *)
Definition content_of (files : list (text * text)) (file_name : text)
    : text :=
  match lookup file_name files with
  | Some c => c
  | None => []
  end.

(** The keyword followed by whitespace occurs in the text. *)
Definition keyword_occurs (content : text) : Prop :=
  exists a ws b,
    content = a ++ $"material" ++ ws ++ b /\ ws <> []
    /\ forallb Char.is_space ws = true.

(** The separator and the text of one block as they stand in a file. *)
Definition block_in_file (p : text * text) : text :=
  $"material" ++ fst p ++ snd p.

(** The keyword followed by whitespace stands at the start of the
    text. *)
Definition keyword_at (s : text) : Prop :=
  exists ws b,
    s = $"material" ++ ws ++ b /\ ws <> []
    /\ forallb Char.is_space ws = true.

(** No keyword starts inside [lead] when [rest] stands behind it. *)
Definition no_keyword_in (lead rest : text) : Prop :=
  forall a b, lead = a ++ b -> b <> [] -> ~ keyword_at (b ++ rest).

(** A file cut at its keywords, from the left: [lead] is the text in
    front of the first keyword; then come, for every keyword, the whole
    run of whitespace behind it and the text from there up to the next
    keyword or the end of the file. *)
Inductive file_blocks : text -> text -> list (text * text) -> Prop :=
| file_blocks_last lead :
    no_keyword_in lead [] -> file_blocks lead lead []
| file_blocks_next lead ws rest t l :
    no_keyword_in lead ($"material" ++ ws ++ rest) ->
    ws <> [] -> forallb Char.is_space ws = true ->
    Re.head_in Char.is_space rest = false ->
    file_blocks rest t l ->
    file_blocks (lead ++ $"material" ++ ws ++ rest) lead ((ws, t) :: l).

(** The name a block declares: the text behind ["material "] up to the
    end of the line or the first opening brace, without the whitespace
    at its end. *)
Definition declared_name (block name : text) : Prop :=
  exists w tail,
    block = $"material " ++ name ++ w ++ tail
    /\ name <> []
    /\ Re.head_in Char.is_space name = false
    /\ Re.head_in Char.is_space (rev name) = false
    /\ forallb Char.is_space w = true
    /\ ~ In Char.newline (name ++ w) /\ ~ In "{"%char (name ++ w)
    /\ (tail = []
        \/ exists c t, tail = c :: t /\ (c = Char.newline \/ c = "{"%char)).

(** The material files of a folder, and those with an eligible block. *)
Definition material_entries (files : list (text * text))
    : list (text * text) :=
  filter (fun p => is_material_file (fst p)) files.

Definition updated_entries (files : list (text * text))
    : list (text * text) :=
  filter (fun p => has_eligible (snd p)) (material_entries files).

(** A file of the folder after a run in which no transformation
    raises. *)
Definition rewritten_entry (p : text * text) : text * text :=
  (fst p,
   if is_material_file (fst p) then rewritten_content (snd p) else snd p).

(** What [process_file] does to a file with an eligible block, and what
    it prints for a file. *)
Definition file_ops (p : text * text) : list op :=
  [Copy (fst p); Write (fst p) (rewritten_content (snd p))].

Definition file_messages (p : text * text) : list msg :=
  [MsgProcessing (fst p);
   if has_eligible (snd p)
   then MsgUpdated (count_eligible (parse_material_file (snd p))) (fst p)
   else MsgNoEligible].

(** The blocks, and the eligible blocks, of some files. *)
Definition blocks_in (files : list (text * text)) : nat :=
  list_sum (map (fun p => length (parse_material_file (snd p))) files).

Definition eligible_in (files : list (text * text)) : nat :=
  list_sum (map (fun p => count_eligible (parse_material_file (snd p)))
                files).

(** The backup folder after the files have been copied into it. *)
Definition backed_up (files bk : list (text * text)) : list (text * text) :=
  fold_left (fun b p => store (fst p) (snd p) b) files bk.

(** The backup folder as the constructor leaves it. *)
Definition backup_or_empty (f : filesystem) : list (text * text) :=
  match backup f with
  | Some b => b
  | None => []
  end.

(** The counters are in order: no more files written than blocks
    updated, no more blocks updated than blocks found. *)
Definition counters_ordered (w : world) : Prop :=
  processed_files w <= updated_materials w
  /\ updated_materials w <= processed_materials w.

(** More example inputs. *)
Module ExRun.

(** A folder with an ordinary material file, a file that is no material
    file, and a material file without eligible blocks. *)
Definition folder : filesystem :=
  {| input_exists := true;
     entries :=
       [($"wall.material", $"material Wall { pass { texture_unit { } } }");
        ($"notes.txt", $"material Note { pass { texture_unit { } } }");
        ($"plain.material", $"material Plain { }")];
     backup := None |}.

(** A folder whose second material file makes the transformation
    raise. *)
Definition broken_folder : filesystem :=
  {| input_exists := true;
     entries :=
       [($"wall.material", $"material Wall { pass { texture_unit { } } }");
        ($"bad.material", $"material {pass{texture_unit{}}}");
        ($"late.material", $"material Late { pass { texture_unit { } } }")];
     backup := None |}.

End ExRun.

(** Example inputs. *)
Module Ex.

Definition nl : text := [Char.newline].

(** A folder holding one file. *)
Definition folder (file_name content : text) : filesystem :=
  {| input_exists := true;
     entries := [(file_name, content)];
     backup := Some [] |}.

(** A block whose opening brace follows the keyword directly. *)
Definition nameless : text := $"material {pass{texture_unit{}}}".

(** An ordinary block. *)
Definition wall : text :=
  $"material Wall" ++ nl ++ $"{" ++ nl
    ++ $"  technique" ++ nl ++ $"  {" ++ nl
    ++ $"    pass" ++ nl ++ $"    {" ++ nl
    ++ $"      ambient 1 1 1" ++ nl
    ++ $"      texture_unit" ++ nl ++ $"      {" ++ nl
    ++ $"        texture wall.png" ++ nl
    ++ $"      }" ++ nl ++ $"    }" ++ nl ++ $"  }" ++ nl ++ $"}" ++ nl.

(** A block without passes, written with two spaces behind the
    keyword, followed by an ordinary block. *)
Definition two_blocks : text :=
  $"material  Plain { }" ++ nl ++ $"material Wall { pass { texture_unit { } } }".

Definition two_blocks_updated : list text :=
  [$"material Plain { }" ++ nl;
   $"material Wall: RoR/Managed_Mats/Base { pass BaseRender { texture_unit Diffuse_Map { } } }"].

Definition wall_updated : list text :=
  [$"material Wall: RoR/Managed_Mats/Base" ++ nl ++ $"{" ++ nl
     ++ $"  technique BaseTechnique" ++ nl ++ $"  {" ++ nl
     ++ $"    pass BaseRender" ++ nl ++ $"    {" ++ nl
     ++ $"      ambient 1 1 1" ++ nl
     ++ $"      texture_unit Diffuse_Map" ++ nl ++ $"      {" ++ nl
     ++ $"        texture wall.png" ++ nl
     ++ $"      }" ++ nl ++ $"    }" ++ nl ++ $"  }" ++ nl ++ $"}"].

End Ex.

(** * Properties *)

(** ** Characters and strings *)

Lemma char_eqb_eq (a b : ascii) : Char.eqb a b = true <-> a = b.
Proof. apply Ascii.eqb_eq. Qed.

Lemma char_eqb_neq (a b : ascii) : Char.eqb a b = false <-> a <> b.
Proof. apply Ascii.eqb_neq. Qed.

Lemma space_not_word (c : ascii) :
  Char.is_space c = true -> Char.is_word c = false.
Proof.
  destruct c as [[] [] [] [] [] [] [] []]; vm_compute; congruence.
Qed.

Lemma str_eqb_eq (a b : text) : Str.eqb a b = true <-> a = b.
Proof.
  revert b; induction a as [|x a IH]; intros [|y b]; simpl;
    try (split; congruence).
  rewrite andb_true_iff, char_eqb_eq, IH. split.
  - intros [-> ->]; reflexivity.
  - intros [= -> ->]; auto.
Qed.

Lemma str_eqb_refl (a : text) : Str.eqb a a = true.
Proof. apply str_eqb_eq; reflexivity. Qed.

Lemma strip_prefix_spec (k s r : text) :
  Str.strip_prefix k s = Some r <-> s = k ++ r.
Proof.
  revert s; induction k as [|x k IH]; intros s; simpl.
  - split; congruence.
  - destruct s as [|y s]; [split; discriminate|].
    destruct (Char.eqb x y) eqn:E.
    + apply char_eqb_eq in E; subst y. rewrite IH.
      split; [intros ->; reflexivity | intros [= ->]; reflexivity].
    + apply char_eqb_neq in E. split; [discriminate | intros [= -> _]; congruence].
Qed.

Lemma strip_prefix_app (k r : text) : Str.strip_prefix k (k ++ r) = Some r.
Proof. apply strip_prefix_spec; reflexivity. Qed.

Lemma startswith_spec (k s : text) :
  Str.startswith k s = true <-> exists r, s = k ++ r.
Proof.
  unfold Str.startswith.
  destruct (Str.strip_prefix k s) as [r|] eqn:E.
  - apply strip_prefix_spec in E. split; eauto.
  - split; [discriminate|]. intros [r Hr].
    apply strip_prefix_spec in Hr. congruence.
Qed.

(** [x in s] holds exactly when [s] splits around a copy of [x]. *)
Lemma contains_spec (x s : text) :
  Str.contains x s = true <-> exists a b, s = a ++ x ++ b.
Proof.
  induction s as [|c s IH]; simpl.
  - rewrite orb_false_r, startswith_spec. split.
    + intros [r Hr]. exists [], r. exact Hr.
    + intros [a [b H]]. destruct a; [eauto|discriminate].
  - rewrite orb_true_iff, startswith_spec, IH. split.
    + intros [[r Hr] | [a [b H]]].
      * exists [], r. exact Hr.
      * exists (c :: a), b. simpl. congruence.
    + intros [[|c' a] [b H]].
      * left. exists b. exact H.
      * right. injection H as -> ->. eauto.
Qed.

Lemma contains_false_app (x a b : text) :
  Str.contains x (a ++ b) = false ->
  Str.contains x a = false /\ Str.contains x b = false.
Proof.
  intros H. split.
  - destruct (Str.contains x a) eqn:E; [|reflexivity].
    apply contains_spec in E. destruct E as [u [v ->]].
    assert (Str.contains x ((u ++ x ++ v) ++ b) = true); [|congruence].
    apply contains_spec. exists u, (v ++ b).
    now rewrite <- !app_assoc.
  - destruct (Str.contains x b) eqn:E; [|reflexivity].
    apply contains_spec in E. destruct E as [u [v ->]].
    assert (Str.contains x (a ++ u ++ x ++ v) = true); [|congruence].
    apply contains_spec. exists (a ++ u), v.
    now rewrite <- !app_assoc.
Qed.

(** ** The matcher combinators *)

Lemma prev_after_app (a b : text) (prev : option ascii) :
  Re.prev_after (a ++ b) prev = Re.prev_after b (Re.prev_after a prev).
Proof. unfold Re.prev_after. apply fold_left_app. Qed.

Lemma prev_after_cons (c : ascii) (a : text) (prev : option ascii) :
  Re.prev_after (c :: a) prev = Re.prev_after a (Some c).
Proof. reflexivity. Qed.

Lemma prev_after_snoc (a : text) (c : ascii) (prev : option ascii) :
  Re.prev_after (a ++ [c]) prev = Some c.
Proof. rewrite prev_after_app. reflexivity. Qed.

Lemma lit_spec (k : text) (rest : Re.matcher) prev s m :
  Re.lit k rest prev s = Some m <->
  exists s' m', s = k ++ s' /\ rest (Re.prev_after k prev) s' = Some m'
                /\ m = k :: m'.
Proof.
  unfold Re.lit. destruct (Str.strip_prefix k s) as [s'|] eqn:E.
  - apply strip_prefix_spec in E. subst s.
    destruct (rest (Re.prev_after k prev) s') as [m'|] eqn:R; simpl.
    + split.
      * intros [= <-]. eauto.
      * intros (s2 & m2 & H & R2 & ->). apply app_inv_head in H. subst s2.
        rewrite R in R2. injection R2 as <-. reflexivity.
    + split; [discriminate|].
      intros (s2 & m2 & H & R2 & ->). apply app_inv_head in H. subst s2.
      rewrite R in R2. discriminate.
  - split; [discriminate|]. intros (s2 & m2 & H & _).
    apply strip_prefix_spec in H. congruence.
Qed.

Lemma wordb_spec (rest : Re.matcher) prev s m :
  Re.wordb rest prev s = Some m <->
  xorb (Re.word_opt prev) (Re.word_opt (hd_error s)) = true
  /\ exists m', rest prev s = Some m' /\ m = [] :: m'.
Proof.
  unfold Re.wordb.
  destruct (xorb (Re.word_opt prev) (Re.word_opt (hd_error s))).
  - destruct (rest prev s) as [m'|]; simpl.
    + split; [intros [= <-]; eauto | intros (_ & m2 & [= <-] & ->); auto].
    + split; [discriminate | intros (_ & m2 & [=] & _)].
  - split; [discriminate | intros ([=] & _)].
Qed.

Lemma look_spec (ahead rest : Re.matcher) prev s m :
  Re.look ahead rest prev s = Some m <->
  ahead prev s <> None /\ exists m', rest prev s = Some m' /\ m = [] :: m'.
Proof.
  unfold Re.look. destruct (ahead prev s) as [a|].
  - destruct (rest prev s) as [m'|]; simpl.
    + split; [intros [= <-]; split; [discriminate|eauto]
             | intros (_ & m2 & [= <-] & ->); auto].
    + split; [discriminate | intros (_ & m2 & [=] & _)].
  - split; [discriminate | intros (H & _); congruence].
Qed.

(** What the greedy loop returns is a run of class characters followed
    by a match of the rest of the pattern. *)
Lemma greedy_sound (p : ascii -> bool) (rest : Re.matcher) :
  forall s prev m cs,
    Re.greedy p rest prev s = Some (m, cs) ->
    forallb p m = true
    /\ exists s', s = m ++ s' /\ rest (Re.prev_after m prev) s' = Some cs.
Proof.
  induction s as [|c s IH]; intros prev m cs; simpl.
  - destruct (rest prev []) as [r|] eqn:R; simpl; [|discriminate].
    intros [= <- <-]. split; [reflexivity|]. exists []. auto.
  - assert (Hstop : option_map (pair []) (rest prev (c :: s)) = Some (m, cs) ->
            forallb p m = true
            /\ exists s', c :: s = m ++ s'
                          /\ rest (Re.prev_after m prev) s' = Some cs).
    { destruct (rest prev (c :: s)) as [r|] eqn:R; simpl; [|discriminate].
      intros [= <- <-]. split; [reflexivity|]. exists (c :: s). auto. }
    destruct (p c) eqn:Pc; [|exact Hstop].
    destruct (Re.greedy p rest (Some c) s) as [[m' cs']|] eqn:G;
      [|exact Hstop].
    intros [= <- <-]. apply IH in G. destruct G as (Hm & s' & -> & R).
    split; [simpl; now rewrite Pc|]. exists s'. auto.
Qed.

(** The loop finds a match whenever some run of class characters is
    followed by a match of the rest. *)
Lemma greedy_complete (p : ascii -> bool) (rest : Re.matcher) :
  forall m s' prev,
    forallb p m = true ->
    rest (Re.prev_after m prev) s' <> None ->
    Re.greedy p rest prev (m ++ s') <> None.
Proof.
  induction m as [|c m IH]; intros s' prev Hm R.
  - change (rest prev s' <> None) in R. simpl.
    destruct (rest prev s') as [r|] eqn:E; [|congruence].
    destruct s' as [|c s']; simpl; [rewrite E; discriminate|].
    destruct (p c); [|rewrite E; discriminate].
    destruct (Re.greedy p rest (Some c) s') as [[? ?]|];
      [discriminate | rewrite E; discriminate].
  - simpl in Hm. apply andb_true_iff in Hm. destruct Hm as [Pc Hm].
    simpl. rewrite Pc. rewrite prev_after_cons in R.
    specialize (IH s' (Some c) Hm R).
    destruct (Re.greedy p rest (Some c) (m ++ s')) as [[? ?]|];
      [discriminate | congruence].
Qed.

(** When the rest of the pattern cannot start with a class character the
    loop takes the whole run: its result is the only decomposition. *)
Lemma greedy_stops (p : ascii -> bool) (rest : Re.matcher)
    (Hrest : forall prev c s, p c = true -> rest prev (c :: s) = None) :
  forall m s' prev cs,
    forallb p m = true ->
    rest (Re.prev_after m prev) s' = Some cs ->
    Re.greedy p rest prev (m ++ s') = Some (m, cs).
Proof.
  induction m as [|c m IH]; intros s' prev cs Hm R.
  - change (rest prev s' = Some cs) in R.
    destruct s' as [|c s']; simpl; [now rewrite R|].
    destruct (p c) eqn:Pc; [|now rewrite R].
    rewrite Hrest in R by assumption. discriminate.
  - simpl in Hm. apply andb_true_iff in Hm. destruct Hm as [Pc Hm].
    simpl. rewrite Pc. rewrite prev_after_cons in R.
    now rewrite (IH s' (Some c) cs Hm R).
Qed.

(** With nothing behind it the loop takes the longest run. *)
Lemma greedy_fin (p : ascii -> bool) :
  forall s prev,
    exists m s',
      Re.greedy p Re.fin prev s = Some (m, []) /\ s = m ++ s'
      /\ forallb p m = true /\ Re.head_in p s' = false.
Proof.
  induction s as [|c s IH]; intros prev.
  - exists [], []. auto.
  - simpl. destruct (p c) eqn:Pc.
    + destruct (IH (Some c)) as (m & s' & G & -> & Hm & Hs).
      exists (c :: m), s'. rewrite G. simpl. rewrite Pc. auto.
    + exists [], (c :: s). simpl. rewrite Pc. auto.
Qed.

Lemma star_sound (p : ascii -> bool) (rest : Re.matcher) prev s mm :
  Re.star p rest prev s = Some mm ->
  exists m cs s',
    mm = m :: cs /\ s = m ++ s' /\ forallb p m = true
    /\ rest (Re.prev_after m prev) s' = Some cs.
Proof.
  unfold Re.star.
  destruct (Re.greedy p rest prev s) as [[m cs]|] eqn:G; [|discriminate].
  intros [= <-]. apply greedy_sound in G. destruct G as (Hm & s' & -> & R).
  exists m, cs, s'. auto.
Qed.

Lemma star_stops (p : ascii -> bool) (rest : Re.matcher)
    (Hrest : forall prev c s, p c = true -> rest prev (c :: s) = None)
    prev m s' cs :
  forallb p m = true ->
  rest (Re.prev_after m prev) s' = Some cs ->
  Re.star p rest prev (m ++ s') = Some (m :: cs).
Proof.
  intros Hm R. unfold Re.star.
  now rewrite (greedy_stops p rest Hrest m s' prev cs Hm R).
Qed.

Lemma plus_sound (p : ascii -> bool) (rest : Re.matcher) prev s mm :
  Re.plus p rest prev s = Some mm ->
  exists m cs s',
    mm = m :: cs /\ s = m ++ s' /\ m <> [] /\ forallb p m = true
    /\ rest (Re.prev_after m prev) s' = Some cs.
Proof.
  unfold Re.plus. destruct s as [|c s]; [discriminate|].
  destruct (p c) eqn:Pc; [|discriminate].
  destruct (Re.greedy p rest (Some c) s) as [[m cs]|] eqn:G; [|discriminate].
  intros [= <-]. apply greedy_sound in G. destruct G as (Hm & s' & -> & R).
  exists (c :: m), cs, s'. simpl. rewrite Pc.
  repeat split; auto. discriminate.
Qed.

Lemma plus_complete (p : ascii -> bool) (rest : Re.matcher) prev m s' :
  m <> [] -> forallb p m = true ->
  rest (Re.prev_after m prev) s' <> None ->
  Re.plus p rest prev (m ++ s') <> None.
Proof.
  destruct m as [|c m]; [congruence|]. intros _ Hm R.
  simpl in Hm. apply andb_true_iff in Hm. destruct Hm as [Pc Hm].
  unfold Re.plus. simpl. rewrite Pc. rewrite prev_after_cons in R.
  pose proof (greedy_complete p rest m s' (Some c) Hm R) as G.
  destruct (Re.greedy p rest (Some c) (m ++ s')); [discriminate|congruence].
Qed.

Lemma star_complete (p : ascii -> bool) (rest : Re.matcher) prev m s' :
  forallb p m = true ->
  rest (Re.prev_after m prev) s' <> None ->
  Re.star p rest prev (m ++ s') <> None.
Proof.
  intros Hm R. unfold Re.star.
  pose proof (greedy_complete p rest m s' prev Hm R) as G.
  destruct (Re.greedy p rest prev (m ++ s')); [discriminate|congruence].
Qed.

Lemma lit_brace_fails (b : ascii) (k : text) (rest : Re.matcher) prev c s :
  c <> b -> Re.lit (b :: k) rest prev (c :: s) = None.
Proof.
  intros H. destruct (Re.lit (b :: k) rest prev (c :: s)) eqn:E;
    [|reflexivity].
  apply lit_spec in E. destruct E as (s' & m' & Hs & _).
  injection Hs as -> _. congruence.
Qed.

Lemma open_brace_after_space prev c s :
  Char.is_space c = true -> Re.lit $"{" Re.fin prev (c :: s) = None.
Proof.
  intros H. apply lit_brace_fails. intros ->. discriminate H.
Qed.

(** The part [\s*{] shared by the counting and the renaming patterns. *)
Lemma space_brace_spec prev s mm :
  Re.star Char.is_space (Re.lit $"{" Re.fin) prev s = Some mm <->
  exists ws r,
    s = ws ++ $"{" ++ r /\ forallb Char.is_space ws = true
    /\ mm = [ws; $"{"].
Proof.
  split.
  - intros H. apply star_sound in H.
    destruct H as (m & cs & s' & -> & -> & Hm & R).
    apply lit_spec in R. destruct R as (r & m' & -> & [= <-] & ->).
    exists m, r. auto.
  - intros (ws & r & -> & Hws & ->).
    apply star_stops; auto using open_brace_after_space.
Qed.

Lemma head_space_brace (ws r : text) :
  forallb Char.is_space ws = true ->
  Re.word_opt (hd_error (ws ++ $"{" ++ r)) = false.
Proof.
  destruct ws as [|c ws]; simpl; [reflexivity|].
  intros H. apply andb_true_iff in H. apply space_not_word. tauto.
Qed.

Lemma opener_spec (kw : text) prev s m :
  Pat.opener kw prev s = Some m <->
  xorb (Re.word_opt prev) (Re.word_opt (hd_error s)) = true
  /\ exists ws r,
       s = kw ++ ws ++ $"{" ++ r /\ forallb Char.is_space ws = true
       /\ m = [[]; kw; ws; $"{"].
Proof.
  unfold Pat.opener. rewrite wordb_spec. split.
  - intros (X & m' & L & ->). split; [exact X|].
    apply lit_spec in L. destruct L as (s' & m2 & -> & S & ->).
    apply space_brace_spec in S. destruct S as (ws & r & -> & Hws & ->).
    exists ws, r. auto.
  - intros (X & ws & r & -> & Hws & ->). split; [exact X|].
    exists [kw; ws; $"{"]. split; [|reflexivity].
    apply lit_spec. exists (ws ++ $"{" ++ r), [ws; $"{"].
    repeat split. apply space_brace_spec. eauto.
Qed.

(** A keyword ends inside a word when its last character is a word
    character; then the boundary behind it holds before whitespace or a
    brace. *)
Lemma keyword_before_brace_spec (kw : text) prev s m :
  Re.word_opt (Re.prev_after kw prev) = true ->
  Pat.keyword_before_brace kw prev s = Some m <->
  xorb (Re.word_opt prev) (Re.word_opt (hd_error s)) = true
  /\ (exists ws r,
        s = kw ++ ws ++ $"{" ++ r /\ forallb Char.is_space ws = true)
  /\ m = [[]; kw; []; []].
Proof.
  intros Hkw. unfold Pat.keyword_before_brace. rewrite wordb_spec. split.
  - intros (X & m' & L & ->). split; [exact X|].
    apply lit_spec in L. destruct L as (s' & m2 & -> & W & ->).
    apply wordb_spec in W. destruct W as (_ & m3 & K & ->).
    apply look_spec in K. destruct K as (A & m4 & [= <-] & ->).
    split; [|reflexivity].
    destruct (Re.star Char.is_space (Re.lit $"{" Re.fin)
                (Re.prev_after kw prev) s') as [mm|] eqn:S; [|congruence].
    apply space_brace_spec in S. destruct S as (ws & r & -> & Hws & _).
    eauto.
  - intros (X & (ws & r & -> & Hws) & ->). split; [exact X|].
    exists [kw; []; []]. split; [|reflexivity].
    apply lit_spec. exists (ws ++ $"{" ++ r), [[]; []]. repeat split.
    apply wordb_spec. rewrite Hkw, head_space_brace by assumption.
    split; [reflexivity|]. exists [[]]. split; [|reflexivity].
    apply look_spec. split; [|exists []; auto].
    assert (Re.star Char.is_space (Re.lit $"{" Re.fin)
              (Re.prev_after kw prev) (ws ++ $"{" ++ r) = Some [ws; $"{"]) as E
      by (apply space_brace_spec; eauto).
    rewrite E. discriminate.
Qed.

(** ** Scanning *)

Lemma scan_skip (pat : Re.matcher) (a s : text) prev :
  Re.scan pat (length a) prev (a ++ s) = Re.scan pat 0 (Re.prev_after a prev) s.
Proof.
  revert prev; induction a as [|c a IH]; intros prev; simpl.
  - reflexivity.
  - apply IH.
Qed.

(** The scan computes the leftmost non-overlapping matches. *)
Lemma scan_scanned (pat : Re.matcher) (Hpat : proper pat) :
  forall s prev, scanned pat prev s (Re.scan pat 0 prev s).
Proof.
  intros s. remember (length s) as n eqn:Hn.
  revert s Hn. induction n as [n IH] using lt_wf_ind. intros s Hn prev.
  destruct s as [|c s]; [constructor|].
  simpl. destruct (pat prev (c :: s)) as [m|] eqn:E.
  - destruct (Hpat _ _ _ E) as (Hne & r & Hr).
    destruct (Re.matched m) as [|c' a] eqn:Ea; [congruence|].
    simpl in Hr. injection Hr as <- ->. simpl.
    rewrite scan_skip.
    change (scanned pat prev ((c :: a) ++ r)
              (Re.Hit m :: Re.scan pat 0 (Re.prev_after (c :: a) prev) r)).
    rewrite <- Ea. apply scanned_hit.
    + rewrite Ea. exact E.
    + rewrite Ea. discriminate.
    + apply (IH (length r)); [|reflexivity].
      subst n. simpl. rewrite length_app. lia.
  - apply scanned_chr; [exact E|].
    apply (IH (length s)); [subst n; simpl; lia | reflexivity].
Qed.

Lemma finditer_scanned (pat : Re.matcher) (Hpat : proper pat) (s : text) :
  scanned pat None s (Re.finditer pat s).
Proof. apply scan_scanned, Hpat. Qed.

(** Putting the matches back between the passed-over characters gives
    the text. *)
Lemma scanned_text (pat : Re.matcher) prev s evs :
  scanned pat prev s evs -> flat_map (Re.emit Re.matched) evs = s.
Proof.
  induction 1; simpl; congruence.
Qed.

Lemma opener_proper (kw : text) : kw <> [] -> proper (Pat.opener kw).
Proof.
  intros Hkw prev s m H. apply opener_spec in H.
  destruct H as (_ & ws & r & -> & _ & ->). unfold Re.matched. simpl.
  split.
  - destruct kw; [congruence|discriminate].
  - exists r. now rewrite <- !app_assoc.
Qed.

Lemma keyword_before_brace_proper (kw : text) :
  kw <> [] ->
  (forall prev, Re.word_opt (Re.prev_after kw prev) = true) ->
  proper (Pat.keyword_before_brace kw).
Proof.
  intros Hkw Hw prev s m H. apply keyword_before_brace_spec in H; [|apply Hw].
  destruct H as (_ & (ws & r & -> & _) & ->). unfold Re.matched. simpl.
  rewrite app_nil_r. split; [exact Hkw|]. eauto.
Qed.

Lemma material_spec prev s m :
  Pat.material prev s = Some m <->
  exists ws r,
    s = $"material" ++ ws ++ r /\ ws <> []
    /\ forallb Char.is_space ws = true /\ Re.head_in Char.is_space r = false
    /\ m = [$"material"; ws].
Proof.
  unfold Pat.material. rewrite lit_spec. split.
  - intros (s' & m' & -> & P & ->). unfold Re.plus in P.
    destruct s' as [|c s']; [discriminate|].
    destruct (Char.is_space c) eqn:Pc; [|discriminate].
    destruct (greedy_fin Char.is_space s' (Some c)) as (w & r & G & -> & Hw & Hr).
    rewrite G in P. simpl in P. injection P as <-.
    exists (c :: w), r. simpl. rewrite Pc. repeat split; auto. discriminate.
  - intros (ws & r & -> & Hne & Hws & Hr & ->).
    exists (ws ++ r), [ws]. repeat split.
    destruct ws as [|c w]; [congruence|]. simpl in Hws.
    apply andb_true_iff in Hws. destruct Hws as [Pc Hw].
    unfold Re.plus. simpl. rewrite Pc.
    destruct (greedy_fin Char.is_space (w ++ r) (Some c))
      as (w' & r' & G & E & Hw' & Hr').
    rewrite G. simpl.
    enough (w' = w) as -> by reflexivity.
    clear G Pc c Hne. revert w' E Hw'.
    induction w as [|x w IH]; intros [|y w'] E Hw'; simpl in *.
    + reflexivity.
    + subst r. simpl in Hr. apply andb_true_iff in Hw'. destruct Hw'. congruence.
    + subst r'. simpl in Hr'. apply andb_true_iff in Hw. destruct Hw. congruence.
    + injection E as <- E. apply andb_true_iff in Hw. apply andb_true_iff in Hw'.
      f_equal. apply IH; tauto.
Qed.

Lemma material_matches_iff prev (s : text) :
  Pat.material prev s <> None <->
  exists ws b,
    s = $"material" ++ ws ++ b /\ ws <> []
    /\ forallb Char.is_space ws = true.
Proof.
  split.
  - intros H. destruct (Pat.material prev s) as [m|] eqn:E; [|congruence].
    apply material_spec in E.
    destruct E as (ws & r & -> & Hne & Hws & _). eauto.
  - intros (ws & b & -> & Hne & Hws). unfold Pat.material.
    set (rest := Re.plus Char.is_space Re.fin).
    assert (rest (Re.prev_after $"material" prev) (ws ++ b) <> None) as R.
    { apply plus_complete; auto. discriminate. }
    destruct (rest (Re.prev_after $"material" prev) (ws ++ b)) as [m'|] eqn:R';
      [|congruence].
    assert (Re.lit $"material" rest prev ($"material" ++ ws ++ b)
            = Some ($"material" :: m')) as E'.
    { apply lit_spec. exists (ws ++ b), m'. auto. }
    rewrite E'. discriminate.
Qed.

Lemma material_proper : proper Pat.material.
Proof.
  intros prev s m H. apply material_spec in H.
  destruct H as (ws & r & -> & _ & _ & _ & ->). unfold Re.matched. simpl.
  rewrite app_nil_r. split; [discriminate|].
  exists r. reflexivity.
Qed.

Lemma not_close_after_brace prev c s :
  Char.not_close c = true -> Re.lit $"}" Re.fin prev (c :: s) = None.
Proof.
  intros H. apply lit_brace_fails. intros ->. discriminate H.
Qed.

Lemma pass_block_spec prev s m :
  Pat.pass_block prev s = Some m <->
  exists ws body r,
    s = $"pass" ++ ws ++ $"{" ++ body ++ $"}" ++ r
    /\ forallb Char.is_space ws = true
    /\ forallb Char.not_close body = true
    /\ m = [$"pass"; ws; $"{"; body; $"}"].
Proof.
  unfold Pat.pass_block. rewrite lit_spec. split.
  - intros (s1 & m1 & -> & S & ->).
    apply star_sound in S. destruct S as (ws & cs & s2 & -> & -> & Hws & L).
    apply lit_spec in L. destruct L as (s3 & m3 & -> & B & ->).
    apply star_sound in B. destruct B as (body & cs4 & s4 & -> & -> & Hb & C).
    apply lit_spec in C. destruct C as (r & m5 & -> & [= <-] & ->).
    exists ws, body, r. auto.
  - intros (ws & body & r & -> & Hws & Hb & ->).
    exists (ws ++ $"{" ++ body ++ $"}" ++ r), [ws; $"{"; body; $"}"].
    repeat split.
    apply star_stops; auto.
    { intros p c s Hc. apply lit_brace_fails. intros ->. discriminate Hc. }
    apply lit_spec. exists (body ++ $"}" ++ r), [body; $"}"]. repeat split.
    apply star_stops; auto using not_close_after_brace.
Qed.

Lemma pass_block_proper : proper Pat.pass_block.
Proof.
  intros prev s m H. apply pass_block_spec in H.
  destruct H as (ws & body & r & -> & _ & _ & ->). unfold Re.matched. simpl.
  split; [discriminate|]. exists r.
  rewrite <- !app_assoc. simpl. now rewrite <- !app_assoc.
Qed.

(** ** Counting matches *)

Lemma match_positions_spec (pat : Re.matcher) :
  forall s prev i j,
    In j (match_positions pat prev s i) <->
    exists a b,
      s = a ++ b /\ b <> [] /\ j = i + length a
      /\ pat (Re.prev_after a prev) b <> None.
Proof.
  induction s as [|c s IH]; intros prev i j; simpl.
  - split; [tauto|]. intros (a & b & E & Hb & _).
    destruct a, b; simpl in E; congruence.
  - rewrite in_app_iff, IH. split.
    + intros [H | (a & b & -> & Hb & -> & P)].
      * destruct (pat prev (c :: s)) eqn:E; [|destruct H].
        destruct H as [<-|[]]. exists [], (c :: s).
        split; [reflexivity|]. split; [discriminate|]. split; [simpl; lia|].
        change (pat prev (c :: s) <> None). congruence.
      * exists (c :: a), b.
        split; [reflexivity|]. split; [exact Hb|]. split; [simpl; lia|].
        exact P.
    + intros ([|c' a] & b & E & Hb & -> & P); simpl in E.
      * subst b. left. change (pat prev (c :: s) <> None) in P.
        destruct (pat prev (c :: s)); [left; simpl; lia | congruence].
      * injection E as <- ->. right. exists a, b.
        split; [reflexivity|]. split; [exact Hb|]. split; [simpl; lia|].
        exact P.
Qed.

Lemma match_positions_lower (pat : Re.matcher) :
  forall s prev i j, In j (match_positions pat prev s i) -> i <= j.
Proof.
  intros s prev i j H. apply match_positions_spec in H.
  destruct H as (a & b & _ & _ & -> & _). lia.
Qed.

Lemma match_positions_nodup (pat : Re.matcher) :
  forall s prev i, NoDup (match_positions pat prev s i).
Proof.
  induction s as [|c s IH]; intros prev i; simpl; [constructor|].
  destruct (pat prev (c :: s)); simpl; [|apply IH].
  constructor; [|apply IH].
  intros H. apply match_positions_lower in H. lia.
Qed.

(** Behind a match none of its inner positions is a match position. *)
Lemma match_positions_inner (pat : Re.matcher) :
  forall b s prev i,
    (forall b1 c b2,
        b = b1 ++ c :: b2 ->
        pat (Re.prev_after b1 prev) (c :: b2 ++ s) = None) ->
    match_positions pat prev (b ++ s) i
    = match_positions pat (Re.prev_after b prev) s (i + length b).
Proof.
  induction b as [|c b IH]; intros s prev i H; simpl.
  - now rewrite Nat.add_0_r.
  - pose proof (H [] c b eq_refl) as H0.
    change (pat prev (c :: b ++ s) = None) in H0. rewrite H0. simpl.
    rewrite IH.
    + f_equal. lia.
    + intros b1 c' b2 E. subst b.
      exact (H (c :: b1) c' b2 eq_refl).
Qed.

(** When matches cannot overlap, the scan reports one match per match
    position. *)
Lemma scanned_hits_positions (pat : Re.matcher) (Hpat : no_inner_match pat) :
  forall prev s evs,
    scanned pat prev s evs ->
    forall i,
      length (Re.hits evs) = length (match_positions pat prev s i).
Proof.
  induction 1 as [prev | prev c s evs E _ IH | prev m s evs E Hne _ IH];
    intros i; simpl.
  - reflexivity.
  - rewrite E. simpl. apply IH.
  - destruct (Re.matched m) as [|c b] eqn:Em; [congruence|].
    simpl in E |- *. rewrite E. simpl. f_equal.
    rewrite match_positions_inner.
    + rewrite (IH (S i + length b)). reflexivity.
    + intros b1 c' b2 Eb. subst b.
      change (Some c) with (Re.prev_after [c] prev).
      rewrite <- prev_after_app.
      apply (Hpat prev ([c] ++ b1) c' b2 s m).
      * simpl. rewrite <- app_assoc in E. exact E.
      * exact Em.
      * discriminate.
Qed.

Lemma word_after_word_run (a : text) prev :
  a <> [] -> forallb Char.is_word a = true ->
  Re.word_opt (Re.prev_after a prev) = true.
Proof.
  revert prev; induction a as [|c a IH]; intros prev Ha Hw; [congruence|].
  simpl in Hw. apply andb_true_iff in Hw. destruct Hw as [Hc Hw].
  rewrite prev_after_cons. destruct a as [|c' a]; [exact Hc|].
  apply IH; [discriminate | exact Hw].
Qed.

Lemma ends_outside_word_spec (a : text) :
  ends_outside_word a <-> Re.word_opt (Re.prev_after a None) = false.
Proof.
  unfold ends_outside_word. split.
  - intros [-> | (a' & c & -> & Hc)]; [reflexivity|].
    rewrite prev_after_snoc. exact Hc.
  - intros H. destruct a as [|x a] using rev_ind; [now left|].
    right. exists a, x. rewrite prev_after_snoc in H. auto.
Qed.

Lemma not_word_in_space_brace (ws : text) (c : ascii) :
  forallb Char.is_space ws = true -> In c (ws ++ $"{") ->
  Char.is_word c = false.
Proof.
  intros Hws H. apply in_app_iff in H. destruct H as [H|[<-|[]]].
  - apply space_not_word. rewrite forallb_forall in Hws. auto.
  - reflexivity.
Qed.

(** Two openers of the same keyword never overlap. *)
Lemma opener_no_inner (kw : text) :
  kw <> [] -> forallb Char.is_word kw = true ->
  no_inner_match (Pat.opener kw).
Proof.
  intros Hne Hkw prev a c b s m H Hm Ha.
  destruct (Pat.opener kw (Re.prev_after a prev) (c :: b ++ s)) as [m2|] eqn:E;
    [exfalso | reflexivity].
  apply opener_spec in H. destruct H as (_ & ws & r & _ & Hws & ->).
  apply opener_spec in E. destruct E as (X & ws2 & r2 & E & _ & _).
  assert (Hc : Char.is_word c = true).
  { destruct kw as [|k kw]; [congruence|]. injection E as -> _.
    simpl in Hkw. apply andb_true_iff in Hkw. tauto. }
  simpl in X. rewrite Hc in X.
  unfold Re.matched in Hm. simpl in Hm.
  symmetry in Hm. apply app_eq_app in Hm.
  destruct Hm as (l & [[-> Hl] | [-> Hl]]).
  - assert (Char.is_word c = false); [|congruence].
    apply (not_word_in_space_brace ws c Hws).
    change (ws ++ $"{") with (ws ++ ["{"%char]). rewrite Hl.
    apply in_app_iff. right. now left.
  - rewrite forallb_app in Hkw. apply andb_true_iff in Hkw.
    rewrite (word_after_word_run a prev Ha) in X by tauto. discriminate.
Qed.

Lemma findall_count (kw t : text) :
  kw <> [] -> forallb Char.is_word kw = true ->
  length (Re.findall (Pat.opener kw) t)
  = length (match_positions (Pat.opener kw) None t 0).
Proof.
  intros Hne Hkw. unfold Re.findall. rewrite length_map.
  apply scanned_hits_positions.
  - apply opener_no_inner; assumption.
  - apply finditer_scanned, opener_proper, Hne.
Qed.

Lemma opener_positions (kw t : text) (i : nat) :
  kw <> [] -> forallb Char.is_word kw = true ->
  In i (match_positions (Pat.opener kw) None t 0) <-> opener_at kw t i.
Proof.
  intros Hne Hkw. rewrite match_positions_spec. unfold opener_at. split.
  - intros (a & b & -> & _ & -> & P).
    destruct (Pat.opener kw (Re.prev_after a None) b) as [m|] eqn:E;
      [|congruence].
    apply opener_spec in E. destruct E as (X & ws & r & -> & Hws & _).
    exists a, ws, r. repeat split; auto.
    apply ends_outside_word_spec.
    destruct kw as [|k kw]; [congruence|]. simpl in Hkw, X.
    apply andb_true_iff in Hkw. destruct Hkw as [Hk _]. rewrite Hk in X.
    now destruct (Re.word_opt (Re.prev_after a None)).
  - intros (a & ws & r & -> & <- & Hws & Ha).
    exists a, (kw ++ ws ++ $"{" ++ r). repeat split.
    + destruct kw; [congruence|discriminate].
    + apply ends_outside_word_spec in Ha.
      assert (Pat.opener kw (Re.prev_after a None) (kw ++ ws ++ $"{" ++ r)
              = Some [[]; kw; ws; $"{"]) as E; [|rewrite E; discriminate].
      apply opener_spec. split; [|eauto 6].
      rewrite Ha. destruct kw as [|k kw]; [congruence|]. simpl in Hkw |- *.
      apply andb_true_iff in Hkw. tauto.
Qed.

Lemma occurs_count (l : list nat) (P : nat -> Prop) (n : nat) :
  NoDup l -> (forall i, In i l <-> P i) ->
  occurs n P <-> length l = n.
Proof.
  intros Hl HP. split.
  - intros (l' & Hl' & <- & HP').
    apply Nat.le_antisymm; apply NoDup_incl_length; auto;
      intros i Hi; apply HP + apply HP'; apply HP' + apply HP; exact Hi.
  - intros <-. exists l. auto.
Qed.

Lemma opener_count (kw t : text) (n : nat) :
  kw <> [] -> forallb Char.is_word kw = true ->
  length (Re.findall (Pat.opener kw) t) = n <-> occurs n (opener_at kw t).
Proof.
  intros Hne Hkw. rewrite findall_count by assumption.
  symmetry. apply occurs_count.
  - apply match_positions_nodup.
  - intros i. apply opener_positions; assumption.
Qed.

Lemma contains_false_iff (x s : text) :
  Str.contains x s = false <-> ~ substring x s.
Proof.
  unfold substring. rewrite <- contains_spec.
  destruct (Str.contains x s); split; congruence.
Qed.

(** ** The classifier *)

(** C1. [is_eligible_material] accepts a block exactly when none of the
    three disqualifying keywords is a substring of it, the number of
    [pass] openers (the word at a word boundary, whitespace, an opening
    brace) is 1 or 2, and the number of [texture_unit] openers is 1. *)
Theorem is_eligible_material_iff (t : text) :
  is_eligible_material t = true <->
  (~ substring $"vertex_program_ref" t
   /\ ~ substring $"fragment_program_ref" t
   /\ ~ substring $"tex_coord_set" t)
  /\ (occurs 1 (opener_at $"pass" t) \/ occurs 2 (opener_at $"pass" t))
  /\ occurs 1 (opener_at $"texture_unit" t).
Proof.
  unfold is_eligible_material. cbn [existsb].
  rewrite <- !contains_false_iff.
  rewrite <- !(opener_count $"pass") by (discriminate || reflexivity).
  rewrite <- (opener_count $"texture_unit") by (discriminate || reflexivity).
  fold Pat.pass_open Pat.texture_unit_open.
  destruct (Str.contains $"vertex_program_ref" t);
    [split; [discriminate | intros [[? _] _]; discriminate]|].
  destruct (Str.contains $"fragment_program_ref" t);
    [split; [discriminate | intros [[_ [? _]] _]; discriminate]|].
  destruct (Str.contains $"tex_coord_set" t);
    [split; [discriminate | intros [[_ [_ ?]] _]; discriminate]|].
  cbn [orb]. rewrite orb_false_r, andb_true_iff, orb_true_iff.
  rewrite !Nat.eqb_eq. tauto.
Qed.

(** ** Searching and slicing *)

Lemma startswith_char (c : ascii) (s : text) :
  Str.startswith [c] s = true <-> exists r, s = c :: r.
Proof. rewrite startswith_spec. reflexivity. Qed.

Lemma find_from_char (c : ascii) :
  forall s i,
    (~ In c s /\ Str.find_from [c] s i = (-1)%Z)
    \/ exists a b,
         s = a ++ c :: b /\ ~ In c a
         /\ Str.find_from [c] s i = (i + Z.of_nat (length a))%Z.
Proof.
  induction s as [|x s IH]; intros i.
  - left. split; [intros []|reflexivity].
  - simpl. destruct (Str.startswith [c] (x :: s)) eqn:E.
    + apply startswith_char in E. destruct E as [r [= -> ->]].
      right. exists [], r. simpl. repeat split; [tauto | lia].
    + assert (x <> c) as Hx.
      { intros ->. assert (Str.startswith [c] (c :: s) = true); [|congruence].
        apply startswith_char. eauto. }
      destruct (IH (i + 1)%Z) as [[Hn F] | (a & b & -> & Ha & F)].
      * left. split; [simpl; tauto | exact F].
      * right. exists (x :: a), b. simpl. repeat split.
        -- intros [H|H]; [congruence|tauto].
        -- rewrite F. lia.
Qed.

Lemma find_char (c : ascii) (s : text) :
  (~ In c s /\ Str.find [c] s = (-1)%Z)
  \/ exists a b,
       s = a ++ c :: b /\ ~ In c a /\ Str.find [c] s = Z.of_nat (length a).
Proof.
  unfold Str.find. destruct (find_from_char c s 0) as [H | (a & b & H)];
    [left; exact H | right; exists a, b; exact H].
Qed.

Lemma rfind_from_char (c : ascii) :
  forall s i,
    (0 <= i)%Z ->
    (~ In c s /\ Str.rfind_from [c] s i = (-1)%Z)
    \/ exists a b,
         s = a ++ c :: b /\ ~ In c b
         /\ Str.rfind_from [c] s i = (i + Z.of_nat (length a))%Z.
Proof.
  induction s as [|x s IH]; intros i Hi.
  - left. split; [intros []|reflexivity].
  - cbn [Str.rfind_from].
    destruct (IH (i + 1)%Z ltac:(lia)) as [[Hn F] | (a & b & -> & Hb & F)].
    + rewrite F. cbn [Z.leb Z.compare].
      destruct (Str.startswith [c] (x :: s)) eqn:E.
      * apply startswith_char in E. destruct E as [r [= -> ->]].
        right. exists [], r. simpl. repeat split; [exact Hn | lia].
      * left. split; [|reflexivity]. intros [->|H]; [|tauto].
        assert (Str.startswith [c] (c :: s) = true); [|congruence].
        apply startswith_char. eauto.
    + rewrite F.
      destruct (0 <=? i + 1 + Z.of_nat (length a))%Z eqn:L;
        [|apply Z.leb_gt in L; lia].
      right. exists (x :: a), b. simpl length.
      repeat split; [exact Hb | lia].
Qed.

Lemma rfind_char (c : ascii) (s : text) :
  (~ In c s /\ Str.rfind [c] s = (-1)%Z)
  \/ exists a b,
       s = a ++ c :: b /\ ~ In c b /\ Str.rfind [c] s = Z.of_nat (length a).
Proof.
  unfold Str.rfind.
  destruct (rfind_from_char c s 0 ltac:(lia)) as [H | (a & b & H)];
    [left; exact H | right; exists a, b; exact H].
Qed.

(** A slice with bounds inside the text, in order. *)
Lemma slice_middle (x y z : text) :
  Str.slice (x ++ y ++ z) (Z.of_nat (length x))
            (Z.of_nat (length x + length y)) = y.
Proof.
  unfold Str.slice, Str.clamp. rewrite !length_app.
  replace (Z.of_nat (length x) <? 0)%Z with false by (symmetry; apply Z.ltb_ge; lia).
  replace (Z.of_nat (length x + length y) <? 0)%Z with false
    by (symmetry; apply Z.ltb_ge; lia).
  rewrite !Z.max_r, !Z.min_r by lia.
  rewrite Nat2Z.id.
  replace (Z.to_nat (Z.of_nat (length x + length y) - Z.of_nat (length x)))
    with (length y) by lia.
  rewrite skipn_app, skipn_all, Nat.sub_diag. simpl.
  rewrite firstn_app, firstn_all, Nat.sub_diag. simpl. apply app_nil_r.
Qed.

Lemma firstn_exact (a b : text) : firstn (length a) (a ++ b) = a.
Proof.
  rewrite firstn_app, firstn_all, Nat.sub_diag. simpl. apply app_nil_r.
Qed.

Lemma lstrip_split (s : text) :
  exists w, s = w ++ Str.lstrip s /\ forallb Char.is_space w = true.
Proof.
  induction s as [|c s (w & E & Hw)]; simpl.
  - exists []. auto.
  - destruct (Char.is_space c) eqn:Hc.
    + exists (c :: w). simpl. rewrite Hc. split; [congruence | exact Hw].
    + exists []. auto.
Qed.

Lemma rstrip_split (s : text) :
  exists w, s = Str.rstrip s ++ w /\ forallb Char.is_space w = true.
Proof.
  unfold Str.rstrip. destruct (lstrip_split (rev s)) as (w & E & Hw).
  exists (rev w). split.
  - rewrite <- rev_app_distr, <- E. symmetry. apply rev_involutive.
  - rewrite forallb_forall in *. intros x Hx. apply Hw, in_rev, Hx.
Qed.

Lemma strip_split (s : text) :
  exists w1 w2,
    s = w1 ++ Str.strip s ++ w2
    /\ forallb Char.is_space w1 = true /\ forallb Char.is_space w2 = true.
Proof.
  unfold Str.strip. destruct (lstrip_split s) as (w1 & E1 & H1).
  destruct (rstrip_split (Str.lstrip s)) as (w2 & E2 & H2).
  exists w1, w2. split; [|auto]. rewrite <- E2. exact E1.
Qed.

Lemma lstrip_head (s : text) :
  Re.head_in Char.is_space s = false -> Str.lstrip s = s.
Proof.
  destruct s as [|c s]; simpl; [reflexivity|]. now intros ->.
Qed.

(** ** The name pattern *)

Lemma name_sound prev s m :
  Pat.name prev s = Some m ->
  exists ws g1 g2 r,
    s = $"material" ++ ws ++ g1 ++ g2 ++ r
    /\ ws <> [] /\ forallb Char.is_space ws = true
    /\ g1 <> [] /\ forallb Char.not_nl_brace g1 = true
    /\ forallb Char.is_space g2 = true
    /\ m = [$"material"; ws; g1; g2].
Proof.
  unfold Pat.name. intros H.
  apply lit_spec in H. destruct H as (s1 & m1 & -> & P & ->).
  apply plus_sound in P.
  destruct P as (ws & cs & s2 & -> & -> & Hne & Hws & P).
  apply plus_sound in P.
  destruct P as (g1 & cs2 & s3 & -> & -> & Hne1 & Hg1 & S).
  apply star_sound in S.
  destruct S as (g2 & cs3 & r & -> & -> & Hg2 & [= <-]).
  exists ws, g1, g2, r. repeat split; auto.
Qed.

Lemma name_complete prev (ws : text) (c : ascii) (r : text) :
  ws <> [] -> forallb Char.is_space ws = true ->
  Char.not_nl_brace c = true ->
  Pat.name prev ($"material" ++ ws ++ c :: r) <> None.
Proof.
  intros Hne Hws Hc. unfold Pat.name.
  destruct (Re.lit $"material" _ prev _) as [m|] eqn:E; [discriminate|].
  exfalso. revert E.
  set (rest := Re.plus Char.is_space _).
  assert (rest (Re.prev_after $"material" prev) (ws ++ c :: r) <> None) as R.
  { apply plus_complete; auto.
    apply (plus_complete _ _ _ [c] r); [discriminate | simpl; now rewrite Hc|].
    apply (star_complete _ _ _ [] r); [reflexivity | discriminate]. }
  destruct (rest (Re.prev_after $"material" prev) (ws ++ c :: r)) as [m'|] eqn:R';
    [|congruence].
  intros E.
  assert (Re.lit $"material" rest prev ($"material" ++ ws ++ c :: r)
          = Some ($"material" :: m')) as E'.
  { apply lit_spec. exists (ws ++ c :: r), m'. auto. }
  congruence.
Qed.

Lemma not_nl_brace_spec (c : ascii) :
  Char.not_nl_brace c = true <-> c <> Char.newline /\ c <> "{"%char.
Proof.
  unfold Char.not_nl_brace. rewrite negb_true_iff, orb_false_iff.
  now rewrite !char_eqb_neq.
Qed.

(** The name pattern matches at the start of a text exactly when a name
    character is present behind the keyword and its whitespace. *)
Lemma name_match_iff (t : text) :
  Re.re_match Pat.name t <> None <-> name_present t.
Proof.
  unfold Re.re_match, name_present. split.
  - intros H. destruct (Pat.name None t) as [m|] eqn:E; [|congruence].
    apply name_sound in E.
    destruct E as (ws & g1 & g2 & r & -> & Hne & Hws & Hne1 & Hg1 & _ & _).
    destruct g1 as [|c g1]; [congruence|].
    simpl in Hg1. apply andb_true_iff in Hg1. destruct Hg1 as [Hc _].
    apply not_nl_brace_spec in Hc.
    exists ws, c, (g1 ++ g2 ++ r). simpl. tauto.
  - intros (ws & c & r & -> & Hne & Hws & Hc).
    apply name_complete; auto. apply not_nl_brace_spec. exact Hc.
Qed.

Lemma transform_material_ok_iff (t : text) :
  (exists out, transform_material t = Ok out)
  <-> Re.re_match Pat.name t <> None.
Proof.
  unfold transform_material.
  destruct (Re.re_match Pat.name t); split;
    (eauto || discriminate || congruence || idtac).
  intros [out H]. discriminate.
Qed.

Lemma eligible_counts (t : text) :
  is_eligible_material t = true ->
  (length (Re.findall Pat.pass_open t) = 1
   \/ length (Re.findall Pat.pass_open t) = 2)
  /\ length (Re.findall Pat.texture_unit_open t) = 1.
Proof.
  unfold is_eligible_material.
  destruct (existsb _ _); [discriminate|].
  cbn [existsb]. rewrite orb_false_r, andb_true_iff, orb_true_iff.
  rewrite !Nat.eqb_eq. tauto.
Qed.

Lemma eligible_has_pass_opener (t : text) :
  is_eligible_material t = true -> exists i, opener_at $"pass" t i.
Proof.
  intros H. apply eligible_counts in H. destruct H as [H _].
  assert (exists n, occurs (S n) (opener_at $"pass" t)) as [n Hn].
  { destruct H as [H|H]; [exists 0 | exists 1];
      apply opener_count; (discriminate || reflexivity || exact H). }
  destruct Hn as (l & _ & Hl & HP).
  destruct l as [|i l]; [discriminate|].
  exists i. apply HP. now left.
Qed.

Lemma eligible_has_brace (t : text) :
  is_eligible_material t = true -> In "{"%char t.
Proof.
  intros H. apply eligible_has_pass_opener in H.
  destruct H as (i & a & ws & b & -> & _).
  rewrite !in_app_iff. right. right. right. left. now left.
Qed.

(** ** The splitter *)

Lemma pieces_nonempty (evs : list Re.event) :
  exists p ps, Re.pieces evs = p :: ps.
Proof.
  induction evs as [|[c|m] evs (p & ps & E)]; simpl; eauto.
  rewrite E. eauto.
Qed.

(** The first piece starts as the text does. *)
Lemma first_piece_head (pat : Re.matcher) (p : ascii -> bool) prev s evs :
  scanned pat prev s evs ->
  Re.head_in p (hd [] (Re.pieces evs)) = true -> Re.head_in p s = true.
Proof.
  destruct 1 as [prev | prev c s evs E H | prev m s evs E Hne H]; simpl.
  - discriminate.
  - destruct (pieces_nonempty evs) as (q & qs & ->). simpl. auto.
  - discriminate.
Qed.

(** Every piece behind a match of [material\s+] starts with a character
    that is not whitespace, or is empty. *)
Lemma material_pieces prev s evs :
  scanned Pat.material prev s evs ->
  Forall (fun piece => Re.head_in Char.is_space piece = false)
         (tl (Re.pieces evs)).
Proof.
  induction 1 as [prev | prev c s evs E H IH | prev m s evs E Hne H IH];
    simpl.
  - constructor.
  - destruct (pieces_nonempty evs) as (q & qs & Eq). rewrite Eq in *.
    exact IH.
  - destruct (pieces_nonempty evs) as (q & qs & Eq). rewrite Eq in *.
    constructor; [|exact IH].
    apply material_spec in E.
    destruct E as (ws & r & E & _ & _ & Hr & ->).
    replace (Re.matched [$"material"; ws]) with ($"material" ++ ws) in E
      by (unfold Re.matched; simpl; now rewrite app_nil_r).
    rewrite <- app_assoc in E. apply app_inv_head in E.
    apply app_inv_head in E. subst r.
    destruct (Re.head_in Char.is_space q) eqn:Hq; [|reflexivity].
    rewrite <- Hr. symmetry.
    apply (first_piece_head Pat.material Char.is_space _ s evs H).
    rewrite Eq. exact Hq.
Qed.

Lemma parse_material_file_shape (content b : text) :
  In b (parse_material_file content) ->
  exists mat,
    b = $"material " ++ mat /\ Re.head_in Char.is_space mat = false.
Proof.
  unfold parse_material_file, Re.split. intros H.
  apply in_map_iff in H. destruct H as (mat & <- & H).
  exists mat. split; [reflexivity|].
  pose proof (material_pieces None content _
                (finditer_scanned Pat.material material_proper content)) as F.
  rewrite Forall_forall in F. apply F, H.
Qed.

(** On a block as the splitter returns it, group 1 of the name pattern
    starts directly behind ["material "]. *)
Lemma name_match_on_block (mat : text) (m : Re.chunks) :
  Re.head_in Char.is_space mat = false ->
  Re.re_match Pat.name ($"material " ++ mat) = Some m ->
  exists g1 g2 r w,
    m = [$"material"; $" "; g1; g2] /\ mat = g1 ++ g2 ++ r
    /\ g1 = Str.strip g1 ++ w /\ Str.strip g1 <> []
    /\ forallb Char.is_space w = true
    /\ forallb Char.not_nl_brace g1 = true
    /\ forallb Char.is_space g2 = true.
Proof.
  unfold Re.re_match. intros Hmat H. apply name_sound in H.
  destruct H as (ws & g1 & g2 & r & E & Hne & Hws & Hne1 & Hg1 & Hg2 & ->).
  change ($"material " ++ mat) with ($"material" ++ $" " ++ mat) in E.
  apply app_inv_head in E.
  destruct ws as [|c ws]; [congruence|]. injection E as <- E.
  destruct ws as [|c' ws].
  - simpl in E. subst mat.
    assert (Re.head_in Char.is_space g1 = false) as Hh.
    { destruct g1; [congruence | exact Hmat]. }
    destruct (rstrip_split g1) as (w & Ew & Hw).
    assert (Str.strip g1 = Str.rstrip g1) as Es
      by (unfold Str.strip; now rewrite lstrip_head).
    exists g1, g2, r, w. rewrite Es. repeat split; auto.
    intros Hs. rewrite Hs in Ew. simpl in Ew. subst w.
    destruct g1 as [|x g1]; [congruence|]. simpl in Hh, Hw.
    rewrite Hh in Hw. discriminate.
  - exfalso. subst mat. cbn [forallb] in Hws. simpl in Hmat.
    rewrite !andb_true_iff in Hws. destruct Hws as (_ & Hc' & _). congruence.
Qed.

(** C10. Every block returned by [parse_material_file] is ["material "]
    (the keyword and a single space) followed by text that does not start
    with whitespace, whatever whitespace followed the keyword in the file;
    and when the name pattern matches such a block, the block is
    ["material "], the extracted name, and the rest, so the index
    [len("material " + name)] of the pre-brace slice is the position right
    behind the name. *)
Theorem parse_material_file_prefix (content b : text) :
  In b (parse_material_file content) ->
  exists mat,
    b = $"material " ++ mat
    /\ Re.head_in Char.is_space mat = false
    /\ forall m,
         Re.re_match Pat.name b = Some m ->
         let material_name := Str.strip (Re.group 2 m) in
         exists rest,
           b = $"material " ++ material_name ++ rest
           /\ firstn (length ($"material " ++ material_name)) b
              = $"material " ++ material_name.
Proof.
  intros H. apply parse_material_file_shape in H.
  destruct H as (mat & -> & Hmat). exists mat. repeat split; auto.
  intros m Hm. apply name_match_on_block in Hm; [|exact Hmat].
  destruct Hm as (g1 & g2 & r & w & -> & -> & Ew & _).
  cbn [Re.group nth]. cbv zeta.
  exists (w ++ g2 ++ r).
  remember (Str.strip g1) as n eqn:En. rewrite Ew. split.
  - now rewrite <- !app_assoc.
  - rewrite <- !app_assoc. rewrite (app_assoc $"material " n).
    apply firstn_exact.
Qed.

Lemma parse_material_file_prefix_witness :
  exists mat,
    $"material Wall {}" = $"material " ++ mat
    /\ Re.head_in Char.is_space mat = false
    /\ forall m,
         Re.re_match Pat.name $"material Wall {}" = Some m ->
         let material_name := Str.strip (Re.group 2 m) in
         exists rest,
           $"material Wall {}" = $"material " ++ material_name ++ rest
           /\ firstn (length ($"material " ++ material_name))
                     $"material Wall {}"
              = $"material " ++ material_name.
Proof.
  apply (parse_material_file_prefix
           ($"material" ++ [Char.newline; " "%char] ++ $"Wall {}")).
  vm_compute. left. reflexivity.
Defined.

(** ** The transformer raises or returns *)

(** C9, as stated, fails.  The first block is accepted by the classifier,
    but its opening brace follows the keyword's single space directly:
    the name pattern does not match and [name_match.group] raises.  The
    second block is accepted too and has no closing brace: [rfind]
    returns -1, which the slice reads as the index before the end, and
    nothing is raised. *)
Lemma transform_material_raises_on_eligible :
  is_eligible_material $"material {pass{texture_unit{}}}" = true
  /\ transform_material $"material {pass{texture_unit{}}}"
     = Raise AttributeError
  /\ is_eligible_material $"material a { pass { texture_unit {" = true
  /\ Str.rfind $"}" $"material a { pass { texture_unit {" = (-1)%Z
  /\ transform_material $"material a { pass { texture_unit {"
     = Ok $"material a: RoR/Managed_Mats/Base { pass { texture_unit }".
Proof. repeat split; vm_compute; reflexivity. Qed.

(** C9 (amended). For every block accepted by the classifier the search
    for the first opening brace finds one, and [transform_material]
    returns normally exactly when the name pattern matches: the block
    starts with the keyword, at least one whitespace character and then a
    character that is neither a newline nor an opening brace.  Otherwise
    it raises [AttributeError]. *)
Theorem transform_material_returns_iff (t : text) :
  is_eligible_material t = true ->
  (0 <= Str.find $"{" t)%Z
  /\ ((exists out, transform_material t = Ok out) <-> name_present t)
  /\ (~ name_present t -> transform_material t = Raise AttributeError).
Proof.
  intros H. split; [|split].
  - apply eligible_has_brace in H.
    destruct (find_char "{"%char t) as [[Hn _] | (a & b & _ & _ & F)];
      [tauto|].
    change ($"{") with ["{"%char]. rewrite F. lia.
  - rewrite transform_material_ok_iff. apply name_match_iff.
  - intros Hn. rewrite <- name_match_iff in Hn.
    unfold transform_material.
    destruct (Re.re_match Pat.name t); [exfalso; apply Hn; discriminate|].
    reflexivity.
Qed.

Lemma transform_material_returns_iff_witness :
  (0 <= Str.find $"{" $"material a { pass { texture_unit { } } }")%Z
  /\ ((exists out,
          transform_material $"material a { pass { texture_unit { } } }"
          = Ok out)
      <-> name_present $"material a { pass { texture_unit { } } }")
  /\ (~ name_present $"material a { pass { texture_unit { } } }" ->
      transform_material $"material a { pass { texture_unit { } } }"
      = Raise AttributeError).
Proof.
  apply (transform_material_returns_iff
           $"material a { pass { texture_unit { } } }").
  vm_compute. reflexivity.
Defined.

(** ** Files *)

Lemma lookup_store (k v : text) (l : list (text * text)) :
  lookup k (store k v l) = Some v.
Proof.
  induction l as [|[k' v'] l IH]; simpl.
  - now rewrite str_eqb_refl.
  - destruct (Str.eqb k k') eqn:E; simpl; rewrite ?str_eqb_refl, ?E; auto.
Qed.

Lemma count_eligible_zero (materials : list text) :
  count_eligible materials = 0 <->
  existsb is_eligible_material materials = false.
Proof.
  unfold count_eligible. induction materials as [|m l IH]; simpl.
  - tauto.
  - destruct (is_eligible_material m); simpl; [split; discriminate | exact IH].
Qed.

(** The loop of [process_file] when no transformation raises. *)
Lemma process_materials_ok (materials updated : list text) :
  Forall2 rewritten materials updated ->
  forall acc cnt w,
    process_materials materials acc cnt w
    = (Ok (acc ++ updated, cnt + count_eligible materials),
       counted w (length materials) (count_eligible materials)).
Proof.
  induction 1 as [|m u l l' Hm _ IH]; intros acc cnt w.
  - simpl. unfold ret, counted, count_eligible. simpl.
    rewrite app_nil_r, !Nat.add_0_r. destruct w; reflexivity.
  - cbn [process_materials]. unfold bind at 1, incr_processed_materials at 1.
    unfold rewritten in Hm. unfold count_eligible. cbn [filter].
    destruct (is_eligible_material m).
    + unfold bind at 1, lift at 1. rewrite Hm.
      unfold bind at 1, incr_updated_materials at 1.
      rewrite IH. unfold counted, count_eligible. cbn.
      rewrite <- app_assoc, <- !Nat.add_assoc. reflexivity.
    + subst u. rewrite IH. unfold counted, count_eligible. cbn.
      rewrite <- app_assoc, <- !Nat.add_assoc. reflexivity.
Qed.

Lemma rewrite_all_rewritten (materials : list text) :
  forall updated,
    rewrite_all materials = Ok updated -> Forall2 rewritten materials updated.
Proof.
  induction materials as [|m l IH]; intros updated; simpl.
  - intros [= <-]. constructor.
  - destruct (is_eligible_material m) eqn:E.
    + destruct (transform_material m) as [t|] eqn:T; [|discriminate].
      destruct (rewrite_all l) as [l'|]; [|discriminate].
      intros [= <-]. constructor; [|auto].
      unfold rewritten. now rewrite E.
    + destruct (rewrite_all l) as [l'|]; [|discriminate].
      intros [= <-]. constructor; [|auto].
      unfold rewritten. now rewrite E.
Qed.

Lemma forall2_length (materials updated : list text) :
  Forall2 rewritten materials updated -> length updated = length materials.
Proof. intros H. symmetry. eapply Forall2_length, H. Qed.

(** What [process_file] does to the world when no transformation
    raises. *)
Lemma process_file_effect (file_name content : text)
    (bk : list (text * text)) (w : world) (updated : list text) :
  lookup file_name (entries (fs w)) = Some content ->
  backup (fs w) = Some bk ->
  Forall2 rewritten (parse_material_file content) updated ->
  let materials := parse_material_file content in
  let n := count_eligible materials in
  process_file file_name w
  = (Ok tt,
     if 0 <? n then
       {| fs := {| input_exists := input_exists (fs w);
                   entries := store file_name (output_content updated)
                                    (entries (fs w));
                   backup := Some (store file_name content bk) |};
          ops := (ops w ++ [Copy file_name])
                   ++ [Write file_name (output_content updated)];
          stdout := (stdout w ++ [MsgProcessing file_name])
                      ++ [MsgUpdated n file_name];
          processed_files := processed_files w + 1;
          processed_materials := processed_materials w + length materials;
          updated_materials := updated_materials w + n |}
     else
       {| fs := fs w; ops := ops w;
          stdout := (stdout w ++ [MsgProcessing file_name])
                      ++ [MsgNoEligible];
          processed_files := processed_files w;
          processed_materials := processed_materials w + length materials;
          updated_materials := updated_materials w + n |}).
Proof.
  intros Hl Hb Hu materials n. unfold process_file.
  unfold bind at 1, print at 1.
  unfold bind at 1, read_file at 1.
  unfold bind at 1, get_fs at 1. cbn [fs]. rewrite Hl. unfold ret at 1.
  unfold bind at 1. fold materials.
  rewrite (process_materials_ok materials updated Hu). cbn [fst snd app].
  fold n. change (0 + n) with n.
  destruct (0 <? n).
  - unfold bind at 1, copy2 at 1. unfold bind at 1, get_fs at 1.
    unfold counted at 1 2. cbn [fs]. rewrite Hl, Hb.
    unfold set_fs at 1.
    unfold bind at 1, write_file at 1. unfold bind at 1, get_fs at 1.
    cbn [fs]. unfold set_fs at 1.
    unfold bind at 1, print at 1. unfold incr_processed_files.
    unfold counted. cbn. reflexivity.
  - unfold print, counted. cbn. reflexivity.
Qed.

Lemma substring_app_l (x s a : text) : substring x s -> substring x (a ++ s).
Proof.
  intros (u & v & ->). exists (a ++ u), v. now rewrite <- app_assoc.
Qed.

Lemma substring_app_r (x s b : text) : substring x s -> substring x (s ++ b).
Proof.
  intros (u & v & ->). exists u, (v ++ b). now rewrite <- !app_assoc.
Qed.

Lemma substring_refl (x : text) : substring x x.
Proof. exists [], []. simpl. now rewrite app_nil_r. Qed.

Lemma join_substring (sep u : text) (l : list text) :
  In u l -> substring u (Str.join sep l).
Proof.
  induction l as [|p l IH]; [intros []|].
  intros [<- | H].
  - destruct l; simpl; [apply substring_refl|].
    apply substring_app_r, substring_refl.
  - destruct l as [|q l]; [destruct H|].
    change (Str.join sep (p :: q :: l)) with (p ++ sep ++ Str.join sep (q :: l)).
    apply substring_app_l, substring_app_l, IH, H.
Qed.

Lemma output_content_substring (u : text) (l : list text) :
  In u l -> substring u (output_content l).
Proof.
  intros H. unfold output_content.
  apply substring_app_l, substring_app_l, join_substring, H.
Qed.

Lemma forall2_nth_error {A B} (R : A -> B -> Prop) (l : list A) (l' : list B) :
  Forall2 R l l' ->
  forall i a, nth_error l i = Some a ->
              exists b, nth_error l' i = Some b /\ R a b.
Proof.
  induction 1 as [|x y l l' Hxy _ IH]; intros [|i] a; simpl; try discriminate.
  - intros [= <-]. eauto.
  - apply IH.
Qed.

(** The first piece is a prefix of the text. *)
Lemma first_piece_prefix (pat : Re.matcher) prev s evs :
  scanned pat prev s evs -> exists r, s = hd [] (Re.pieces evs) ++ r.
Proof.
  induction 1 as [prev | prev c s evs E H (r & IH) | prev m s evs E Hne H _];
    simpl.
  - exists []. reflexivity.
  - destruct (pieces_nonempty evs) as (q & qs & Eq). rewrite Eq in *.
    simpl in *. exists r. congruence.
  - eauto.
Qed.

(** Every piece behind a match of [material\s+] stands in the text
    behind the keyword and a run of whitespace. *)
Lemma material_pieces_in_text prev s evs :
  scanned Pat.material prev s evs ->
  Forall (fun piece =>
            exists ws, ws <> [] /\ forallb Char.is_space ws = true
                       /\ substring ($"material" ++ ws ++ piece) s)
         (tl (Re.pieces evs)).
Proof.
  induction 1 as [prev | prev c s evs E H IH | prev m s evs E Hne H IH];
    simpl.
  - constructor.
  - destruct (pieces_nonempty evs) as (q & qs & Eq). rewrite Eq in *.
    simpl in *. eapply Forall_impl; [|exact IH].
    intros p (ws & ? & ? & S). exists ws. repeat split; auto.
    now apply (substring_app_l _ _ [c]).
  - pose proof (first_piece_prefix _ _ _ _ H) as (r & Hr).
    destruct (pieces_nonempty evs) as (q & qs & Eq). rewrite Eq in *.
    simpl in *.
    apply material_spec in E. destruct E as (ws & r' & _ & Hw1 & Hw2 & _ & ->).
    replace (Re.matched [$"material"; ws]) with ($"material" ++ ws)
      by (unfold Re.matched; simpl; now rewrite app_nil_r).
    constructor.
    + exists ws. repeat split; auto. exists [], r. rewrite Hr. simpl.
      now rewrite <- !app_assoc.
    + eapply Forall_impl; [|exact IH].
      intros p (ws' & ? & ? & S). exists ws'. repeat split; auto.
      now apply substring_app_l.
Qed.

Lemma parse_material_file_source (content b : text) :
  In b (parse_material_file content) ->
  exists ws mat,
    b = $"material " ++ mat /\ ws <> []
    /\ forallb Char.is_space ws = true
    /\ substring ($"material" ++ ws ++ mat) content.
Proof.
  unfold parse_material_file, Re.split. intros H.
  apply in_map_iff in H. destruct H as (mat & <- & H).
  pose proof (material_pieces_in_text None content _
                (finditer_scanned Pat.material material_proper content)) as F.
  rewrite Forall_forall in F. destruct (F mat H) as (ws & ? & ? & ?).
  exists ws, mat. auto.
Qed.


(** ** The blocks of a file *)

Lemma keyword_at_matches prev (s : text) :
  Pat.material prev s <> None <-> keyword_at s.
Proof. apply material_matches_iff. Qed.

Lemma file_blocks_cons (c : ascii) (s lead : text) (l : list (text * text)) :
  file_blocks s lead l ->
  ~ keyword_at (c :: s) ->
  file_blocks (c :: s) (c :: lead) l.
Proof.
  intros H K. inversion H as [x N | x ws rest t l' N Hne Hws Hr Hb]; subst.
  - apply file_blocks_last. intros [|y a] b E Hb.
    + simpl in E. subst b. now rewrite app_nil_r.
    + injection E as <- E. now apply (N a b).
  - change (c :: lead ++ $"material" ++ ws ++ rest)
      with ((c :: lead) ++ $"material" ++ ws ++ rest).
    apply file_blocks_next; auto.
    intros [|y a] b E Hb'.
    + simpl in E. subst b. exact K.
    + injection E as <- E. now apply (N a b).
Qed.

(** The pieces of [re.split] are the blocks of the file. *)
Lemma material_pieces_blocks prev s evs :
  scanned Pat.material prev s evs ->
  exists l : list (text * text),
    file_blocks s (hd [] (Re.pieces evs)) l
    /\ tl (Re.pieces evs) = map snd l.
Proof.
  induction 1 as [prev | prev c s evs E _ IH | prev m s evs E Hne _ IH].
  - exists []. split; [|reflexivity]. apply file_blocks_last.
    intros a b Eab Hb. destruct a, b; simpl in Eab; congruence.
  - destruct IH as (l & Hb & Et).
    destruct (pieces_nonempty evs) as (q & qs & Eq).
    simpl. rewrite Eq in *. simpl in *. exists l. split; [|exact Et].
    apply file_blocks_cons; [exact Hb|].
    intros K. apply (keyword_at_matches prev) in K. congruence.
  - destruct IH as (l & Hb & Et).
    destruct (pieces_nonempty evs) as (q & qs & Eq).
    apply material_spec in E.
    destruct E as (ws & r & E & Hw1 & Hw2 & Hr & ->).
    replace (Re.matched [$"material"; ws]) with ($"material" ++ ws) in *
      by (unfold Re.matched; simpl; now rewrite app_nil_r).
    rewrite <- app_assoc in E. apply app_inv_head, app_inv_head in E.
    subst r.
    simpl Re.pieces. rewrite Eq in *. simpl hd in *. simpl tl in *.
    exists ((ws, q) :: l). split.
    + rewrite <- app_assoc.
      apply (file_blocks_next [] ws s q l); auto.
      intros a b Eab Hb'. destruct a, b; simpl in Eab; congruence.
    + simpl. now rewrite Et.
Qed.

Lemma parse_material_file_blocks (content : text) :
  exists (lead : text) (l : list (text * text)),
    file_blocks content lead l
    /\ parse_material_file content = map (fun p => $"material " ++ snd p) l.
Proof.
  destruct (material_pieces_blocks None content _
              (finditer_scanned Pat.material material_proper content))
    as (l & Hb & Et).
  exists (hd [] (Re.split Pat.material content)), l. split; [exact Hb|].
  unfold parse_material_file. unfold Re.split at 1. rewrite Et.
  now rewrite map_map.
Qed.

Lemma space_run_unique (ws ws' r r' : text) :
  forallb Char.is_space ws = true -> forallb Char.is_space ws' = true ->
  Re.head_in Char.is_space r = false -> Re.head_in Char.is_space r' = false ->
  ws ++ r = ws' ++ r' -> ws = ws' /\ r = r'.
Proof.
  revert ws'. induction ws as [|x ws IH]; intros [|y ws'] Hws Hws' Hr Hr' E;
    simpl in *.
  - auto.
  - subst r. simpl in Hr. apply andb_true_iff in Hws'. destruct Hws'.
    congruence.
  - subst r'. simpl in Hr'. apply andb_true_iff in Hws. destruct Hws.
    congruence.
  - injection E as <- E. apply andb_true_iff in Hws, Hws'.
    destruct (IH ws') as [-> ->]; tauto.
Qed.

(** A file has one cut only. *)
Lemma file_blocks_unique (content lead : text) (l : list (text * text)) :
  file_blocks content lead l ->
  forall lead' l', file_blocks content lead' l' -> lead' = lead /\ l' = l.
Proof.
  induction 1 as [lead N | lead ws rest t l N Hne Hws Hr Hb IH];
    intros lead' l' H'.
  - inversion H' as [x N' | x ws' rest' t' l'' N' Hne' Hws' Hr' Hb' E];
      subst; [auto|].
    exfalso. apply (N lead' ($"material" ++ ws' ++ rest') eq_refl).
    + discriminate.
    + rewrite app_nil_r. exists ws', rest'. auto.
  - inversion H' as [x N' E | x ws' rest' t' l'' N' Hne' Hws' Hr' Hb' E];
      subst.
    + exfalso. apply (N' lead ($"material" ++ ws ++ rest) eq_refl).
      * discriminate.
      * rewrite app_nil_r. exists ws, rest. auto.
    + apply app_eq_app in E. destruct E as (x & [[E1 E2] | [E1 E2]]).
      * destruct x as [|c x].
        -- rewrite app_nil_r in E1. subst lead'.
           change ($"material" ++ ws ++ rest = $"material" ++ ws' ++ rest')
             in E2.
           apply app_inv_head in E2.
           destruct (space_run_unique ws ws' rest rest') as [-> ->]; auto.
           destruct (IH t' l'' Hb') as [-> ->]. auto.
        -- exfalso. apply (N' lead (c :: x) E1); [discriminate|].
           change ($"material" ++ ws ++ rest
                   = (c :: x) ++ $"material" ++ ws' ++ rest') in E2.
           rewrite <- E2. exists ws, rest. auto.
      * destruct x as [|c x].
        -- rewrite app_nil_r in E1. subst lead'.
           change ($"material" ++ ws' ++ rest' = $"material" ++ ws ++ rest)
             in E2.
           apply app_inv_head in E2.
           destruct (space_run_unique ws' ws rest' rest) as [-> ->]; auto.
           destruct (IH t' l'' Hb') as [-> ->]. auto.
        -- exfalso. apply (N lead' (c :: x) E1); [discriminate|].
           change ($"material" ++ ws' ++ rest'
                   = (c :: x) ++ $"material" ++ ws ++ rest) in E2.
           rewrite <- E2. exists ws', rest'. auto.
Qed.

(** ** The writer *)

(** C3, as stated, fails: the first block of this file is not eligible,
    and the file is rewritten because of the second; the first block
    stands in the file with two spaces behind the keyword, and in the
    output with one. *)
Lemma ineligible_block_whitespace_normalised :
  map is_eligible_material (parse_material_file Ex.two_blocks) = [false; true]
  /\ Str.startswith $"material  Plain { }" Ex.two_blocks = true
  /\ exists out,
       lookup $"a.material"
         (entries (fs (snd (process_file $"a.material"
                              (start (Ex.folder $"a.material"
                                                Ex.two_blocks))))))
       = Some out
       /\ Str.contains $"material  Plain { }" out = false
       /\ Str.contains $"material Plain { }" out = true.
Proof.
  split; [vm_compute; reflexivity|]. split; [vm_compute; reflexivity|].
  eexists. split; [vm_compute; reflexivity|].
  split; vm_compute; reflexivity.
Qed.

(** C3 (amended). When [process_file] rewrites a file and no
    transformation raises, it writes as many blocks as it parsed.  Cut
    the text of the file, as read, at its keywords: each block runs from
    behind the whitespace of its keyword up to the next keyword or the
    end of the file.  For every block of the file that is not eligible,
    the block at the same place in the output is ["material "], one
    space for all the whitespace that followed the keyword, and the whole
    text of the block, unchanged. *)
Theorem ineligible_blocks_pass_through (file_name content : text)
    (bk : list (text * text)) (w : world) (updated : list text) :
  lookup file_name (entries (fs w)) = Some content ->
  backup (fs w) = Some bk ->
  rewrite_all (parse_material_file content) = Ok updated ->
  existsb is_eligible_material (parse_material_file content) = true ->
  lookup file_name (entries (fs (snd (process_file file_name w))))
  = Some (output_content updated)
  /\ length updated = length (parse_material_file content)
  /\ exists lead l,
       file_blocks content lead l
       /\ length updated = length l
       /\ forall i ws t,
            nth_error l i = Some (ws, t) ->
            nth_error (parse_material_file content) i
            = Some ($"material " ++ t)
            /\ (is_eligible_material ($"material " ++ t) = false ->
                nth_error updated i = Some ($"material " ++ t)
                /\ substring ($"material " ++ t) (output_content updated)).
Proof.
  intros Hl Hb Hu He. apply rewrite_all_rewritten in Hu.
  rewrite (process_file_effect file_name content bk w updated Hl Hb Hu).
  assert ((0 <? count_eligible (parse_material_file content)) = true) as Hn.
  { apply Nat.ltb_lt.
    destruct (count_eligible (parse_material_file content)) eqn:E; [|lia].
    apply count_eligible_zero in E. congruence. }
  rewrite Hn. cbn [snd fs entries]. split; [apply lookup_store|].
  split; [apply forall2_length, Hu|].
  destruct (parse_material_file_blocks content) as (lead & l & Hf & Ep).
  exists lead, l. split; [exact Hf|]. split.
  { rewrite (forall2_length _ _ Hu), Ep. apply length_map. }
  intros i ws t Hi.
  assert (nth_error (parse_material_file content) i
          = Some ($"material " ++ t)) as Hi'.
  { rewrite Ep.
    apply (map_nth_error (fun p => $"material " ++ snd p) i l Hi). }
  split; [exact Hi'|]. intros Hb'.
  destruct (forall2_nth_error _ _ _ Hu i _ Hi') as (u & Hu' & R).
  unfold rewritten in R. rewrite Hb' in R. subst u.
  split; [exact Hu'|].
  apply output_content_substring. eapply nth_error_In, Hu'.
Qed.

Lemma ineligible_blocks_pass_through_witness :
  lookup $"a.material"
    (entries (fs (snd (process_file $"a.material"
                         (start (Ex.folder $"a.material" Ex.two_blocks))))))
  = Some (output_content Ex.two_blocks_updated)
  /\ length Ex.two_blocks_updated
     = length (parse_material_file Ex.two_blocks)
  /\ exists lead l,
       file_blocks Ex.two_blocks lead l
       /\ length Ex.two_blocks_updated = length l
       /\ forall i ws t,
            nth_error l i = Some (ws, t) ->
            nth_error (parse_material_file Ex.two_blocks) i
            = Some ($"material " ++ t)
            /\ (is_eligible_material ($"material " ++ t) = false ->
                nth_error Ex.two_blocks_updated i = Some ($"material " ++ t)
                /\ substring ($"material " ++ t)
                             (output_content Ex.two_blocks_updated)).
Proof.
  apply (ineligible_blocks_pass_through $"a.material" Ex.two_blocks []
           (start (Ex.folder $"a.material" Ex.two_blocks))
           Ex.two_blocks_updated).
  - vm_compute. reflexivity.
  - reflexivity.
  - vm_compute. reflexivity.
  - vm_compute. reflexivity.
Defined.

(** C4, as stated, fails: the only block of this file is eligible, but
    its transformation raises, so nothing is copied or written. *)
Lemma process_file_raises_before_backup :
  existsb is_eligible_material (parse_material_file Ex.nameless) = true
  /\ process_file $"a.material" (start (Ex.folder $"a.material" Ex.nameless))
     = (Raise AttributeError,
        {| fs := Ex.folder $"a.material" Ex.nameless;
           ops := [];
           stdout := [MsgProcessing $"a.material"];
           processed_files := 0;
           processed_materials := 1;
           updated_materials := 0 |}).
Proof. split; vm_compute; reflexivity. Qed.

(** C4 (amended). Take a file all of whose eligible blocks are
    transformed without an exception.  If it has an eligible block,
    [process_file] first copies the file as it is into the backup folder
    under the same name and then overwrites it with the import line, a
    blank line and all blocks, transformed or kept, in their order,
    joined by blank lines.  If it has none, nothing is copied or
    written. *)
Theorem process_file_backup_then_write (file_name content : text)
    (bk : list (text * text)) (w : world) (updated : list text) :
  lookup file_name (entries (fs w)) = Some content ->
  backup (fs w) = Some bk ->
  rewrite_all (parse_material_file content) = Ok updated ->
  fst (process_file file_name w) = Ok tt
  /\ (existsb is_eligible_material (parse_material_file content) = true ->
      ops (snd (process_file file_name w))
      = ops w ++ [Copy file_name; Write file_name (output_content updated)]
      /\ backup (fs (snd (process_file file_name w)))
         = Some (store file_name content bk)
      /\ lookup file_name (store file_name content bk) = Some content
      /\ lookup file_name (entries (fs (snd (process_file file_name w))))
         = Some (output_content updated)
      /\ output_content updated
         = import_line ++ [Char.newline; Char.newline]
             ++ Str.join [Char.newline; Char.newline] updated)
  /\ (existsb is_eligible_material (parse_material_file content) = false ->
      fs (snd (process_file file_name w)) = fs w
      /\ ops (snd (process_file file_name w)) = ops w).
Proof.
  intros Hl Hb Hu. apply rewrite_all_rewritten in Hu.
  rewrite (process_file_effect file_name content bk w updated Hl Hb Hu).
  split; [reflexivity|]. split; intros He.
  - assert ((0 <? count_eligible (parse_material_file content)) = true) as Hn.
    { apply Nat.ltb_lt.
      destruct (count_eligible (parse_material_file content)) eqn:E; [|lia].
      apply count_eligible_zero in E. congruence. }
    rewrite Hn. cbn [snd fs ops entries backup].
    rewrite <- app_assoc. repeat split; auto using lookup_store.
  - apply count_eligible_zero in He. rewrite He. cbn. auto.
Qed.

Lemma process_file_backup_then_write_witness :
  fst (process_file $"a.material" (start (Ex.folder $"a.material" Ex.wall)))
  = Ok tt
  /\ (existsb is_eligible_material (parse_material_file Ex.wall) = true ->
      ops (snd (process_file $"a.material"
                  (start (Ex.folder $"a.material" Ex.wall))))
      = ops (start (Ex.folder $"a.material" Ex.wall))
          ++ [Copy $"a.material";
              Write $"a.material"
                (output_content
                   Ex.wall_updated)]
      /\ backup (fs (snd (process_file $"a.material"
                            (start (Ex.folder $"a.material" Ex.wall)))))
         = Some (store $"a.material" Ex.wall [])
      /\ lookup $"a.material" (store $"a.material" Ex.wall []) = Some Ex.wall
      /\ lookup $"a.material"
           (entries (fs (snd (process_file $"a.material"
                                (start (Ex.folder $"a.material" Ex.wall))))))
         = Some (output_content
                   Ex.wall_updated)
      /\ output_content
           Ex.wall_updated
         = import_line ++ [Char.newline; Char.newline]
             ++ Str.join [Char.newline; Char.newline]
                  Ex.wall_updated)
  /\ (existsb is_eligible_material (parse_material_file Ex.wall) = false ->
      fs (snd (process_file $"a.material"
                 (start (Ex.folder $"a.material" Ex.wall))))
      = fs (start (Ex.folder $"a.material" Ex.wall))
      /\ ops (snd (process_file $"a.material"
                     (start (Ex.folder $"a.material" Ex.wall))))
         = ops (start (Ex.folder $"a.material" Ex.wall))).
Proof.
  apply (process_file_backup_then_write $"a.material" Ex.wall []
           (start (Ex.folder $"a.material" Ex.wall)) Ex.wall_updated).
  - vm_compute. reflexivity.
  - reflexivity.
  - vm_compute. reflexivity.
Defined.

(** ** The run *)

(** C5, as stated, fails twice.  In an existing folder without material
    files the constructor creates the backup folder before [run] looks
    for files; and for a folder that does not exist the constructor
    raises, so nothing is reported. *)
Lemma main_on_empty_or_missing_folder :
  main (start {| input_exists := true; entries := []; backup := None |})
  = (Ok tt,
     {| fs := {| input_exists := true; entries := []; backup := Some [] |};
        ops := [Mkdir];
        stdout := [MsgScanning; MsgBackupFolder; MsgNoFiles];
        processed_files := 0;
        processed_materials := 0;
        updated_materials := 0 |})
  /\ main (start {| input_exists := false; entries := []; backup := None |})
     = (Raise FileNotFoundError,
        start {| input_exists := false; entries := []; backup := None |}).
Proof. split; vm_compute; reflexivity. Qed.

(** C5 (amended). Take a folder without files matching [*.material].
    If the folder does not exist, constructing the updater raises
    [FileNotFoundError] before anything is printed or written.  If it
    exists and has no backup folder but a regular file named
    [old_materials], the constructor raises [FileExistsError], again
    before anything is printed or written.  Otherwise the script prints
    its two header lines and ["No .material files found!"] and returns; no
    file is created or changed, and the only file-system operation is
    that the backup folder is created when it was absent. *)
Theorem main_without_material_files (f : filesystem) :
  filter (Str.endswith $".material") (map fst (entries f)) = [] ->
  main (start f)
  = if input_exists f then
      match backup f, lookup backup_name (entries f) with
      | None, Some _ => (Raise FileExistsError, start f)
      | _, _ =>
          (Ok tt,
           {| fs := {| input_exists := true;
                       entries := entries f;
                       backup := Some match backup f with
                                      | Some b => b
                                      | None => []
                                      end |};
              ops := match backup f with
                     | Some _ => []
                     | None => [Mkdir]
                     end;
              stdout := [MsgScanning; MsgBackupFolder; MsgNoFiles];
              processed_files := 0;
              processed_materials := 0;
              updated_materials := 0 |})
      end
    else (Raise FileNotFoundError, start f).
Proof.
  intros Hg. destruct f as [ex en bk]. cbn [entries] in Hg.
  unfold main, init, run, mkdir_backup, glob_material, bind, get_fs, start,
    print, set_fs, ret, raise.
  cbn [fs input_exists backup entries]. destruct ex; [|reflexivity].
  destruct bk as [b|]; cbn [fs input_exists backup entries ops stdout].
  - rewrite Hg. destruct (lookup backup_name en); reflexivity.
  - destruct (lookup backup_name en); [reflexivity|].
    cbn [fs input_exists backup entries ops stdout].
    rewrite Hg. reflexivity.
Qed.

Lemma main_without_material_files_witness :
  main (start {| input_exists := true;
                 entries := [($"notes.txt", $"hello")];
                 backup := None |})
  = (Ok tt,
     {| fs := {| input_exists := true;
                 entries := [($"notes.txt", $"hello")];
                 backup := Some [] |};
        ops := [Mkdir];
        stdout := [MsgScanning; MsgBackupFolder; MsgNoFiles];
        processed_files := 0;
        processed_materials := 0;
        updated_materials := 0 |}).
Proof.
  apply (main_without_material_files
           {| input_exists := true;
              entries := [($"notes.txt", $"hello")];
              backup := None |}).
  vm_compute. reflexivity.
Defined.

(** ** The pass renaming *)

Lemma replace_first_prefix (old new r : text) :
  Str.replace_first old new (old ++ r) = new ++ r.
Proof.
  destruct (old ++ r) as [|c s] eqn:E; simpl; rewrite <- E;
    now rewrite strip_prefix_app.
Qed.

Lemma matched_pass_block (ws body : text) :
  Re.matched [$"pass"; ws; $"{"; body; $"}"]
  = $"pass" ++ ws ++ $"{" ++ body ++ $"}".
Proof. unfold Re.matched. simpl. reflexivity. Qed.

Lemma pass_block_none prev s :
  Pat.pass_block prev s = None -> ~ pass_span_at s.
Proof.
  intros E (ws & body & r & -> & Hws & Hb).
  assert (Pat.pass_block prev
            ($"pass" ++ ws ++ $"{" ++ body ++ $"}" ++ r)
          = Some [$"pass"; ws; $"{"; body; $"}"]) as E'
    by (apply pass_block_spec; eauto 8).
  congruence.
Qed.

Lemma replace_pass_spec (ws body : text) :
  replace_pass [$"pass"; ws; $"{"; body; $"}"]
  = if Str.contains $"texture_unit" ($"pass" ++ ws ++ $"{" ++ body ++ $"}")
    then $"pass BaseRender" ++ ws ++ $"{" ++ body ++ $"}"
    else $"pass" ++ ws ++ $"{" ++ body ++ $"}".
Proof.
  unfold replace_pass. rewrite matched_pass_block.
  destruct (Str.contains _ _); [|reflexivity].
  apply replace_first_prefix.
Qed.

Lemma scanned_pass_rewrite prev s evs :
  scanned Pat.pass_block prev s evs ->
  pass_rewrite s (flat_map (Re.emit replace_pass) evs).
Proof.
  induction 1 as [prev | prev c s evs E _ IH | prev m s evs E Hne _ IH];
    simpl.
  - constructor.
  - constructor; [eapply pass_block_none, E | exact IH].
  - apply pass_block_spec in E.
    destruct E as (ws & body & r & _ & Hws & Hb & ->).
    rewrite matched_pass_block, replace_pass_spec.
    destruct (Str.contains $"texture_unit"
                ($"pass" ++ ws ++ $"{" ++ body ++ $"}")) eqn:C.
    + rewrite <- !app_assoc.
      apply pass_rewrite_renamed; auto. apply contains_spec, C.
    + rewrite <- !app_assoc.
      apply pass_rewrite_kept; auto. apply contains_false_iff, C.
Qed.

(** C7. The pass substitution of [transform_material] goes through its
    text from the left; among the spans [pass], whitespace, opening brace,
    up to the first closing brace, exactly those that contain
    [texture_unit] get their leading [pass], which is the first
    occurrence of [pass] in the span, renamed to [pass BaseRender]; the
    spans without [texture_unit] and all text outside the spans are
    kept. *)
Theorem rename_pass_spec (inner_content : text) :
  pass_rewrite inner_content (rename_pass inner_content).
Proof.
  unfold rename_pass, Re.sub.
  apply (scanned_pass_rewrite None).
  apply finditer_scanned, pass_block_proper.
Qed.

(** ** The keyword renamings *)

Lemma keyword_opener_here (kw : text) (k0 : ascii) (kw' : text) prev s :
  kw = k0 :: kw' -> Char.is_word k0 = true ->
  (forall p, Re.word_opt (Re.prev_after kw p) = true) ->
  Pat.keyword_before_brace kw prev s <> None <-> opener_here kw prev s.
Proof.
  intros Ek Hk0 Hlast. unfold opener_here. split.
  - intros H. destruct (Pat.keyword_before_brace kw prev s) as [m|] eqn:E;
      [|congruence].
    apply keyword_before_brace_spec in E; [|apply Hlast].
    destruct E as (X & (ws & r & -> & Hws) & _).
    split; [|eauto]. subst kw. simpl in X. rewrite Hk0 in X.
    now destruct (Re.word_opt prev).
  - intros (Hp & ws & r & -> & Hws).
    assert (Pat.keyword_before_brace kw prev (kw ++ ws ++ $"{" ++ r)
            = Some [[]; kw; []; []]) as E; [|rewrite E; discriminate].
    apply keyword_before_brace_spec; [apply Hlast|].
    split; [|split; eauto]. subst kw. simpl. now rewrite Hp, Hk0.
Qed.

Lemma scanned_keyword_rewrite (kw : text) (k0 : ascii) (kw' suffix : text) :
  kw = k0 :: kw' -> Char.is_word k0 = true ->
  (forall p, Re.word_opt (Re.prev_after kw p) = true) ->
  forall prev s evs,
    scanned (Pat.keyword_before_brace kw) prev s evs ->
    keyword_rewrite kw suffix prev s
      (flat_map (Re.emit (fun _ => kw ++ suffix)) evs).
Proof.
  intros Ek Hk0 Hlast.
  induction 1 as [prev | prev c s evs E _ IH | prev m s evs E Hne _ IH];
    simpl.
  - constructor.
  - constructor; [|exact IH].
    intros H. apply (keyword_opener_here kw k0 kw' prev _ Ek Hk0 Hlast) in H.
    congruence.
  - assert (opener_here kw prev (Re.matched m ++ s)) as Ho.
    { apply (keyword_opener_here kw k0 kw' prev _ Ek Hk0 Hlast).
      rewrite E. discriminate. }
    apply keyword_before_brace_spec in E; [|apply Hlast].
    destruct E as (_ & _ & ->).
    replace (Re.matched [[]; kw; []; []]) with kw in *
      by (unfold Re.matched; simpl; now rewrite app_nil_r).
    rewrite <- app_assoc. now constructor.
Qed.

Lemma rename_technique_rewrite (inner_content : text) :
  keyword_rewrite $"technique" $" BaseTechnique" None inner_content
                  (rename_technique inner_content).
Proof.
  unfold rename_technique, Re.sub.
  apply (scanned_keyword_rewrite $"technique" "t"%char $"echnique");
    try reflexivity.
  apply finditer_scanned.
  apply keyword_before_brace_proper; [discriminate | reflexivity].
Qed.

Lemma rename_texture_unit_rewrite (inner_content : text) :
  keyword_rewrite $"texture_unit" $" Diffuse_Map" None inner_content
                  (rename_texture_unit inner_content).
Proof.
  unfold rename_texture_unit, Re.sub.
  apply (scanned_keyword_rewrite $"texture_unit" "t"%char $"exture_unit");
    try reflexivity.
  apply finditer_scanned.
  apply keyword_before_brace_proper; [discriminate | reflexivity].
Qed.

Lemma inserted_same (kw suffix r : text) :
  forall s t, inserted kw suffix s t -> inserted kw suffix (r ++ s) (r ++ t).
Proof.
  induction r as [|c r IH]; intros s t H; simpl; [exact H|].
  constructor. now apply IH.
Qed.

Lemma keyword_rewrite_inserted (kw suffix : text) prev s t :
  keyword_rewrite kw suffix prev s t -> inserted kw suffix s t.
Proof. induction 1; now constructor. Qed.

Lemma pass_rewrite_inserted (s t : text) :
  pass_rewrite s t -> inserted $"pass" $" BaseRender" s t.
Proof.
  induction 1 as [| c s t _ _ IH | ws body s t _ _ _ _ IH
                  | ws body s t _ _ _ _ IH].
  - constructor.
  - now constructor.
  - apply (inserted_here $"pass" $" BaseRender"
             (ws ++ $"{" ++ body ++ $"}" ++ s)
             (ws ++ $"{" ++ body ++ $"}" ++ t)).
    rewrite !(app_assoc ws), !(app_assoc (ws ++ _)),
      !(app_assoc ((ws ++ _) ++ _)).
    now apply inserted_same.
  - rewrite !(app_assoc $"pass"), !(app_assoc ($"pass" ++ _)),
      !(app_assoc (($"pass" ++ _) ++ _)),
      !(app_assoc ((($"pass" ++ _) ++ _) ++ _)).
    now apply inserted_same.
Qed.

(** ** The shape of the transformed block *)

Lemma first_occurrence_unique (c : ascii) :
  forall a a' b b' : text,
    a ++ c :: b = a' ++ c :: b' -> ~ In c a -> ~ In c a' -> a = a'.
Proof.
  induction a as [|x a IH]; intros [|y a'] b b' E Ha Ha'; simpl in *.
  - reflexivity.
  - injection E as -> _. tauto.
  - injection E as -> _. tauto.
  - injection E as -> E. f_equal. apply (IH a' b b' E); tauto.
Qed.

Lemma find_char_at (c : ascii) (a b : text) :
  ~ In c a -> Str.find [c] (a ++ c :: b) = Z.of_nat (length a).
Proof.
  intros Ha.
  destruct (find_char c (a ++ c :: b)) as [[Hn _] | (a' & b' & E & Ha' & F)].
  - exfalso. apply Hn, in_app_iff. right. now left.
  - rewrite F. now rewrite (first_occurrence_unique c a a' b b' E Ha Ha').
Qed.

Lemma rfind_char_at (c : ascii) (a b : text) :
  ~ In c b -> Str.rfind [c] (a ++ c :: b) = Z.of_nat (length a).
Proof.
  intros Hb.
  destruct (rfind_char c (a ++ c :: b)) as [[Hn _] | (a' & b' & E & Hb' & F)].
  - exfalso. apply Hn, in_app_iff. right. now left.
  - rewrite F. f_equal. f_equal.
    apply (f_equal (@rev ascii)) in E.
    rewrite !rev_app_distr in E. simpl in E. rewrite <- !app_assoc in E.
    simpl in E.
    assert (rev b = rev b') as Eb.
    { apply (first_occurrence_unique c _ _ _ _ E);
        rewrite <- in_rev; assumption. }
    rewrite Eb in E. apply app_inv_head in E. injection E as E.
    apply (f_equal (@rev ascii)) in E. now rewrite !rev_involutive in E.
Qed.

Lemma in_firstn (n : nat) (l : text) (x : ascii) :
  In x (firstn n l) -> In x l.
Proof.
  intros H. rewrite <- (firstn_skipn n l). apply in_app_iff. now left.
Qed.

Lemma in_skipn (n : nat) (l : text) (x : ascii) :
  In x (skipn n l) -> In x l.
Proof.
  intros H. rewrite <- (firstn_skipn n l). apply in_app_iff. now right.
Qed.

Lemma clamp_range (len i : Z) :
  (0 <= len)%Z -> (0 <= Str.clamp len i <= len)%Z.
Proof. unfold Str.clamp. destruct (i <? 0)%Z; lia. Qed.

Lemma clamp_inside (len i : Z) :
  (0 <= i <= len)%Z -> Str.clamp len i = i.
Proof.
  intros H. unfold Str.clamp.
  replace (i <? 0)%Z with false by (symmetry; apply Z.ltb_ge; lia). lia.
Qed.

(** A slice is the part of a prefix behind a shorter prefix. *)
Lemma slice_skipn_firstn (s : text) (a b : Z) :
  Str.slice s a b
  = skipn (Z.to_nat (Str.clamp (Z.of_nat (length s)) a))
          (firstn (Z.to_nat (Str.clamp (Z.of_nat (length s)) b)) s).
Proof.
  unfold Str.slice. cbv zeta. rewrite skipn_firstn_comm. f_equal.
  pose proof (clamp_range (Z.of_nat (length s)) a ltac:(lia)).
  pose proof (clamp_range (Z.of_nat (length s)) b ltac:(lia)).
  lia.
Qed.

Lemma slice_subset (s : text) (a b : Z) (x : ascii) :
  In x (Str.slice s a b) -> In x s.
Proof.
  rewrite slice_skipn_firstn. intros H.
  eapply in_firstn, in_skipn, H.
Qed.

(** The text sliced off in front of the first occurrence of a character
    does not contain it. *)
Lemma slice_before_find (c : ascii) (s : text) (a : Z) :
  ~ In c (Str.slice s a (Str.find [c] s)).
Proof.
  destruct (find_char c s) as [[Hn F] | (x & y & -> & Hx & F)].
  - intros H. apply Hn. eapply slice_subset, H.
  - rewrite slice_skipn_firstn, F.
    rewrite (clamp_inside _ (Z.of_nat (length x)))
      by (rewrite length_app; lia).
    rewrite Nat2Z.id, firstn_exact. intros H. apply Hx.
    eapply in_skipn, H.
Qed.

Lemma strip_subset (s : text) (x : ascii) : In x (Str.strip s) -> In x s.
Proof.
  destruct (strip_split s) as (w1 & w2 & E & _). intros H.
  rewrite E, !in_app_iff. auto.
Qed.

Lemma not_nl_brace_no_brace (g : text) :
  forallb Char.not_nl_brace g = true -> ~ In "{"%char g.
Proof.
  rewrite forallb_forall. intros H Hin. apply H in Hin.
  apply not_nl_brace_spec in Hin. tauto.
Qed.

(** What [transform_material] returns, and that its first brace is the
    one it writes behind the header. *)
Lemma transform_material_shape (t out : text) :
  transform_material t = Ok out ->
  exists m head,
    Re.re_match Pat.name t = Some m
    /\ head = $"material " ++ Str.strip (Re.group 2 m) ++ namespace_suffix
                ++ Str.slice t
                     (Z.of_nat (length ($"material "
                                          ++ Str.strip (Re.group 2 m))))
                     (Str.find $"{" t)
    /\ ~ In "{"%char head
    /\ out = head ++ $"{"
               ++ rename_texture_unit
                    (rename_pass
                       (rename_technique
                          (Str.slice t (Str.find $"{" t + 1)
                                     (Str.rfind $"}" t))))
               ++ $"}".
Proof.
  unfold transform_material.
  destruct (Re.re_match Pat.name t) as [m|] eqn:E; [|discriminate].
  intros [= <-]. eexists m, _. split; [reflexivity|]. split; [reflexivity|].
  split; [|now rewrite <- !app_assoc].
  unfold Re.re_match in E. apply name_sound in E.
  destruct E as (ws & g1 & g2 & r & _ & _ & _ & _ & Hg1 & _ & ->).
  cbn [Re.group nth]. rewrite !in_app_iff.
  intros [H | [H | [H | H]]].
  - vm_compute in H. intuition discriminate.
  - apply strip_subset in H. now apply not_nl_brace_no_brace in H.
  - vm_compute in H. intuition discriminate.
  - now apply (slice_before_find "{"%char) in H.
Qed.

Lemma inner_of_output (head inner : text) :
  ~ In "{"%char head ->
  Str.slice (head ++ $"{" ++ inner ++ $"}")
            (Str.find $"{" (head ++ $"{" ++ inner ++ $"}") + 1)
            (Str.rfind $"}" (head ++ $"{" ++ inner ++ $"}"))
  = inner.
Proof.
  intros Hh.
  change (head ++ $"{" ++ inner ++ $"}")
    with (head ++ "{"%char :: inner ++ ["}"%char]).
  change ($"{") with ["{"%char]. change ($"}") with ["}"%char].
  rewrite (find_char_at "{"%char head _ Hh).
  replace (head ++ "{"%char :: inner ++ ["}"%char])
    with ((head ++ "{"%char :: inner) ++ "}"%char :: [])
    by (rewrite <- app_assoc; reflexivity).
  rewrite (rfind_char_at "}"%char _ [] (fun H => H)).
  replace ((head ++ "{"%char :: inner) ++ ["}"%char])
    with ((head ++ ["{"%char]) ++ inner ++ ["}"%char])
    by (rewrite <- !app_assoc; reflexivity).
  replace (Z.of_nat (length head) + 1)%Z
    with (Z.of_nat (length (head ++ ["{"%char])))
    by (rewrite length_app; simpl; lia).
  replace (length (head ++ "{"%char :: inner))
    with (length (head ++ ["{"%char]) + length inner)
    by (rewrite !length_app; simpl; lia).
  apply slice_middle.
Qed.

(** ** Nothing but the renames changes *)

(** C6. Whenever [transform_material] returns, in particular for every
    eligible block it returns for, the inner content of its output
    (between the first opening and the last closing brace) is the inner
    content of the input with [ BaseTechnique] put in behind occurrences
    of [technique], then [ BaseRender] behind occurrences of [pass], then
    [ Diffuse_Map] behind occurrences of [texture_unit]; taking these
    insertions out again, in the reverse order, gives the original inner
    content. *)
Theorem transform_material_inner_content (t out : text) :
  transform_material t = Ok out ->
  exists a b,
    inserted $"technique" $" BaseTechnique"
             (Str.slice t (Str.find $"{" t + 1) (Str.rfind $"}" t)) a
    /\ inserted $"pass" $" BaseRender" a b
    /\ inserted $"texture_unit" $" Diffuse_Map" b
                (Str.slice out (Str.find $"{" out + 1)
                           (Str.rfind $"}" out)).
Proof.
  intros H. apply transform_material_shape in H.
  destruct H as (m & head & _ & _ & Hh & ->).
  rewrite (inner_of_output head _ Hh).
  set (inner := Str.slice t (Str.find $"{" t + 1) (Str.rfind $"}" t)).
  exists (rename_technique inner), (rename_pass (rename_technique inner)).
  split; [|split].
  - eapply keyword_rewrite_inserted, rename_technique_rewrite.
  - apply pass_rewrite_inserted. unfold rename_pass, Re.sub.
    apply (scanned_pass_rewrite None), finditer_scanned, pass_block_proper.
  - eapply keyword_rewrite_inserted, rename_texture_unit_rewrite.
Qed.

Lemma transform_material_inner_content_witness :
  exists a b,
    inserted $"technique" $" BaseTechnique"
      (Str.slice $"material a { pass { texture_unit { } } }"
         (Str.find $"{" $"material a { pass { texture_unit { } } }" + 1)
         (Str.rfind $"}" $"material a { pass { texture_unit { } } }")) a
    /\ inserted $"pass" $" BaseRender" a b
    /\ inserted $"texture_unit" $" Diffuse_Map" b
         (Str.slice
            $"material a: RoR/Managed_Mats/Base { pass BaseRender { texture_unit Diffuse_Map { } } }"
            (Str.find $"{"
               $"material a: RoR/Managed_Mats/Base { pass BaseRender { texture_unit Diffuse_Map { } } }"
             + 1)
            (Str.rfind $"}"
               $"material a: RoR/Managed_Mats/Base { pass BaseRender { texture_unit Diffuse_Map { } } }")).
Proof.
  apply (transform_material_inner_content
           $"material a { pass { texture_unit { } } }"
           $"material a: RoR/Managed_Mats/Base { pass BaseRender { texture_unit Diffuse_Map { } } }").
  vm_compute. reflexivity.
Defined.

(** Outside the inner content [transform_material] does change text:
    it rewrites the header, and it drops whatever stands behind the last
    closing brace of the block. *)
Lemma transform_material_drops_trailing_text :
  transform_material
    ($"material a { pass { texture_unit { } } }" ++ Ex.nl ++ $"// note")
  = Ok $"material a: RoR/Managed_Mats/Base { pass BaseRender { texture_unit Diffuse_Map { } } }".
Proof. vm_compute. reflexivity. Qed.

(** ** A second pass over a transformed block *)

(** A prefix of the text after the insertions is also a prefix of the
    text before them, when it does not reach into an inserted suffix:
    it does not end with the first character of the suffix and does not
    contain the second. *)
Lemma inserted_clean_prefix (kw : text) (c1 c2 : ascii) (suf : text) :
  forall s t,
    inserted kw (c1 :: c2 :: suf) s t ->
    forall u r,
      t = u ++ r -> ~ In c2 u -> (forall u', u <> u' ++ [c1]) ->
      exists r', s = u ++ r'.
Proof.
  induction 1 as [| c s t _ IH | s t _ _]; intros u r E Hc2 Hc1.
  - destruct u; [|discriminate]. exists []. reflexivity.
  - destruct u as [|x u]; [exists (c :: s); reflexivity|].
    injection E as <- E.
    destruct (IH u r E) as (r' & ->).
    + intros H. apply Hc2. now right.
    + intros u' ->. apply (Hc1 (c :: u')). reflexivity.
    + exists r'. reflexivity.
  - symmetry in E. apply app_eq_app in E.
    destruct E as (l & [[-> E] | [-> _]]).
    + destruct l as [|x [|y l]].
      * exists s. now rewrite app_nil_r.
      * exfalso. injection E as <- _. now apply (Hc1 kw).
      * exfalso. injection E as _ <- _. apply Hc2.
        rewrite in_app_iff. right. right. now left.
    + exists (l ++ s). now rewrite <- app_assoc.
Qed.

Lemma opener_prefix_clean (ws : text) :
  forallb Char.is_space ws = true ->
  ~ In "D"%char ($"texture_unit" ++ ws ++ $"{")
  /\ forall u', $"texture_unit" ++ ws ++ $"{" <> u' ++ [" "%char].
Proof.
  intros Hws. split.
  - rewrite !in_app_iff. intros [H | [H | H]].
    + vm_compute in H. intuition discriminate.
    + rewrite forallb_forall in Hws. apply Hws in H. discriminate H.
    + vm_compute in H. intuition discriminate.
  - intros u' E. rewrite !app_assoc in E.
    apply app_inj_tail in E. destruct E as [_ E]. discriminate E.
Qed.

Lemma texture_unit_inside_none (prev' : option ascii) (T : text) :
  forall b1 c b2,
    $"texture_unit" ++ $" Diffuse_Map" = b1 ++ c :: b2 ->
    Pat.texture_unit_open (Re.prev_after b1 prev') (c :: b2 ++ T) = None.
Proof.
  intros b1 c b2 E. simpl in E.
  destruct b1 as [|x b1].
  { injection E as <- <-. unfold Pat.texture_unit_open, Pat.opener, Re.wordb.
    destruct (xorb _ _); reflexivity. }
  injection E as <- E.
  repeat (destruct b1 as [|? b1];
          [injection E as <- <-; reflexivity | injection E as <- E]).
  destruct b1; discriminate E.
Qed.

Lemma match_positions_nil_cons (pat : Re.matcher) prev c s i :
  match_positions pat prev (c :: s) i = [] <->
  pat prev (c :: s) = None /\ match_positions pat (Some c) s (S i) = [].
Proof.
  simpl. destruct (pat prev (c :: s)); simpl; split;
    (intros [? ?] || intros ?); (discriminate || auto).
Qed.

(** After the renaming of [texture_unit] no opener of it is left. *)
Lemma renamed_texture_unit_no_opener prev x evs :
  scanned Pat.texture_unit prev x evs ->
  forall prev' i,
    Re.word_opt prev' = Re.word_opt prev ->
    match_positions Pat.texture_unit_open prev'
      (flat_map (Re.emit (fun _ => $"texture_unit" ++ $" Diffuse_Map")) evs) i
    = [].
Proof.
  induction 1 as [prev | prev c s evs E H IH | prev m s evs E Hne H IH];
    intros prev' i Hp.
  - reflexivity.
  - cbn [flat_map Re.emit app]. apply match_positions_nil_cons.
    split; [|apply IH; reflexivity].
    set (T := flat_map _ evs).
    destruct (Pat.texture_unit_open prev' (c :: T)) as [m|] eqn:O;
      [exfalso | reflexivity].
    apply opener_spec in O. destruct O as (X & ws & r & ET & Hws & _).
    assert (inserted $"texture_unit" $" Diffuse_Map" (c :: s) (c :: T)) as I.
    { apply (keyword_rewrite_inserted _ _ prev).
      apply (scanned_keyword_rewrite $"texture_unit" "t"%char $"exture_unit"
               $" Diffuse_Map" eq_refl eq_refl (fun _ => eq_refl)
               prev (c :: s) (Re.Chr c :: evs)).
      now constructor. }
    destruct (opener_prefix_clean ws Hws) as [C2 C1].
    destruct (inserted_clean_prefix _ _ _ _ _ _ I
                ($"texture_unit" ++ ws ++ $"{") r) as (r' & Es); auto.
    { rewrite ET. now rewrite <- !app_assoc. }
    assert (opener_here $"texture_unit" prev (c :: s)) as Ho.
    { split.
      - rewrite <- Hp. rewrite ET in X. simpl in X.
        now destruct (Re.word_opt prev').
      - exists ws, r'. rewrite Es. now rewrite <- !app_assoc. }
    apply (keyword_opener_here $"texture_unit" "t"%char $"exture_unit")
      in Ho; try reflexivity.
    unfold Pat.texture_unit in E. congruence.
  - cbn [flat_map Re.emit].
    rewrite match_positions_inner.
    + apply IH. apply keyword_before_brace_spec in E; [|reflexivity].
      destruct E as (_ & _ & ->). reflexivity.
    + apply texture_unit_inside_none.
Qed.

Lemma rename_texture_unit_no_opener (x : text) prev' i :
  Re.word_opt prev' = false ->
  match_positions Pat.texture_unit_open prev' (rename_texture_unit x) i = [].
Proof.
  intros Hp. unfold rename_texture_unit, Re.sub.
  apply (renamed_texture_unit_no_opener
           None x (Re.finditer Pat.texture_unit x)); [|exact Hp].
  apply finditer_scanned.
  apply keyword_before_brace_proper; [discriminate | reflexivity].
Qed.

(** A closing brace behind the text adds no opener. *)
Lemma match_positions_close_brace (kw : text) :
  kw <> [] -> ~ In "}"%char kw ->
  forall T prev i,
    match_positions (Pat.opener kw) prev T i = [] ->
    match_positions (Pat.opener kw) prev (T ++ $"}") i = [].
Proof.
  intros Hne Hkw. induction T as [|c T IH]; intros prev i H.
  - simpl.
    destruct (Pat.opener kw prev ["}"%char]) as [m|] eqn:O; [|reflexivity].
    exfalso. apply opener_spec in O. destruct O as (_ & ws & r & E & _).
    destruct kw as [|k kw]; [congruence|]. injection E as <- _.
    apply Hkw. now left.
  - apply match_positions_nil_cons in H. destruct H as [O H].
    change ((c :: T) ++ $"}") with (c :: T ++ $"}").
    apply match_positions_nil_cons. split; [|now apply IH].
    destruct (Pat.opener kw prev (c :: T ++ $"}")) as [m|] eqn:O';
      [exfalso | reflexivity].
    apply opener_spec in O'. destruct O' as (X & ws & r & E & Hws & _).
    destruct r as [|x r] using rev_ind.
    + rewrite app_nil_r in E. rewrite !app_assoc in E.
      change (c :: T ++ $"}") with ((c :: T) ++ ["}"%char]) in E.
      apply app_inj_tail in E. destruct E as [_ E]. discriminate E.
    + clear IHr. rewrite !app_assoc in E.
      change (c :: T ++ $"}") with ((c :: T) ++ ["}"%char]) in E.
      apply app_inj_tail in E. destruct E as [E _].
      assert (Pat.opener kw prev (c :: T) = Some [[]; kw; ws; $"{"]) as O2;
        [|congruence].
      apply opener_spec. split; [exact X|].
      exists ws, r. rewrite E. now rewrite <- !app_assoc.
Qed.

Lemma prefix_before_first (c : ascii) (a b x y : text) :
  a ++ b = x ++ c :: y -> ~ In c a -> exists x2, x = a ++ x2.
Proof.
  intros E Ha. apply app_eq_app in E.
  destruct E as (l & [[-> E] | [-> _]]).
  - destruct l as [|c' l]; [exists []; now rewrite !app_nil_r|].
    injection E as -> _. exfalso. apply Ha, in_app_iff. right. now left.
  - eauto.
Qed.

Lemma match_positions_none (pat : Re.matcher) (s : text) prev i :
  match_positions pat prev s i = [] ->
  forall a b, s = a ++ b -> b <> [] -> pat (Re.prev_after a prev) b = None.
Proof.
  intros H a b E Hb.
  destruct (pat (Re.prev_after a prev) b) eqn:P; [exfalso | reflexivity].
  assert (In (i + length a) (match_positions pat prev s i)) as Hin.
  { apply match_positions_spec. exists a, b. repeat split; auto.
    rewrite P. discriminate. }
  rewrite H in Hin. destruct Hin.
Qed.

(** The header that [transform_material] writes ends with the text it
    slices off in front of the first brace; no texture_unit opener ends
    at the brace behind the header unless one ends at the first brace of
    the input. *)
Lemma no_opener_in_new_header (x y name rest : text) (a : Z) :
  ~ In "{"%char x ->
  match_positions Pat.texture_unit_open None (x ++ ["{"%char]) 0 = [] ->
  ~ In "{"%char
      ($"material " ++ name ++ namespace_suffix
         ++ Str.slice (x ++ "{"%char :: y) a (Z.of_nat (length x))) ->
  forall b1 c b2,
    ($"material " ++ name ++ namespace_suffix
       ++ Str.slice (x ++ "{"%char :: y) a (Z.of_nat (length x)))
      ++ ["{"%char] = b1 ++ c :: b2 ->
    Pat.texture_unit_open (Re.prev_after b1 None) (c :: b2 ++ rest) = None.
Proof.
  intros Hx Hin Hh b1 c b2 E.
  set (pre := Str.slice _ a _) in *.
  assert (exists A, x = A ++ pre) as (A & Ex).
  { unfold pre. rewrite slice_skipn_firstn.
    rewrite (clamp_inside _ (Z.of_nat (length x)))
      by (rewrite length_app; lia).
    rewrite Nat2Z.id, firstn_exact.
    eexists. symmetry. apply firstn_skipn. }
  destruct (Pat.texture_unit_open _ (c :: b2 ++ rest)) as [m|] eqn:O;
    [exfalso | reflexivity].
  apply opener_spec in O. destruct O as (X & ws & r & E2 & Hws & _).
  assert (c = "t"%char) as -> by (now injection E2).
  assert (Re.word_opt (Re.prev_after b1 None) = false) as Hb1.
  { simpl in X. now destruct (Re.word_opt (Re.prev_after b1 None)). }
  clear X.
  destruct (@exists_last _ ("t"%char :: b2)) as (h2 & z & E3);
    [discriminate|].
  rewrite E3 in E. rewrite (app_assoc b1) in E. apply app_inj_tail in E.
  destruct E as [E <-].
  change ("t"%char :: b2 ++ rest) with (("t"%char :: b2) ++ rest) in E2.
  rewrite E3 in E2. rewrite <- app_assoc, (app_assoc $"texture_unit") in E2.
  apply first_occurrence_unique in E2.
  2:{ intros H. apply Hh. rewrite E, in_app_iff. now right. }
  2:{ rewrite in_app_iff. intros [H|H].
      - vm_compute in H. intuition discriminate.
      - rewrite forallb_forall in Hws. apply Hws in H. discriminate H. }
  subst h2. clear E3.
  set (M1 := $"material " ++ name ++ $": RoR/Managed_Mats/Ba").
  assert ($"material " ++ name ++ namespace_suffix ++ pre
          = (M1 ++ ["s"%char; "e"%char]) ++ pre) as EM
    by (unfold M1, namespace_suffix; rewrite <- !app_assoc; reflexivity).
  rewrite EM in E. clear EM. apply app_eq_app in E.
  destruct E as (l & [[E Ep] | [E Ep]]).
  - (* the opener would start inside the rewritten header *)
    destruct l as [|c l] using rev_ind.
    + rewrite app_nil_r in E. rewrite <- E, prev_after_app in Hb1.
      discriminate Hb1.
    + clear IHl. rewrite app_assoc in E.
      change (M1 ++ ["s"%char; "e"%char])
        with (M1 ++ ["s"%char] ++ ["e"%char]) in E.
      rewrite (app_assoc M1) in E. apply app_inj_tail in E.
      destruct E as [E <-].
      destruct l as [|c l] using rev_ind.
      * simpl in Ep. discriminate Ep.
      * clear IHl. rewrite app_assoc in E. apply app_inj_tail in E.
        destruct E as [_ <-].
        assert (In "s"%char ($"texture_unit" ++ ws)) as Hs.
        { rewrite Ep, !in_app_iff. left. left. right. now left. }
        rewrite in_app_iff in Hs. destruct Hs as [H|H].
        -- vm_compute in H. intuition discriminate.
        -- rewrite forallb_forall in Hws. apply Hws in H. discriminate H.
  - (* the opener lies in the sliced text, or starts right behind
       [Base] *)
    assert (Pat.texture_unit_open (Re.prev_after (A ++ l) None)
              (($"texture_unit" ++ ws) ++ ["{"%char]) = None) as N.
    { apply (match_positions_none _ _ _ _ Hin).
      - rewrite Ex, Ep. now rewrite <- !app_assoc.
      - destruct ws; discriminate. }
    assert (Re.word_opt (Re.prev_after (A ++ l) None) = false) as Hp.
    { rewrite <- Hb1. rewrite E, !prev_after_app.
      destruct l as [|c l] using rev_ind.
      - exfalso. rewrite E, app_nil_r, !prev_after_app in Hb1.
        discriminate Hb1.
      - now rewrite !prev_after_snoc. }
    assert (Pat.texture_unit_open (Re.prev_after (A ++ l) None)
              (($"texture_unit" ++ ws) ++ ["{"%char])
            = Some [[]; $"texture_unit"; ws; $"{"]) as S; [|congruence].
    apply opener_spec. split.
    + rewrite Hp. reflexivity.
    + exists ws, []. rewrite <- !app_assoc. auto.
Qed.

(** C8, as stated, fails: in this block the name is followed by a line
    that reads like a texture_unit opener, so the first brace of the
    block is the brace of that opener.  The block is accepted, the
    opener ends up in the header of the output, and the output is
    accepted again. *)
Lemma transformed_block_still_eligible :
  is_eligible_material
    ($"material a" ++ Ex.nl ++ $"texture_unit { pass { } }") = true
  /\ transform_material
       ($"material a" ++ Ex.nl ++ $"texture_unit { pass { } }")
     = Ok ($"material a: RoR/Managed_Mats/Base" ++ Ex.nl
             ++ $"texture_unit { pass { } }")
  /\ is_eligible_material
       ($"material a: RoR/Managed_Mats/Base" ++ Ex.nl
          ++ $"texture_unit { pass { } }") = true.
Proof. repeat split; vm_compute; reflexivity. Qed.

(** C8 (amended). Take a block accepted by [is_eligible_material] whose
    first opening brace is not the brace of a texture_unit opener: the
    text up to and including that brace holds no such opener.  Then the
    output of [transform_material], when it returns one, holds no
    texture_unit opener at all and is rejected by
    [is_eligible_material]. *)
Theorem transformed_block_rejected (t out : text) :
  is_eligible_material t = true ->
  transform_material t = Ok out ->
  Re.findall Pat.texture_unit_open (Str.slice t 0 (Str.find $"{" t + 1)) = []
  ->
  Re.findall Pat.texture_unit_open out = []
  /\ is_eligible_material out = false.
Proof.
  intros He Ht Hf.
  apply transform_material_shape in Ht.
  destruct Ht as (m & head & Hm & Eh & Hh & ->).
  destruct (find_char "{"%char t) as [[Hn _] | (x & y & Et & Hx & F)].
  { exfalso. apply Hn, eligible_has_brace, He. }
  change ($"{") with ["{"%char] in Hf, Eh. rewrite F in Hf, Eh.
  assert (match_positions Pat.texture_unit_open None (x ++ ["{"%char]) 0 = [])
    as Hin.
  { apply length_zero_iff_nil.
    unfold Pat.texture_unit_open.
    rewrite <- findall_count by (discriminate || reflexivity).
    fold Pat.texture_unit_open.
    replace (x ++ ["{"%char])
      with (Str.slice t 0 (Z.of_nat (length x) + 1)).
    - now rewrite Hf.
    - rewrite Et.
      replace (Z.of_nat (length x) + 1)%Z
        with (Z.of_nat (length (@nil ascii) + length (x ++ ["{"%char])))
        by (rewrite length_app; simpl; lia).
      replace (x ++ "{"%char :: y) with ([] ++ (x ++ ["{"%char]) ++ y)
        by (simpl; now rewrite <- app_assoc).
      apply (slice_middle [] (x ++ ["{"%char]) y). }
  set (inner := rename_pass (rename_technique _)).
  assert (match_positions Pat.texture_unit_open None
            (head ++ $"{" ++ rename_texture_unit inner ++ $"}") 0 = []) as P.
  { change (head ++ $"{" ++ rename_texture_unit inner ++ $"}")
      with (head ++ ["{"%char] ++ rename_texture_unit inner ++ $"}").
    rewrite app_assoc. rewrite match_positions_inner.
    - apply match_positions_close_brace;
        [discriminate | vm_compute; intuition discriminate|].
      apply rename_texture_unit_no_opener.
      rewrite prev_after_snoc. reflexivity.
    - rewrite Eh, Et in *. now apply no_opener_in_new_header. }
  assert (length (Re.findall Pat.texture_unit_open
                    (head ++ $"{" ++ rename_texture_unit inner ++ $"}")) = 0)
    as L.
  { unfold Pat.texture_unit_open.
    rewrite findall_count by (discriminate || reflexivity).
    fold Pat.texture_unit_open. now rewrite P. }
  split.
  - now apply length_zero_iff_nil.
  - unfold is_eligible_material. destruct (existsb _ _); [reflexivity|].
    rewrite L. apply andb_false_r.
Qed.

Lemma transformed_block_rejected_witness :
  Re.findall Pat.texture_unit_open
    $"material a: RoR/Managed_Mats/Base { pass BaseRender { texture_unit Diffuse_Map { } } }"
  = []
  /\ is_eligible_material
       $"material a: RoR/Managed_Mats/Base { pass BaseRender { texture_unit Diffuse_Map { } } }"
     = false.
Proof.
  apply (transformed_block_rejected
           $"material a { pass { texture_unit { } } }").
  - vm_compute. reflexivity.
  - vm_compute. reflexivity.
  - vm_compute. reflexivity.
Defined.

(** ** The scenario of a file with one eligible block *)

(** When the rest of the pattern matches everywhere the loop takes the
    longest run. *)
Lemma greedy_longest (p : ascii -> bool) (rest : Re.matcher)
    (Hrest : forall prev s, rest prev s <> None) :
  forall s prev,
    exists m cs s',
      Re.greedy p rest prev s = Some (m, cs) /\ s = m ++ s'
      /\ forallb p m = true /\ Re.head_in p s' = false
      /\ rest (Re.prev_after m prev) s' = Some cs.
Proof.
  induction s as [|c s IH]; intros prev.
  - simpl. destruct (rest prev []) as [cs|] eqn:R;
      [|now apply Hrest in R].
    exists [], cs, []. auto.
  - simpl. destruct (p c) eqn:Pc.
    + destruct (IH (Some c)) as (m & cs & s' & G & -> & Hm & Hs & R).
      exists (c :: m), cs, s'. rewrite G. simpl. rewrite Pc. auto.
    + destruct (rest prev (c :: s)) as [cs|] eqn:R;
        [|now apply Hrest in R].
      exists [], cs, (c :: s). simpl. rewrite Pc. auto.
Qed.

(** Group 1 of the name pattern is the longest run of name characters
    behind the whitespace of the keyword. *)
Lemma name_group_longest prev s m :
  Pat.name prev s = Some m ->
  exists ws g1 g2 r,
    s = $"material" ++ ws ++ g1 ++ g2 ++ r
    /\ m = [$"material"; ws; g1; g2]
    /\ Re.head_in Char.not_nl_brace (g2 ++ r) = false.
Proof.
  unfold Pat.name. intros H.
  apply lit_spec in H. destruct H as (s1 & m1 & -> & P & ->).
  apply plus_sound in P.
  destruct P as (ws & cs & s2 & -> & -> & _ & _ & P).
  unfold Re.plus in P. destruct s2 as [|c s2]; [discriminate|].
  destruct (Char.not_nl_brace c) eqn:Pc; [|discriminate].
  destruct (greedy_longest Char.not_nl_brace
              (Re.star Char.is_space Re.fin)) with (s := s2)
    (prev := Some c) as (g & cs' & s3 & G & -> & Hg & Hs & S).
  { intros prev' s'. unfold Re.star.
    destruct (greedy_fin Char.is_space s' prev') as (x & y & -> & _).
    discriminate. }
  rewrite G in P. cbn [option_map fst snd] in P. injection P as <-.
  apply star_sound in S.
  destruct S as (g2 & cs3 & r & -> & -> & _ & [= <-]).
  exists ws, (c :: g), g2, r. repeat split; auto.
Qed.

Lemma lstrip_head_not_space (s : text) :
  Re.head_in Char.is_space (Str.lstrip s) = false.
Proof.
  induction s as [|c s IH]; simpl; [reflexivity|].
  destruct (Char.is_space c) eqn:E; [exact IH | simpl; exact E].
Qed.

Lemma strip_ends (s : text) :
  Re.head_in Char.is_space (Str.strip s) = false
  /\ Re.head_in Char.is_space (rev (Str.strip s)) = false.
Proof.
  unfold Str.strip, Str.rstrip. split.
  - destruct (lstrip_split (rev (Str.lstrip s))) as (w & E & _).
    set (x := Str.lstrip (rev (Str.lstrip s))) in *.
    apply (f_equal (@rev ascii)) in E.
    rewrite rev_involutive, rev_app_distr in E.
    pose proof (lstrip_head_not_space s) as H. rewrite E in H.
    destruct (rev x); [reflexivity | exact H].
  - rewrite rev_involutive. apply lstrip_head_not_space.
Qed.

(** On a block as the splitter returns it, the name that
    [transform_material] extracts is the name the block declares. *)
Lemma block_declared_name (mat : text) (nm : Re.chunks) :
  Re.head_in Char.is_space mat = false ->
  Re.re_match Pat.name ($"material " ++ mat) = Some nm ->
  declared_name ($"material " ++ mat) (Str.strip (Re.group 2 nm)).
Proof.
  intros Hmat Hm.
  destruct (name_match_on_block mat nm Hmat Hm)
    as (g1 & g2 & r & w & -> & Emat & Eg & Hne & Hw & Hg1 & _).
  unfold Re.re_match in Hm. apply name_group_longest in Hm.
  destruct Hm as (ws' & g1' & g2' & r' & E & [= <- <- <-] & Hl).
  change ($"material " ++ mat) with ($"material" ++ $" " ++ mat) in E.
  apply app_inv_head, app_inv_head in E.
  cbn [Re.group nth]. set (name := Str.strip g1) in *.
  exists w, (g2 ++ r'). repeat split.
  - rewrite E. rewrite Eg at 1. now rewrite <- !app_assoc.
  - exact Hne.
  - apply strip_ends.
  - apply strip_ends.
  - exact Hw.
  - rewrite <- Eg. intros H. rewrite forallb_forall in Hg1.
    apply Hg1, not_nl_brace_spec in H. tauto.
  - rewrite <- Eg. now apply not_nl_brace_no_brace.
  - destruct (g2 ++ r') as [|c t]; [now left | right].
    exists c, t. split; [reflexivity|]. simpl in Hl.
    unfold Char.not_nl_brace in Hl.
    apply negb_false_iff, orb_true_iff in Hl.
    now rewrite !char_eqb_eq in Hl.
Qed.

(** On a block as the splitter returns it, the header that
    [transform_material] writes is the name the block declares and the
    text between the name and the first brace, with the namespace put in
    between. *)
Lemma transform_material_header (content m out : text) :
  In m (parse_material_file content) ->
  is_eligible_material m = true ->
  transform_material m = Ok out ->
  exists nm name pre rest,
    Re.re_match Pat.name m = Some nm
    /\ name = Str.strip (Re.group 2 nm)
    /\ declared_name m name
    /\ m = $"material " ++ name ++ pre ++ $"{" ++ rest
    /\ name <> []
    /\ ~ In "{"%char (name ++ pre)
    /\ out = $"material " ++ name ++ namespace_suffix ++ pre ++ $"{"
               ++ rename_texture_unit
                    (rename_pass
                       (rename_technique
                          (Str.slice m (Str.find $"{" m + 1)
                                     (Str.rfind $"}" m))))
               ++ $"}".
Proof.
  intros Hin He Ht.
  apply parse_material_file_shape in Hin. destruct Hin as (mat & Em & Hmat).
  apply transform_material_shape in Ht.
  destruct Ht as (mm & head & Hm & Eh & Hh & ->).
  assert (declared_name m (Str.strip (Re.group 2 mm))) as Hd.
  { rewrite Em in Hm |- *. now apply block_declared_name. }
  pose proof Hm as Hm0.
  rewrite Em in Hm. apply name_match_on_block in Hm; [|exact Hmat].
  destruct Hm as (g1 & g2 & r & w & -> & Emat & Eg & Hne & Hw & Hg1 & _).
  cbn [Re.group nth] in Eh, Hd.
  set (name := Str.strip g1) in *.
  destruct (find_char "{"%char m) as [[Hn _] | (x & y & Ex & Hx & F)].
  { exfalso. apply Hn, eligible_has_brace, He. }
  assert (exists pre, x = ($"material " ++ name) ++ pre) as (pre & Epre).
  { apply (prefix_before_first "{"%char _ (w ++ g2 ++ r) x y).
    - rewrite <- Ex, Em, Emat. rewrite Eg at 1. now rewrite <- !app_assoc.
    - rewrite in_app_iff. intros [H | H].
      + vm_compute in H. intuition discriminate.
      + apply not_nl_brace_no_brace in Hg1. apply Hg1.
        rewrite Eg, in_app_iff. now left. }
  assert (Str.slice m (Z.of_nat (length ($"material " ++ name)))
                    (Str.find $"{" m) = pre) as Es.
  { change ($"{") with ["{"%char]. rewrite F. rewrite Ex, Epre.
    rewrite (length_app ($"material " ++ name) pre), <- app_assoc.
    apply (slice_middle ($"material " ++ name) pre ("{"%char :: y)). }
  exists [$"material"; $" "; g1; g2], name, pre, y.
  split; [exact Hm0|]. split; [reflexivity|]. split; [exact Hd|].
  split; [|split; [|split]].
  - rewrite Ex, Epre. now rewrite <- !app_assoc.
  - exact Hne.
  - intros H. apply Hx. rewrite Epre, <- app_assoc, in_app_iff. now right.
  - rewrite Eh, Es. now rewrite <- !app_assoc.
Qed.

(** C2, as stated, fails twice.  The first file holds one block with
    exactly one pass opener, one texture_unit opener and no disqualifying
    keyword, but the texture_unit stands behind the closing brace of the
    pass, so the span of the pass does not contain it and the pass keeps
    its name.  The second file holds one such block whose opening brace
    follows the keyword directly: the transformation raises and nothing
    is backed up or written. *)
Lemma one_block_file_not_as_claimed :
  (parse_material_file
     $"material a { technique { pass { } texture_unit { } } }"
   = [$"material a { technique { pass { } texture_unit { } } }"]
   /\ length (Re.findall Pat.pass_open
                $"material a { technique { pass { } texture_unit { } } }")
      = 1
   /\ length (Re.findall Pat.texture_unit_open
                $"material a { technique { pass { } texture_unit { } } }")
      = 1
   /\ is_eligible_material
        $"material a { technique { pass { } texture_unit { } } }" = true
   /\ lookup $"a.material"
        (entries
           (fs (snd (process_file $"a.material"
                       (start (Ex.folder $"a.material"
                                 $"material a { technique { pass { } texture_unit { } } }"))))))
      = Some (import_line ++ blank_line
                ++ $"material a: RoR/Managed_Mats/Base { technique BaseTechnique { pass { } texture_unit Diffuse_Map { } } }")
   /\ Str.contains $"pass BaseRender"
        (import_line ++ blank_line
           ++ $"material a: RoR/Managed_Mats/Base { technique BaseTechnique { pass { } texture_unit Diffuse_Map { } } }")
      = false)
  /\ (parse_material_file Ex.nameless = [Ex.nameless]
      /\ length (Re.findall Pat.pass_open Ex.nameless) = 1
      /\ length (Re.findall Pat.texture_unit_open Ex.nameless) = 1
      /\ is_eligible_material Ex.nameless = true
      /\ fst (process_file $"a.material"
                (start (Ex.folder $"a.material" Ex.nameless)))
         = Raise AttributeError
      /\ fs (snd (process_file $"a.material"
                    (start (Ex.folder $"a.material" Ex.nameless))))
         = Ex.folder $"a.material" Ex.nameless).
Proof. repeat split; vm_compute; reflexivity. Qed.

(** C2 (amended). Take a file that parses into one block, accepted by
    [is_eligible_material], on which [transform_material] returns.  The
    output block is ["material "], the name the block declares (the name
    [transform_material] extracts), the namespace, the text that stood
    between the name and the first brace, the brace, the inner content
    and a closing brace; in the inner content, in this order, every
    technique opener has been renamed, every pass span that contains
    [texture_unit] has been renamed, and every texture_unit opener has
    been renamed.  [process_file] copies the file into the backup folder
    and then writes the import line, a blank line and the output
    block. *)
Theorem one_block_file_rewritten (file_name content m out : text)
    (bk : list (text * text)) (w : world) :
  lookup file_name (entries (fs w)) = Some content ->
  backup (fs w) = Some bk ->
  parse_material_file content = [m] ->
  is_eligible_material m = true ->
  transform_material m = Ok out ->
  (exists nm name pre rest a b inner',
      Re.re_match Pat.name m = Some nm
      /\ name = Str.strip (Re.group 2 nm)
      /\ declared_name m name
      /\ m = $"material " ++ name ++ pre ++ $"{" ++ rest
      /\ name <> [] /\ ~ In "{"%char (name ++ pre)
      /\ keyword_rewrite $"technique" $" BaseTechnique" None
           (Str.slice m (Str.find $"{" m + 1) (Str.rfind $"}" m)) a
      /\ pass_rewrite a b
      /\ keyword_rewrite $"texture_unit" $" Diffuse_Map" None b inner'
      /\ out = $"material " ++ name ++ $": RoR/Managed_Mats/Base" ++ pre
                 ++ $"{" ++ inner' ++ $"}")
  /\ fst (process_file file_name w) = Ok tt
  /\ ops (snd (process_file file_name w))
     = ops w ++ [Copy file_name;
                 Write file_name (import_line ++ blank_line ++ out)]
  /\ backup (fs (snd (process_file file_name w)))
     = Some (store file_name content bk)
  /\ lookup file_name (entries (fs (snd (process_file file_name w))))
     = Some (import_line ++ blank_line ++ out).
Proof.
  intros Hl Hb Hp He Ht. split.
  - destruct (transform_material_header content m out) as
      (nm & name & pre & rest & Hm & En & Hd & Em & Hne & Hnb & Eo); auto.
    { rewrite Hp. now left. }
    set (inner := Str.slice m (Str.find $"{" m + 1) (Str.rfind $"}" m)) in *.
    exists nm, name, pre, rest, (rename_technique inner),
      (rename_pass (rename_technique inner)),
      (rename_texture_unit (rename_pass (rename_technique inner))).
    repeat split; auto.
    + apply rename_technique_rewrite.
    + unfold rename_pass, Re.sub.
      apply (scanned_pass_rewrite None), finditer_scanned, pass_block_proper.
    + apply rename_texture_unit_rewrite.
  - assert (Forall2 rewritten (parse_material_file content) [out]) as Hu.
    { rewrite Hp. constructor; [|constructor].
      unfold rewritten. now rewrite He. }
    rewrite (process_file_effect file_name content bk w [out] Hl Hb Hu).
    rewrite Hp. unfold count_eligible. cbn [filter]. rewrite He.
    cbn [length Nat.ltb Nat.leb fst snd fs ops backup entries].
    rewrite <- app_assoc.
    repeat split; auto using lookup_store.
Qed.

Lemma one_block_file_rewritten_witness :
  (exists nm name pre rest a b inner',
      Re.re_match Pat.name Ex.wall = Some nm
      /\ name = Str.strip (Re.group 2 nm)
      /\ declared_name Ex.wall name
      /\ Ex.wall = $"material " ++ name ++ pre ++ $"{" ++ rest
      /\ name <> [] /\ ~ In "{"%char (name ++ pre)
      /\ keyword_rewrite $"technique" $" BaseTechnique" None
           (Str.slice Ex.wall (Str.find $"{" Ex.wall + 1)
                      (Str.rfind $"}" Ex.wall)) a
      /\ pass_rewrite a b
      /\ keyword_rewrite $"texture_unit" $" Diffuse_Map" None b inner'
      /\ hd [] Ex.wall_updated
         = $"material " ++ name ++ $": RoR/Managed_Mats/Base" ++ pre
             ++ $"{" ++ inner' ++ $"}")
  /\ fst (process_file $"a.material"
            (start (Ex.folder $"a.material" Ex.wall))) = Ok tt
  /\ ops (snd (process_file $"a.material"
                 (start (Ex.folder $"a.material" Ex.wall))))
     = ops (start (Ex.folder $"a.material" Ex.wall))
         ++ [Copy $"a.material";
             Write $"a.material"
               (import_line ++ blank_line ++ hd [] Ex.wall_updated)]
  /\ backup (fs (snd (process_file $"a.material"
                        (start (Ex.folder $"a.material" Ex.wall)))))
     = Some (store $"a.material" Ex.wall [])
  /\ lookup $"a.material"
       (entries (fs (snd (process_file $"a.material"
                            (start (Ex.folder $"a.material" Ex.wall))))))
     = Some (import_line ++ blank_line ++ hd [] Ex.wall_updated).
Proof.
  apply (one_block_file_rewritten $"a.material" Ex.wall Ex.wall
           (hd [] Ex.wall_updated) []
           (start (Ex.folder $"a.material" Ex.wall))).
  - vm_compute. reflexivity.
  - reflexivity.
  - vm_compute. reflexivity.
  - vm_compute. reflexivity.
  - vm_compute. reflexivity.
Defined.

(** * Further properties *)

(** ** The splitter on whole files *)

(** The scan reports no match exactly when the pattern matches at no
    position. *)
Lemma scanned_no_hits (pat : Re.matcher) prev s evs :
  scanned pat prev s evs ->
  Re.hits evs = [] <->
  forall a b, s = a ++ b -> b <> [] -> pat (Re.prev_after a prev) b = None.
Proof.
  induction 1 as [prev | prev c s evs E _ IH | prev m s evs E Hne _ IH];
    simpl.
  - split; [|reflexivity]. intros _ a b Hs Hb.
    destruct a, b; simpl in Hs; congruence.
  - rewrite IH. split.
    + intros H [|x a] b Hs Hb; simpl in Hs.
      * subst b. exact E.
      * injection Hs as <- ->. apply (H a b eq_refl Hb).
    + intros H a b Hs Hb. apply (H (c :: a) b); [simpl; congruence | exact Hb].
  - split; [discriminate|]. intros H.
    specialize (H [] (Re.matched m ++ s) eq_refl).
    change (Re.prev_after [] prev) with prev in H.
    rewrite E in H. destruct (Re.matched m); [congruence|].
    discriminate H. discriminate.
Qed.

Lemma pieces_length (evs : list Re.event) :
  length (Re.pieces evs) = S (length (Re.hits evs)).
Proof.
  induction evs as [|[c|m] evs IH]; simpl; auto.
  destruct (Re.pieces evs); simpl in *; lia.
Qed.

(** X1. [parse_material_file] returns no block exactly when the keyword
    followed by whitespace occurs nowhere in the file. *)
Theorem parse_material_file_empty_iff (content : text) :
  parse_material_file content = [] <-> ~ keyword_occurs content.
Proof.
  unfold parse_material_file, Re.split, keyword_occurs.
  pose proof (finditer_scanned Pat.material material_proper content) as Hs.
  pose proof (pieces_length (Re.finditer Pat.material content)) as Hl.
  pose proof (scanned_no_hits _ _ _ _ Hs) as Hh.
  split.
  - intros H (a & ws & b & E & Hne & Hws).
    assert (Re.hits (Re.finditer Pat.material content) = []) as H0.
    { destruct (Re.pieces (Re.finditer Pat.material content)) as [|p ps];
        [discriminate|].
      simpl in H. apply map_eq_nil in H. subst ps. simpl in Hl.
      apply length_zero_iff_nil. lia. }
    pose proof (proj1 Hh H0 a ($"material" ++ ws ++ b) E) as H1.
    clear H0. rename H1 into H0.
    assert (Pat.material (Re.prev_after a None) ($"material" ++ ws ++ b)
            <> None) as M by (apply material_matches_iff; eauto).
    apply M, H0. discriminate.
  - intros H.
    assert (Re.hits (Re.finditer Pat.material content) = []) as H0.
    { apply Hh. intros a b E Hb.
      destruct (Pat.material (Re.prev_after a None) b) eqn:M; [|reflexivity].
      exfalso. apply H.
      assert (Pat.material (Re.prev_after a None) b <> None) as M'
        by (rewrite M; discriminate).
      apply material_matches_iff in M'.
      destruct M' as (ws & b' & -> & Hne & Hws). eauto 6. }
    rewrite H0 in Hl.
    destruct (Re.pieces (Re.finditer Pat.material content)) as [|p [|q ps]];
      try reflexivity; simpl in Hl; lia.
Qed.

Lemma material_pieces_rebuild prev s evs :
  scanned Pat.material prev s evs ->
  exists l : list (text * text),
    s = hd [] (Re.pieces evs) ++ flat_map block_in_file l
    /\ tl (Re.pieces evs) = map snd l
    /\ Forall (fun p => fst p <> []
                        /\ forallb Char.is_space (fst p) = true) l.
Proof.
  induction 1 as [prev | prev c s evs E _ IH | prev m s evs E Hne _ IH].
  - exists []. simpl. auto.
  - destruct IH as (l & Es & Et & Hl).
    destruct (pieces_nonempty evs) as (q & qs & Eq).
    simpl. rewrite Eq in *. simpl in *. exists l. rewrite Es at 1. auto.
  - destruct IH as (l & Es & Et & Hl).
    destruct (pieces_nonempty evs) as (q & qs & Eq).
    apply material_spec in E.
    destruct E as (ws & r & _ & Hw1 & Hw2 & _ & ->).
    replace (Re.matched [$"material"; ws]) with ($"material" ++ ws)
      by (unfold Re.matched; simpl; now rewrite app_nil_r).
    simpl Re.pieces. rewrite Eq in *. simpl hd in *. simpl tl in *.
    exists ((ws, q) :: l). split; [|split].
    + simpl. unfold block_in_file at 1. simpl fst. simpl snd.
      rewrite Es at 1. now rewrite <- !app_assoc.
    + simpl. now rewrite Et.
    + constructor; auto.
Qed.

(** X2. A file can be put together again from what [parse_material_file]
    keeps and what it drops: the text in front of the first keyword, and
    then for every block, in order, the keyword, the whitespace behind it
    and the text of the block.  In the block returned the whitespace is
    one space. *)
Theorem parse_material_file_rebuild (content : text) :
  exists (lead : text) (l : list (text * text)),
    content = lead ++ flat_map block_in_file l
    /\ parse_material_file content
       = map (fun p => $"material " ++ snd p) l
    /\ Forall (fun p => fst p <> []
                        /\ forallb Char.is_space (fst p) = true) l.
Proof.
  destruct (material_pieces_rebuild None content _
              (finditer_scanned Pat.material material_proper content))
    as (l & Es & Et & Hl).
  exists (hd [] (Re.split Pat.material content)), l.
  split; [exact Es|]. split; [|exact Hl].
  unfold parse_material_file, Re.split. rewrite Et, map_map. reflexivity.
Qed.

(** ** The name written to the output *)

(** X3. Whenever [transform_material] returns, its output starts with
    ["material "], the extracted name and the namespace; the name has no
    whitespace at either end and contains neither a newline nor an
    opening brace. *)
Theorem transform_material_name (t out : text) :
  transform_material t = Ok out ->
  exists name rest,
    out = $"material " ++ name ++ $": RoR/Managed_Mats/Base" ++ rest
    /\ Re.head_in Char.is_space name = false
    /\ Re.head_in Char.is_space (rev name) = false
    /\ ~ In Char.newline name /\ ~ In "{"%char name.
Proof.
  intros H. apply transform_material_shape in H.
  destruct H as (m & head & Hm & -> & _ & ->).
  unfold Re.re_match in Hm. apply name_sound in Hm.
  destruct Hm as (ws & g1 & g2 & r & _ & _ & _ & _ & Hg1 & _ & ->).
  cbn [Re.group nth].
  eexists (Str.strip g1), _. split; [|split; [|split; [|split]]].
  - unfold namespace_suffix. rewrite <- !app_assoc. reflexivity.
  - apply strip_ends.
  - apply strip_ends.
  - intros H. apply strip_subset in H. rewrite forallb_forall in Hg1.
    apply Hg1, not_nl_brace_spec in H. tauto.
  - intros H. apply strip_subset in H.
    now apply not_nl_brace_no_brace in H.
Qed.

Lemma transform_material_name_witness :
  exists name rest,
    $"material Wall: RoR/Managed_Mats/Base  { pass BaseRender { texture_unit Diffuse_Map { } } }"
    = $"material " ++ name ++ $": RoR/Managed_Mats/Base" ++ rest
    /\ Re.head_in Char.is_space name = false
    /\ Re.head_in Char.is_space (rev name) = false
    /\ ~ In Char.newline name /\ ~ In "{"%char name.
Proof.
  apply (transform_material_name
           $"material Wall  { pass { texture_unit { } } }").
  vm_compute. reflexivity.
Defined.

(** ** Renaming twice *)

(** A text in which the pattern matches nowhere goes through [re.sub]
    unchanged. *)
Lemma scanned_no_match_identity (pat : Re.matcher)
    (repl : Re.chunks -> text) prev s evs :
  scanned pat prev s evs ->
  (forall a b, s = a ++ b -> b <> [] -> pat (Re.prev_after a prev) b = None) ->
  flat_map (Re.emit repl) evs = s.
Proof.
  induction 1 as [prev | prev c s evs E _ IH | prev m s evs E Hne _ IH];
    intros H; simpl.
  - reflexivity.
  - f_equal. apply IH. intros a b Hs Hb.
    apply (H (c :: a) b); [simpl; congruence | exact Hb].
  - exfalso. specialize (H [] (Re.matched m ++ s) eq_refl).
    change (Re.prev_after [] prev) with prev in H. rewrite E in H.
    destruct (Re.matched m); [congruence|]. discriminate H. discriminate.
Qed.

Section Keyword.

(** A keyword of word characters and the suffix its renaming puts behind
    it: a space, a character that is neither in the keyword nor
    whitespace nor a brace, and more. *)
Variables (kw : text) (k0 : ascii) (kw' : text) (c2 : ascii) (suf : text).
Hypothesis Hkw : kw = k0 :: kw'.
Hypothesis Hk0 : Char.is_word k0 = true.
Hypothesis Hlast : forall p, Re.word_opt (Re.prev_after kw p) = true.
Hypothesis Hc2kw : ~ In c2 kw.
Hypothesis Hc2sp : Char.is_space c2 = false.
Hypothesis Hc2br : c2 <> "{"%char.
Hypothesis Hend :
  forall p, Re.word_opt (Re.prev_after (kw ++ " "%char :: c2 :: suf) p) = true.
Hypothesis Hinside :
  forall prev' T b1 c b2,
    kw ++ " "%char :: c2 :: suf = b1 ++ c :: b2 ->
    Pat.opener kw (Re.prev_after b1 prev') (c :: b2 ++ T) = None.

Lemma keyword_prefix_clean (ws : text) :
  forallb Char.is_space ws = true ->
  ~ In c2 (kw ++ ws ++ $"{")
  /\ forall u', kw ++ ws ++ $"{" <> u' ++ [" "%char].
Proof.
  intros Hws. split.
  - rewrite !in_app_iff. intros [H | [H | [H | []]]].
    + tauto.
    + rewrite forallb_forall in Hws. apply Hws in H. congruence.
    + congruence.
  - intros u' E. rewrite !app_assoc in E.
    apply app_inj_tail in E. destruct E as [_ E]. discriminate E.
Qed.

(** After the renaming no opener of the keyword is left. *)
Lemma renamed_keyword_no_opener prev x evs :
  scanned (Pat.keyword_before_brace kw) prev x evs ->
  forall prev' i,
    Re.word_opt prev' = Re.word_opt prev ->
    match_positions (Pat.opener kw) prev'
      (flat_map (Re.emit (fun _ => kw ++ " "%char :: c2 :: suf)) evs) i
    = [].
Proof.
  induction 1 as [prev | prev c s evs E H IH | prev m s evs E Hne H IH];
    intros prev' i Hp.
  - reflexivity.
  - cbn [flat_map Re.emit app]. apply match_positions_nil_cons.
    split; [|apply IH; reflexivity].
    set (T := flat_map _ evs).
    destruct (Pat.opener kw prev' (c :: T)) as [m|] eqn:O;
      [exfalso | reflexivity].
    apply opener_spec in O. destruct O as (X & ws & r & ET & Hws & _).
    assert (inserted kw (" "%char :: c2 :: suf) (c :: s) (c :: T)) as I.
    { apply (keyword_rewrite_inserted _ _ prev).
      apply (scanned_keyword_rewrite kw k0 kw' _ Hkw Hk0 Hlast
               prev (c :: s) (Re.Chr c :: evs)).
      now constructor. }
    destruct (keyword_prefix_clean ws Hws) as [C2 C1].
    destruct (inserted_clean_prefix _ _ _ _ _ _ I
                (kw ++ ws ++ $"{") r) as (r' & Es); auto.
    { rewrite ET. now rewrite <- !app_assoc. }
    assert (opener_here kw prev (c :: s)) as Ho.
    { split.
      - rewrite <- Hp. rewrite ET, Hkw in X. simpl in X. rewrite Hk0 in X.
        now destruct (Re.word_opt prev').
      - exists ws, r'. rewrite Es. now rewrite <- !app_assoc. }
    apply (keyword_opener_here kw k0 kw' prev _ Hkw Hk0 Hlast) in Ho.
    congruence.
  - cbn [flat_map Re.emit].
    rewrite match_positions_inner.
    + apply IH. apply keyword_before_brace_spec in E; [|apply Hlast].
      destruct E as (_ & _ & ->).
      replace (Re.matched [[]; kw; []; []]) with kw
        by (unfold Re.matched; simpl; now rewrite app_nil_r).
      now rewrite Hend, Hlast.
    + apply Hinside.
Qed.

(** The keyword pattern and the opener pattern match at the same
    places. *)
Lemma keyword_none_of_opener_none prev s :
  Pat.opener kw prev s = None -> Pat.keyword_before_brace kw prev s = None.
Proof.
  intros O.
  destruct (Pat.keyword_before_brace kw prev s) as [m|] eqn:K;
    [exfalso | reflexivity].
  assert (Pat.keyword_before_brace kw prev s <> None) as K'
    by (rewrite K; discriminate).
  apply (keyword_opener_here kw k0 kw' prev s Hkw Hk0 Hlast) in K'.
  destruct K' as (Hp & ws & r & -> & Hws).
  assert (Pat.opener kw prev (kw ++ ws ++ $"{" ++ r)
          = Some [[]; kw; ws; $"{"]) as S; [|congruence].
  apply opener_spec. split; [|eauto 6].
  rewrite Hp, Hkw. simpl. now rewrite Hk0.
Qed.

(** Renaming a second time changes nothing. *)
Lemma renamed_keyword_twice (x : text) :
  Re.sub (Pat.keyword_before_brace kw)
         (fun _ => kw ++ " "%char :: c2 :: suf)
         (Re.sub (Pat.keyword_before_brace kw)
                 (fun _ => kw ++ " "%char :: c2 :: suf) x)
  = Re.sub (Pat.keyword_before_brace kw)
           (fun _ => kw ++ " "%char :: c2 :: suf) x.
Proof.
  assert (proper (Pat.keyword_before_brace kw)) as Hp.
  { apply keyword_before_brace_proper; [rewrite Hkw; discriminate|].
    exact Hlast. }
  set (y := Re.sub _ _ x).
  unfold Re.sub at 1.
  apply (scanned_no_match_identity (Pat.keyword_before_brace kw)
           (fun _ => kw ++ " "%char :: c2 :: suf) None y
           (Re.finditer (Pat.keyword_before_brace kw) y)).
  - apply finditer_scanned, Hp.
  - intros a b E Hb. apply keyword_none_of_opener_none.
    apply (match_positions_none (Pat.opener kw) y None 0); auto.
    unfold y, Re.sub.
    apply (renamed_keyword_no_opener None x); [|reflexivity].
    apply finditer_scanned, Hp.
Qed.

End Keyword.

Lemma technique_inside_none (prev' : option ascii) (T : text) :
  forall b1 c b2,
    $"technique" ++ $" BaseTechnique" = b1 ++ c :: b2 ->
    Pat.opener $"technique" (Re.prev_after b1 prev') (c :: b2 ++ T) = None.
Proof.
  intros b1 c b2 E. simpl in E.
  destruct b1 as [|x b1].
  { injection E as <- <-. unfold Pat.opener, Re.wordb.
    destruct (xorb _ _); reflexivity. }
  injection E as <- E.
  repeat (destruct b1 as [|? b1];
          [injection E as <- <-; reflexivity | injection E as <- E]).
  destruct b1; discriminate E.
Qed.

(** X4. Applying the technique renaming to its own output changes nothing:
    a renamed technique is no longer followed by a brace. *)
Theorem rename_technique_idempotent (x : text) :
  rename_technique (rename_technique x) = rename_technique x.
Proof.
  apply (renamed_keyword_twice $"technique" "t"%char $"echnique"
           "B"%char $"aseTechnique"); try reflexivity.
  - vm_compute. intuition discriminate.
  - discriminate.
  - intros. apply technique_inside_none. assumption.
Qed.

(** X5. Applying the texture_unit renaming to its own output changes
    nothing. *)
Theorem rename_texture_unit_idempotent (x : text) :
  rename_texture_unit (rename_texture_unit x) = rename_texture_unit x.
Proof.
  apply (renamed_keyword_twice $"texture_unit" "t"%char $"exture_unit"
           "D"%char $"iffuse_Map"); try reflexivity.
  - vm_compute. intuition discriminate.
  - discriminate.
  - intros. apply texture_unit_inside_none. assumption.
Qed.

Lemma scanned_pass_identity prev s evs :
  scanned Pat.pass_block prev s evs ->
  Str.contains $"texture_unit" s = false ->
  flat_map (Re.emit replace_pass) evs = s.
Proof.
  induction 1 as [prev | prev c s evs E _ IH | prev m s evs E Hne _ IH];
    intros Hc; simpl.
  - reflexivity.
  - f_equal. apply IH. now apply (contains_false_app _ [c] s) in Hc.
  - apply contains_false_app in Hc. destruct Hc as [Hm Hs].
    unfold replace_pass. rewrite Hm. f_equal. auto.
Qed.

(** X6. An inner content in which [texture_unit] does not occur is left as
    it is by the renaming of the pass blocks: no pass is renamed. *)
Theorem rename_pass_without_texture_unit (x : text) :
  Str.contains $"texture_unit" x = false -> rename_pass x = x.
Proof.
  intros H. unfold rename_pass, Re.sub.
  apply (scanned_pass_identity None); [|exact H].
  apply finditer_scanned, pass_block_proper.
Qed.

Lemma rename_pass_without_texture_unit_witness :
  rename_pass $" pass { ambient 1 1 1 } " = $" pass { ambient 1 1 1 } ".
Proof.
  apply (rename_pass_without_texture_unit $" pass { ambient 1 1 1 } ").
  vm_compute. reflexivity.
Defined.

(** A text without the keyword goes through the renaming of the keyword
    unchanged. *)
Lemma renamed_keyword_absent (kw : text) (k0 : ascii) (kw' : text)
    (repl : Re.chunks -> text) (x : text) :
  kw = k0 :: kw' -> Char.is_word k0 = true ->
  (forall p, Re.word_opt (Re.prev_after kw p) = true) ->
  Str.contains kw x = false ->
  Re.sub (Pat.keyword_before_brace kw) repl x = x.
Proof.
  intros Hkw Hk0 Hlast Hc. unfold Re.sub.
  apply (scanned_no_match_identity (Pat.keyword_before_brace kw) repl None x
           (Re.finditer (Pat.keyword_before_brace kw) x)).
  - apply finditer_scanned, keyword_before_brace_proper;
      [rewrite Hkw; discriminate | exact Hlast].
  - intros a b E _.
    destruct (Pat.keyword_before_brace kw (Re.prev_after a None) b) eqn:K;
      [exfalso | reflexivity].
    assert (Pat.keyword_before_brace kw (Re.prev_after a None) b <> None)
      as K' by (rewrite K; discriminate).
    apply (keyword_opener_here kw k0 kw' _ _ Hkw Hk0 Hlast) in K'.
    destruct K' as (_ & ws & r & -> & _).
    apply contains_false_iff in Hc. apply Hc.
    exists a, (ws ++ $"{" ++ r). exact E.
Qed.

(** X7. An inner content in which [technique] does not occur is left as it
    is by the renaming of the technique. *)
Theorem rename_technique_without_keyword (x : text) :
  Str.contains $"technique" x = false -> rename_technique x = x.
Proof.
  apply (renamed_keyword_absent $"technique" "t"%char $"echnique");
    reflexivity.
Qed.

Lemma rename_technique_without_keyword_witness :
  rename_technique $" pass { texture_unit { } } "
  = $" pass { texture_unit { } } ".
Proof.
  apply (rename_technique_without_keyword $" pass { texture_unit { } } ").
  vm_compute. reflexivity.
Defined.

(** X8. An inner content in which [texture_unit] does not occur is left as
    it is by the renaming of the texture unit. *)
Theorem rename_texture_unit_without_keyword (x : text) :
  Str.contains $"texture_unit" x = false -> rename_texture_unit x = x.
Proof.
  apply (renamed_keyword_absent $"texture_unit" "t"%char $"exture_unit");
    reflexivity.
Qed.

Lemma rename_texture_unit_without_keyword_witness :
  rename_texture_unit $" technique { pass { } } "
  = $" technique { pass { } } ".
Proof.
  apply (rename_texture_unit_without_keyword $" technique { pass { } } ").
  vm_compute. reflexivity.
Defined.

(** ** One file *)

Lemma lookup_store_other (k k' v : text) (l : list (text * text)) :
  k' <> k -> lookup k' (store k v l) = lookup k' l.
Proof.
  intros H. induction l as [|[a b] l IH]; simpl.
  - destruct (Str.eqb k' k) eqn:E; [apply str_eqb_eq in E; tauto | reflexivity].
  - destruct (Str.eqb k a) eqn:E; simpl.
    + apply str_eqb_eq in E. subst a.
      destruct (Str.eqb k' k) eqn:E'; [apply str_eqb_eq in E'; tauto|].
      reflexivity.
    + now rewrite IH.
Qed.

Lemma names_store (k v : text) (l : list (text * text)) :
  lookup k l <> None -> map fst (store k v l) = map fst l.
Proof.
  induction l as [|[a b] l IH]; simpl; [tauto|].
  destruct (Str.eqb k a) eqn:E; simpl.
  - intros _. apply str_eqb_eq in E. now subst.
  - intros H. now rewrite IH.
Qed.

(** The loop over the blocks changes the counters of blocks only. *)
Lemma process_materials_frame (materials : list text) :
  forall acc cnt w,
    let w' := snd (process_materials materials acc cnt w) in
    fs w' = fs w /\ ops w' = ops w /\ stdout w' = stdout w
    /\ processed_files w' = processed_files w.
Proof.
  induction materials as [|m l IH]; intros acc cnt w; cbn zeta.
  - simpl. auto.
  - cbn [process_materials]. unfold bind at 1, incr_processed_materials at 1.
    destruct (is_eligible_material m).
    + unfold bind at 1, lift at 1.
      destruct (transform_material m) as [t|e]; [|simpl; auto].
      unfold bind at 1, incr_updated_materials at 1.
      match goal with
      | |- context [process_materials l ?a ?c ?v] =>
          pose proof (IH a c v) as H
      end.
      cbn zeta in H. destruct H as (H1 & H2 & H3 & H4).
      repeat split; (etransitivity; [eassumption | reflexivity]).
    + match goal with
      | |- context [process_materials l ?a ?c ?v] =>
          pose proof (IH a c v) as H
      end.
      cbn zeta in H. destruct H as (H1 & H2 & H3 & H4).
      repeat split; (etransitivity; [eassumption | reflexivity]).
Qed.

Lemma transform_material_exn (t : text) (e : exn) :
  transform_material t = Raise e -> e = AttributeError.
Proof.
  unfold transform_material.
  destruct (Re.re_match Pat.name t); [discriminate | now intros [= <-]].
Qed.

Lemma rewrite_all_exn (materials : list text) (e : exn) :
  rewrite_all materials = Raise e -> e = AttributeError.
Proof.
  induction materials as [|m l IH]; simpl; [discriminate|].
  destruct (is_eligible_material m).
  - destruct (transform_material m) as [t|e'] eqn:T.
    + destruct (rewrite_all l); [discriminate|]. intros [= <-]. auto.
    + intros [= <-]. eapply transform_material_exn, T.
  - destruct (rewrite_all l); [discriminate|]. intros [= <-]. auto.
Qed.

(** The loop over the blocks raises when a transformation does. *)
Lemma process_materials_raise (materials : list text) (e : exn) :
  rewrite_all materials = Raise e ->
  forall acc cnt w, fst (process_materials materials acc cnt w) = Raise e.
Proof.
  induction materials as [|m l IH]; simpl; [discriminate|].
  intros H acc cnt w. unfold bind at 1, incr_processed_materials at 1.
  destruct (is_eligible_material m).
  - unfold bind at 1, lift at 1.
    destruct (transform_material m) as [t|e'] eqn:T.
    + unfold bind at 1, incr_updated_materials at 1.
      destruct (rewrite_all l) as [|e'']; [discriminate|].
      injection H as <-. now apply IH.
    + injection H as <-. reflexivity.
  - destruct (rewrite_all l) as [|e'']; [discriminate|].
    injection H as <-. now apply IH.
Qed.

(** X9. [process_file] leaves every other file alone, in the folder and in
    the backup folder, whether it returns or raises; it creates and
    removes no file of the folder. *)
Theorem process_file_other_files (file_name other : text) (w : world) :
  other <> file_name ->
  let w' := snd (process_file file_name w) in
  lookup other (entries (fs w')) = lookup other (entries (fs w))
  /\ option_map (lookup other) (backup (fs w'))
     = option_map (lookup other) (backup (fs w))
  /\ map fst (entries (fs w')) = map fst (entries (fs w))
  /\ input_exists (fs w') = input_exists (fs w).
Proof.
  intros Hne. cbn zeta.
  remember (process_file file_name w) as res eqn:E.
  unfold process_file in E.
  unfold bind at 1, print at 1 in E.
  unfold bind at 1, read_file at 1 in E.
  unfold bind at 1, get_fs at 1 in E. cbn [fs] in E.
  destruct (lookup file_name (entries (fs w))) as [content|] eqn:L;
    [|subst res; simpl; auto].
  unfold ret at 1 in E. unfold bind at 1 in E.
  match type of E with
  | context [process_materials ?m ?a ?c ?v] =>
      pose proof (process_materials_frame m a c v) as F;
      destruct (process_materials m a c v) as [[r|e] w1]
  end; cbn zeta in F; cbn [snd fs] in F; destruct F as (F & _);
    [|subst res; cbn [snd]; rewrite F; auto].
  destruct (0 <? snd r).
  - unfold bind at 1, copy2 at 1 in E. unfold bind at 1, get_fs at 1 in E.
    rewrite F, L in E.
    destruct (backup (fs w)) as [b|] eqn:B;
      [|unfold raise in E; subst res; cbn [snd]; rewrite F, B; auto].
    unfold set_fs at 1 in E.
    unfold bind at 1, write_file at 1 in E.
    unfold bind at 1, get_fs at 1 in E.
    cbn [fs] in E. unfold set_fs at 1 in E.
    unfold bind at 1, print at 1 in E. unfold incr_processed_files in E.
    subst res. cbn [snd fs entries backup input_exists option_map].
    rewrite !lookup_store_other by exact Hne.
    rewrite names_store by (rewrite L; discriminate). auto.
  - unfold print in E. subst res. cbn [snd fs]. rewrite F. auto.
Qed.

Lemma process_file_other_files_witness :
  let w' := snd (process_file $"wall.material" (start ExRun.folder)) in
  lookup $"plain.material" (entries (fs w'))
  = lookup $"plain.material" (entries (fs (start ExRun.folder)))
  /\ option_map (lookup $"plain.material") (backup (fs w'))
     = option_map (lookup $"plain.material")
                  (backup (fs (start ExRun.folder)))
  /\ map fst (entries (fs w')) = map fst (entries (fs (start ExRun.folder)))
  /\ input_exists (fs w') = input_exists (fs (start ExRun.folder)).
Proof.
  apply (process_file_other_files $"wall.material" $"plain.material"
           (start ExRun.folder)).
  discriminate.
Defined.

Lemma process_file_raise (file_name content : text) (w : world) :
  lookup file_name (entries (fs w)) = Some content ->
  transforms_ok content = false ->
  let r := process_file file_name w in
  fst r = Raise AttributeError
  /\ fs (snd r) = fs w /\ ops (snd r) = ops w
  /\ stdout (snd r) = stdout w ++ [MsgProcessing file_name]
  /\ processed_files (snd r) = processed_files w.
Proof.
  intros L T. cbn zeta. unfold transforms_ok in T.
  destruct (rewrite_all (parse_material_file content)) as [|e] eqn:R;
    [discriminate|].
  pose proof (rewrite_all_exn _ _ R) as ->.
  remember (process_file file_name w) as res eqn:E.
  unfold process_file in E.
  unfold bind at 1, print at 1 in E.
  unfold bind at 1, read_file at 1 in E.
  unfold bind at 1, get_fs at 1 in E. cbn [fs] in E. rewrite L in E.
  unfold ret at 1 in E. unfold bind at 1 in E.
  match type of E with
  | context [process_materials ?m ?a ?c ?v] =>
      pose proof (process_materials_frame m a c v) as F;
      pose proof (process_materials_raise m _ R a c v) as E';
      destruct (process_materials m a c v) as [[r|e] w1]
  end; cbn [fst] in E'; [discriminate|]. injection E' as ->.
  cbn zeta in F. cbn [snd fs ops stdout processed_files] in F.
  subst res. cbn [fst snd]. tauto.
Qed.

(** X10. When the transformation of a block of the file raises,
    [process_file] raises [AttributeError] after printing its first
    line: the file is neither copied nor overwritten, although blocks
    in front of the failing one may have been counted. *)
Theorem process_file_raises (file_name content : text) (w : world) :
  lookup file_name (entries (fs w)) = Some content ->
  transforms_ok content = false ->
  let r := process_file file_name w in
  fst r = Raise AttributeError
  /\ fs (snd r) = fs w /\ ops (snd r) = ops w
  /\ stdout (snd r) = stdout w ++ [MsgProcessing file_name]
  /\ processed_files (snd r) = processed_files w.
Proof. apply process_file_raise. Qed.

Lemma process_file_raises_witness :
  let r := process_file $"bad.material" (start ExRun.broken_folder) in
  fst r = Raise AttributeError
  /\ fs (snd r) = fs (start ExRun.broken_folder)
  /\ ops (snd r) = ops (start ExRun.broken_folder)
  /\ stdout (snd r)
     = stdout (start ExRun.broken_folder) ++ [MsgProcessing $"bad.material"]
  /\ processed_files (snd r) = processed_files (start ExRun.broken_folder).
Proof.
  apply (process_file_raises $"bad.material"
           $"material {pass{texture_unit{}}}" (start ExRun.broken_folder)).
  - vm_compute. reflexivity.
  - vm_compute. reflexivity.
Defined.

(** ** The run over a folder *)

Lemma lookup_app_notin (k : text) (pre l : list (text * text)) :
  ~ In k (map fst pre) -> lookup k (pre ++ l) = lookup k l.
Proof.
  induction pre as [|[a b] pre IH]; simpl; [reflexivity|].
  intros H. destruct (Str.eqb k a) eqn:E.
  - apply str_eqb_eq in E. subst. tauto.
  - apply IH. tauto.
Qed.

Lemma store_app_notin (k v : text) (pre l : list (text * text)) :
  ~ In k (map fst pre) -> store k v (pre ++ l) = pre ++ store k v l.
Proof.
  induction pre as [|[a b] pre IH]; simpl; [reflexivity|].
  intros H. destruct (Str.eqb k a) eqn:E.
  - apply str_eqb_eq in E. subst. tauto.
  - rewrite IH; tauto.
Qed.

Lemma existsb_eqb_in (k : text) (l : list text) :
  existsb (Str.eqb k) l = true <-> In k l.
Proof.
  rewrite existsb_exists. split.
  - intros (x & H & E). apply str_eqb_eq in E. now subst.
  - intros H. exists k. split; [exact H | apply str_eqb_refl].
Qed.

Lemma distinct_nodup (l : list text) : distinct l = true -> NoDup l.
Proof.
  induction l as [|k l IH]; simpl; [constructor|].
  rewrite andb_true_iff, negb_true_iff. intros [H1 H2].
  constructor; [|auto].
  rewrite <- existsb_eqb_in. congruence.
Qed.

Lemma glob_names (files : list (text * text)) :
  filter (Str.endswith $".material") (map fst files)
  = map fst (material_entries files).
Proof.
  unfold material_entries, is_material_file.
  induction files as [|[k v] l IH]; [reflexivity|].
  cbn [map filter fst].
  destruct (Str.endswith $".material" k); cbn [map fst]; [f_equal|];
    exact IH.
Qed.

Lemma nodup_names_filter (g : text * text -> bool)
    (l : list (text * text)) :
  NoDup (map fst l) -> NoDup (map fst (filter g l)).
Proof.
  induction l as [|p l IH]; simpl; [auto|].
  intros H. inversion H as [|x xs Hn Hd]; subst.
  destruct (g p); simpl; [|auto].
  constructor; [|auto].
  intros Hin. apply Hn. apply in_map_iff in Hin.
  destruct Hin as (q & E & Hq). apply filter_In in Hq.
  apply in_map_iff. exists q. tauto.
Qed.

Lemma transforms_ok_rewritten (content : text) :
  transforms_ok content = true ->
  exists updated,
    Forall2 rewritten (parse_material_file content) updated
    /\ rewritten_content content
       = if has_eligible content then output_content updated else content.
Proof.
  unfold transforms_ok, rewritten_content, has_eligible.
  destruct (rewrite_all (parse_material_file content)) as [u|] eqn:R;
    [|discriminate].
  intros _. exists u. split; [|reflexivity].
  now apply rewrite_all_rewritten.
Qed.

Lemma has_eligible_count (content : text) :
  (0 <? count_eligible (parse_material_file content)) = has_eligible content.
Proof.
  unfold has_eligible.
  destruct (existsb _ _) eqn:E.
  - apply Nat.ltb_lt.
    destruct (count_eligible (parse_material_file content)) eqn:C; [|lia].
    apply count_eligible_zero in C. congruence.
  - apply count_eligible_zero in E. now rewrite E.
Qed.

(** One file of the run. *)
Lemma process_file_step (k v : text) (pre post bk : list (text * text))
    (w : world) :
  entries (fs w) = pre ++ (k, v) :: post ->
  ~ In k (map fst pre) ->
  backup (fs w) = Some bk ->
  transforms_ok v = true ->
  process_file k w
  = (Ok tt,
     {| fs := {| input_exists := input_exists (fs w);
                 entries := pre ++ (k, rewritten_content v) :: post;
                 backup := Some (if has_eligible v then store k v bk
                                 else bk) |};
        ops := ops w ++ (if has_eligible v then file_ops (k, v) else []);
        stdout := stdout w ++ file_messages (k, v);
        processed_files :=
          processed_files w + (if has_eligible v then 1 else 0);
        processed_materials :=
          processed_materials w + length (parse_material_file v);
        updated_materials :=
          updated_materials w + count_eligible (parse_material_file v) |}).
Proof.
  intros He Hk Hb Ht.
  destruct (transforms_ok_rewritten v Ht) as (u & Hu & Hr).
  assert (lookup k (entries (fs w)) = Some v) as Hl.
  { rewrite He, lookup_app_notin by exact Hk. simpl.
    now rewrite str_eqb_refl. }
  rewrite (process_file_effect k v bk w u Hl Hb Hu). cbn zeta.
  rewrite has_eligible_count.
  unfold file_ops, file_messages. cbn [fst snd].
  destruct (has_eligible v); rewrite !Hr.
  - rewrite He, store_app_notin by exact Hk. simpl.
    rewrite str_eqb_refl. rewrite <- !app_assoc. reflexivity.
  - destruct w as [[ie en b] o so pf pm um]. cbn in *. subst.
    rewrite app_nil_r, Nat.add_0_r, <- app_assoc. reflexivity.
Qed.

Lemma material_entries_cons (k v : text) (l : list (text * text)) :
  material_entries ((k, v) :: l)
  = if is_material_file k then (k, v) :: material_entries l
    else material_entries l.
Proof. reflexivity. Qed.

Lemma updated_entries_cons (k v : text) (l : list (text * text)) :
  updated_entries ((k, v) :: l)
  = if is_material_file k && has_eligible v
    then (k, v) :: updated_entries l
    else updated_entries l.
Proof.
  unfold updated_entries. rewrite material_entries_cons.
  destruct (is_material_file k); [|reflexivity].
  cbn [filter snd andb]. reflexivity.
Qed.

(** The loop of [run] over the files [mid] of the folder, when no
    transformation raises. *)
Lemma for_each_process_file (mid : list (text * text)) :
  forall (pre post bk : list (text * text)) (w : world),
    entries (fs w) = pre ++ mid ++ post ->
    NoDup (map fst (pre ++ mid)) ->
    backup (fs w) = Some bk ->
    forallb (fun p => transforms_ok (snd p)) (material_entries mid) = true ->
    for_each (map fst (material_entries mid)) process_file w
    = (Ok tt,
       {| fs := {| input_exists := input_exists (fs w);
                   entries := pre ++ map rewritten_entry mid ++ post;
                   backup := Some (backed_up (updated_entries mid) bk) |};
          ops := ops w ++ flat_map file_ops (updated_entries mid);
          stdout := stdout w ++ flat_map file_messages (material_entries mid);
          processed_files := processed_files w + length (updated_entries mid);
          processed_materials :=
            processed_materials w + blocks_in (material_entries mid);
          updated_materials :=
            updated_materials w + eligible_in (material_entries mid) |}).
Proof.
  induction mid as [|[k v] mid IH]; intros pre post bk w He Hn Hb Ht.
  - destruct w as [[ie en b] o so pf pm um]. cbn in *. subst.
    unfold ret. rewrite !app_nil_r, !Nat.add_0_r. reflexivity.
  - rewrite map_app in Hn. cbn [map fst] in Hn.
    assert (~ In k (map fst pre)) as Hk.
    { apply NoDup_remove_2 in Hn. rewrite in_app_iff in Hn. tauto. }
    assert (forall x, NoDup (map fst ((pre ++ [(k, x)]) ++ mid))) as Hn'.
    { intros x. rewrite !map_app. cbn [map fst].
      now rewrite <- app_assoc. }
    rewrite updated_entries_cons, material_entries_cons in *.
    unfold rewritten_entry at 1. cbn [map fst snd].
    destruct (is_material_file k) eqn:Ek; cbn [andb].
    + cbn [forallb snd] in Ht. apply andb_true_iff in Ht.
      destruct Ht as [Hv Ht].
      cbn [map fst for_each]. unfold bind at 1.
      rewrite (process_file_step k v pre (mid ++ post) bk w He Hk Hb Hv).
      rewrite (IH (pre ++ [(k, rewritten_content v)]) post
                  (if has_eligible v then store k v bk else bk)).
      * cbn [fs input_exists entries backup ops stdout processed_files
               processed_materials updated_materials].
        unfold blocks_in, eligible_in.
        destruct (has_eligible v);
          cbn [flat_map backed_up fold_left length map list_sum fst snd];
          rewrite <- ?app_assoc, <- ?Nat.add_assoc; reflexivity.
      * cbn [fs entries]. now rewrite <- app_assoc.
      * apply Hn'.
      * reflexivity.
      * exact Ht.
    + rewrite (IH (pre ++ [(k, v)]) post bk w); auto.
      * now rewrite <- !app_assoc.
      * rewrite He. now rewrite <- app_assoc.
Qed.


Lemma rewritten_entry_other (l : list (text * text)) :
  material_entries l = [] -> map rewritten_entry l = l.
Proof.
  induction l as [|[k v] l IH]; [reflexivity|].
  rewrite material_entries_cons. cbn [map]. unfold rewritten_entry at 1.
  cbn [fst snd]. destruct (is_material_file k); [discriminate|].
  intros H. now rewrite IH.
Qed.

Lemma updated_entries_nil (l : list (text * text)) :
  material_entries l = [] -> updated_entries l = [].
Proof. unfold updated_entries. now intros ->. Qed.

(** [run] when no transformation raises. *)
Lemma run_effect (w : world) (b : list (text * text)) :
  backup (fs w) = Some b ->
  NoDup (map fst (entries (fs w))) ->
  forallb (fun p => transforms_ok (snd p))
          (material_entries (entries (fs w))) = true ->
  let en := entries (fs w) in
  let pf := processed_files w + length (updated_entries en) in
  let pm := processed_materials w + blocks_in (material_entries en) in
  let um := updated_materials w + eligible_in (material_entries en) in
  run w
  = (Ok tt,
     {| fs := {| input_exists := input_exists (fs w);
                 entries := map rewritten_entry en;
                 backup := Some (backed_up (updated_entries en) b) |};
        ops := ops w ++ flat_map file_ops (updated_entries en);
        stdout :=
          stdout w ++ [MsgScanning; MsgBackupFolder]
            ++ match material_entries en with
               | [] => [MsgNoFiles]
               | _ => flat_map file_messages (material_entries en)
                        ++ [MsgSummary pf pm um]
               end;
        processed_files := pf;
        processed_materials := pm;
        updated_materials := um |}).
Proof.
  intros Hb Hn Ht en pf pm um.
  unfold run. unfold bind at 1, print at 1.
  unfold bind at 1, print at 1.
  unfold bind at 1, glob_material at 1.
  unfold bind at 1, get_fs at 1, ret at 1.
  cbn [fs stdout ops processed_files processed_materials updated_materials].
  fold en. rewrite glob_names.
  set (w0 := {| fs := fs w; ops := ops w;
                stdout := (stdout w ++ [MsgScanning]) ++ [MsgBackupFolder];
                processed_files := processed_files w;
                processed_materials := processed_materials w;
                updated_materials := updated_materials w |}).
  pose proof (for_each_process_file en [] [] b w0) as Hrun.
  subst w0.
  cbn [fs input_exists ops stdout processed_files processed_materials
         updated_materials app] in Hrun.
  rewrite !app_nil_r in Hrun.
  specialize (Hrun eq_refl Hn Hb Ht). fold pf pm um in Hrun.
  destruct (material_entries en) as [|p l] eqn:Em.
  - cbn [map]. unfold print. cbn [fs ops stdout processed_files
      processed_materials updated_materials].
    subst pf pm um. rewrite (updated_entries_nil en Em).
    rewrite (rewritten_entry_other en Em).
    unfold blocks_in, eligible_in. cbn.
    rewrite !Nat.add_0_r, app_nil_r, <- !app_assoc.
    destruct w as [[ie e' b'] o so pf pm um]. cbn in *. subst.
    reflexivity.
  - cbn [map fst] in *. unfold bind at 1. rewrite Hrun.
    unfold print_summary, print.
    cbn [fs ops stdout processed_files processed_materials
           updated_materials].
    rewrite <- !app_assoc. reflexivity.
Qed.

(** The world the script leaves when no transformation raises. *)
Lemma main_effect (f : filesystem) :
  input_exists f = true ->
  lookup backup_name (entries f) = None ->
  NoDup (map fst (entries f)) ->
  forallb (fun p => transforms_ok (snd p)) (material_entries (entries f))
  = true ->
  main (start f)
  = (Ok tt,
     {| fs := {| input_exists := true;
                 entries := map rewritten_entry (entries f);
                 backup := Some (backed_up (updated_entries (entries f))
                                           (backup_or_empty f)) |};
        ops := match backup f with
               | Some _ => []
               | None => [Mkdir]
               end ++ flat_map file_ops (updated_entries (entries f));
        stdout :=
          [MsgScanning; MsgBackupFolder]
            ++ match material_entries (entries f) with
               | [] => [MsgNoFiles]
               | _ =>
                   flat_map file_messages (material_entries (entries f))
                     ++ [MsgSummary
                           (length (updated_entries (entries f)))
                           (blocks_in (material_entries (entries f)))
                           (eligible_in (material_entries (entries f)))]
               end;
        processed_files := length (updated_entries (entries f));
        processed_materials := blocks_in (material_entries (entries f));
        updated_materials := eligible_in (material_entries (entries f)) |}).
Proof.
  destruct f as [ie en bk]. cbn [input_exists entries backup].
  intros -> Hf Hn Ht.
  unfold main, init. unfold bind at 1. unfold bind at 1.
  unfold mkdir_backup. unfold bind at 1, get_fs at 1. unfold start.
  cbn [fs input_exists backup entries]. unfold backup_or_empty.
  cbn [backup]. rewrite ?Hf.
  destruct bk as [b|].
  - unfold ret at 1. cbn [fs ops stdout].
    rewrite (run_effect _ b); [reflexivity | reflexivity | exact Hn | exact Ht].
  - unfold set_fs at 1. cbn [fs ops stdout app].
    rewrite (run_effect _ []); [reflexivity | reflexivity | exact Hn | exact Ht].
Qed.

Lemma backed_up_other (k : text) (l : list (text * text)) :
  forall bk,
    ~ In k (map fst l) -> lookup k (backed_up l bk) = lookup k bk.
Proof.
  unfold backed_up.
  induction l as [|[a b] l IH]; intros bk H; cbn [fold_left fst snd].
  - reflexivity.
  - cbn [map fst] in H. rewrite IH by (simpl in H; tauto).
    apply lookup_store_other. intros ->. apply H. now left.
Qed.

Lemma backed_up_lookup (k v : text) (l : list (text * text)) :
  forall bk,
    NoDup (map fst l) -> In (k, v) l -> lookup k (backed_up l bk) = Some v.
Proof.
  induction l as [|[a b] l IH]; intros bk Hn Hin; [destruct Hin|].
  cbn [map fst] in Hn. inversion Hn as [|x xs Ha Hd]; subst.
  destruct Hin as [[= -> ->] | Hin].
  - unfold backed_up. cbn [fold_left fst snd].
    fold (backed_up l (store k v bk)).
    rewrite backed_up_other by exact Ha. apply lookup_store.
  - unfold backed_up. cbn [fold_left fst snd].
    apply (IH (store a b bk) Hd Hin).
Qed.

(** X11. Run on an existing folder without a regular file named
    [old_materials], in which no transformation raises, the script
    returns and keeps the files of the folder and their order; every
    file matching [*.material] holds the text [process_file] writes for
    it, which is its old content when no block of it is eligible, and
    every other file is as it was. *)
Theorem main_rewrites_material_files (f : filesystem) :
  input_exists f = true ->
  lookup backup_name (entries f) = None ->
  distinct (map fst (entries f)) = true ->
  forallb (fun p => transforms_ok (snd p)) (material_entries (entries f))
  = true ->
  fst (main (start f)) = Ok tt
  /\ entries (fs (snd (main (start f)))) = map rewritten_entry (entries f).
Proof.
  intros Hi Hf Hd Ht. apply distinct_nodup in Hd.
  rewrite (main_effect f Hi Hf Hd Ht). split; reflexivity.
Qed.

Lemma main_rewrites_material_files_witness :
  fst (main (start ExRun.folder)) = Ok tt
  /\ entries (fs (snd (main (start ExRun.folder))))
     = map rewritten_entry (entries ExRun.folder).
Proof.
  apply (main_rewrites_material_files ExRun.folder);
    vm_compute; reflexivity.
Defined.

(** X12. After a run on an existing folder without a regular file
    named [old_materials], in which no transformation raises, the backup
    folder holds, under its own name, the
    original content of every material file with an eligible block;
    the other files of the backup folder are as they were, or absent as
    they were. *)
Theorem main_backs_up_originals (f : filesystem) :
  input_exists f = true ->
  lookup backup_name (entries f) = None ->
  distinct (map fst (entries f)) = true ->
  forallb (fun p => transforms_ok (snd p)) (material_entries (entries f))
  = true ->
  exists b,
    backup (fs (snd (main (start f)))) = Some b
    /\ (forall k v,
           In (k, v) (updated_entries (entries f)) -> lookup k b = Some v)
    /\ (forall k,
           ~ In k (map fst (updated_entries (entries f))) ->
           lookup k b = lookup k (backup_or_empty f)).
Proof.
  intros Hi Hf Hd Ht. apply distinct_nodup in Hd.
  rewrite (main_effect f Hi Hf Hd Ht). cbn [snd fs backup].
  eexists. split; [reflexivity|]. split.
  - intros k v Hin. apply backed_up_lookup; [|exact Hin].
    unfold updated_entries, material_entries.
    now apply nodup_names_filter, nodup_names_filter.
  - intros k Hk. now apply backed_up_other.
Qed.

Lemma main_backs_up_originals_witness :
  exists b,
    backup (fs (snd (main (start ExRun.folder)))) = Some b
    /\ (forall k v,
           In (k, v) (updated_entries (entries ExRun.folder)) ->
           lookup k b = Some v)
    /\ (forall k,
           ~ In k (map fst (updated_entries (entries ExRun.folder))) ->
           lookup k b = lookup k (backup_or_empty ExRun.folder)).
Proof.
  apply (main_backs_up_originals ExRun.folder); vm_compute; reflexivity.
Defined.

(** X13. The file-system operations of a run on an existing folder
    without a regular file named [old_materials], in which no
    transformation raises: the backup folder is
    created when it was absent; then, for every material file with an
    eligible block and in the order of the folder, the file is copied
    and then written.  No other file is copied or written. *)
Theorem main_file_operations (f : filesystem) :
  input_exists f = true ->
  lookup backup_name (entries f) = None ->
  distinct (map fst (entries f)) = true ->
  forallb (fun p => transforms_ok (snd p)) (material_entries (entries f))
  = true ->
  ops (snd (main (start f)))
  = match backup f with
    | Some _ => []
    | None => [Mkdir]
    end ++ flat_map file_ops (updated_entries (entries f)).
Proof.
  intros Hi Hf Hd Ht. apply distinct_nodup in Hd.
  rewrite (main_effect f Hi Hf Hd Ht). reflexivity.
Qed.

Lemma main_file_operations_witness :
  ops (snd (main (start ExRun.folder)))
  = match backup ExRun.folder with
    | Some _ => []
    | None => [Mkdir]
    end ++ flat_map file_ops (updated_entries (entries ExRun.folder)).
Proof.
  apply (main_file_operations ExRun.folder); vm_compute; reflexivity.
Defined.

(** X14. What a run on an existing folder without a regular file named
    [old_materials], in which no transformation raises, prints when the
    folder has a material file: the two
    header lines, for every material file its name and then the number
    of its updated blocks or that it has none, and the summary with the
    number of files written, the number of blocks of all material files
    and the number of eligible blocks among them. *)
Theorem main_prints_summary (f : filesystem) :
  input_exists f = true ->
  lookup backup_name (entries f) = None ->
  distinct (map fst (entries f)) = true ->
  forallb (fun p => transforms_ok (snd p)) (material_entries (entries f))
  = true ->
  existsb (fun p => is_material_file (fst p)) (entries f) = true ->
  stdout (snd (main (start f)))
  = [MsgScanning; MsgBackupFolder]
      ++ flat_map file_messages (material_entries (entries f))
      ++ [MsgSummary (length (updated_entries (entries f)))
                     (blocks_in (material_entries (entries f)))
                     (eligible_in (material_entries (entries f)))].
Proof.
  intros Hi Hf Hd Ht He. apply distinct_nodup in Hd.
  rewrite (main_effect f Hi Hf Hd Ht). cbn [snd stdout].
  destruct (material_entries (entries f)) as [|p l] eqn:Em; [|reflexivity].
  apply existsb_exists in He. destruct He as (p & Hp & Hm).
  assert (In p (material_entries (entries f))) as Hin
    by (apply filter_In; auto).
  rewrite Em in Hin. destruct Hin.
Qed.

Lemma main_prints_summary_witness :
  stdout (snd (main (start ExRun.folder)))
  = [MsgScanning; MsgBackupFolder]
      ++ flat_map file_messages (material_entries (entries ExRun.folder))
      ++ [MsgSummary (length (updated_entries (entries ExRun.folder)))
                     (blocks_in (material_entries (entries ExRun.folder)))
                     (eligible_in (material_entries (entries ExRun.folder)))].
Proof.
  apply (main_prints_summary ExRun.folder); vm_compute; reflexivity.
Defined.








(** X17. In an existing folder that has no backup folder but a regular
    file named [old_materials], constructing the updater raises
    [FileExistsError]: nothing is printed, and no file is read, copied
    or written. *)
Theorem main_backup_name_taken (f : filesystem) (x : text) :
  input_exists f = true ->
  backup f = None ->
  lookup backup_name (entries f) = Some x ->
  main (start f) = (Raise FileExistsError, start f).
Proof.
  destruct f as [ie en bk]. cbn [input_exists entries backup].
  intros -> -> Hf.
  unfold main, init, mkdir_backup, bind, get_fs, raise, start.
  cbn [fs input_exists backup entries]. rewrite Hf. reflexivity.
Qed.

Lemma main_backup_name_taken_witness :
  main (start {| input_exists := true;
                 entries :=
                   [($"old_materials", $"notes");
                    ($"wall.material",
                     $"material Wall { pass { texture_unit { } } }")];
                 backup := None |})
  = (Raise FileExistsError,
     start {| input_exists := true;
              entries :=
                [($"old_materials", $"notes");
                 ($"wall.material",
                  $"material Wall { pass { texture_unit { } } }")];
              backup := None |}).
Proof.
  apply (main_backup_name_taken
           {| input_exists := true;
              entries :=
                [($"old_materials", $"notes");
                 ($"wall.material",
                  $"material Wall { pass { texture_unit { } } }")];
              backup := None |} $"notes");
    reflexivity.
Defined.

(** ** The counters *)

Lemma process_materials_counters (materials : list text) :
  forall acc cnt w,
    let r := process_materials materials acc cnt w in
    updated_materials (snd r) + processed_materials w
    <= processed_materials (snd r) + updated_materials w
    /\ updated_materials w <= updated_materials (snd r)
    /\ forall u c,
         fst r = Ok (u, c) ->
         c + updated_materials w = cnt + updated_materials (snd r).
Proof.
  induction materials as [|m l IH]; intros acc cnt w; cbn zeta.
  - simpl. repeat split; try lia. intros u c [= _ <-]. lia.
  - remember (process_materials (m :: l) acc cnt w) as res eqn:E.
    cbn [process_materials] in E.
    unfold bind at 1, incr_processed_materials at 1 in E.
    destruct (is_eligible_material m).
    + unfold bind at 1, lift at 1 in E.
      destruct (transform_material m) as [t|e].
      * unfold bind at 1, incr_updated_materials at 1 in E.
        match type of E with
        | context [process_materials l ?a ?c ?v] =>
            pose proof (IH a c v) as H; cbn zeta in H
        end.
        rewrite <- E in H.
        cbn [snd fst updated_materials processed_materials] in H.
        destruct H as (H1 & H2 & H3). repeat split; try lia.
        intros u c E'. specialize (H3 u c E'). lia.
      * subst res. cbn [snd fst updated_materials processed_materials].
        repeat split; try lia. discriminate.
    + match type of E with
      | context [process_materials l ?a ?c ?v] =>
          pose proof (IH a c v) as H; cbn zeta in H
      end.
      rewrite <- E in H.
      cbn [snd fst updated_materials processed_materials] in H.
      destruct H as (H1 & H2 & H3). repeat split; try lia.
      intros u c E'. specialize (H3 u c E'). lia.
Qed.

Lemma process_file_ordered (file_name : text) (w : world) :
  counters_ordered w -> counters_ordered (snd (process_file file_name w)).
Proof.
  unfold counters_ordered. intros Hw.
  remember (process_file file_name w) as res eqn:E.
  unfold process_file in E.
  unfold bind at 1, print at 1 in E.
  unfold bind at 1, read_file at 1 in E.
  unfold bind at 1, get_fs at 1 in E. cbn [fs] in E.
  destruct (lookup file_name (entries (fs w))) as [content|];
    [|subst res; simpl; auto].
  unfold ret at 1 in E. unfold bind at 1 in E.
  match type of E with
  | context [process_materials ?m ?a ?c ?v] =>
      pose proof (process_materials_frame m a c v) as F;
      pose proof (process_materials_counters m a c v) as C;
      destruct (process_materials m a c v) as [[r|e] w1]
  end; cbn zeta in F, C;
    cbn [fst snd fs ops stdout processed_files processed_materials
           updated_materials] in F, C;
    destruct F as (F & _ & _ & F4); destruct C as (C1 & C2 & C3);
    [|subst res; cbn [snd]; lia].
  specialize (C3 (fst r) (snd r)).
  destruct r as [u c]. cbn [fst snd] in *. specialize (C3 eq_refl).
  destruct (0 <? c) eqn:Ec.
  - apply Nat.ltb_lt in Ec.
    unfold bind at 1, copy2 at 1 in E. unfold bind at 1, get_fs at 1 in E.
    destruct (lookup file_name (entries (fs w1)));
      [|unfold raise in E; subst res; cbn [snd]; lia].
    destruct (backup (fs w1));
      [|unfold raise in E; subst res; cbn [snd]; lia].
    unfold set_fs at 1 in E.
    unfold bind at 1, write_file at 1 in E.
    unfold bind at 1, get_fs at 1 in E.
    cbn [fs] in E. unfold set_fs at 1 in E.
    unfold bind at 1, print at 1 in E. unfold incr_processed_files in E.
    subst res.
    cbn [snd processed_files processed_materials updated_materials]. lia.
  - unfold print in E. subst res.
    cbn [snd processed_files processed_materials updated_materials]. lia.
Qed.

Lemma for_each_ordered (files : list text) :
  forall w,
    counters_ordered w ->
    counters_ordered (snd (for_each files process_file w)).
Proof.
  induction files as [|n l IH]; intros w Hw; [exact Hw|].
  cbn [for_each]. unfold bind.
  pose proof (process_file_ordered n w Hw) as H.
  destruct (process_file n w) as [[[]|e] w1]; cbn [snd] in H |- *; auto.
Qed.

Lemma run_ordered (w : world) :
  counters_ordered w -> counters_ordered (snd (run w)).
Proof.
  intros Hw. remember (run w) as res eqn:E.
  unfold run in E. unfold bind at 1, print at 1 in E.
  unfold bind at 1, print at 1 in E.
  unfold bind at 1, glob_material at 1 in E.
  unfold bind at 1, get_fs at 1, ret at 1 in E.
  match type of E with
  | context [filter ?g ?l] => destruct (filter g l) as [|n fl]
  end.
  - unfold print in E. subst res. exact Hw.
  - unfold bind at 1 in E.
    match type of E with
    | context [for_each ?l process_file ?v] =>
        pose proof (for_each_ordered l v Hw) as H;
        destruct (for_each l process_file v) as [[[]|e] w1]
    end; cbn [snd] in H.
    + unfold print_summary, print in E. subst res. exact H.
    + subst res. exact H.
Qed.

(** X16. However the run ends, with a return or an exception, the counters
    of the updater are in order: no more files were written than blocks
    updated, and no more blocks updated than blocks found. *)
Theorem main_counters_ordered (f : filesystem) :
  counters_ordered (snd (main (start f))).
Proof.
  remember (main (start f)) as res eqn:E.
  unfold main, init in E. unfold bind at 1 in E. unfold bind at 1 in E.
  destruct (mkdir_backup (start f)) as [[[]|e] w1] eqn:M.
  - subst res. apply run_ordered. unfold counters_ordered. simpl. lia.
  - subst res. cbn [snd].
    unfold mkdir_backup, bind, get_fs, set_fs, ret, raise in M.
    destruct (input_exists (fs (start f)));
      [destruct (backup (fs (start f)));
       [|destruct (lookup backup_name (entries (fs (start f))))]|];
      try discriminate M;
      injection M as _ <-; unfold counters_ordered; simpl; lia.
Qed.
